(** * Arch indexer: a shallow embedding of [src/index.js]

    The development follows the source file top to bottom:

    - the two tables ([blocks], [transactions]) and the two prepared
      statements [insertBlock] / [insertTx] (index.js, lines 18-38);
    - a PostgreSQL session as the code drives it ([BEGIN], the upserts,
      [COMMIT], [ROLLBACK]) and [storeBlock] (lines 154-202);
    - the scheduler [syncBlocks] with its windows and rounds (lines 64-121)
      and the start-up callback (lines 369-384);
    - the smoothed block time kept by [processBlock] (lines 134-152);
    - the read handlers [/api/blocks], [/api/transactions] and
      [/api/search] (lines 208-216, 290-298, 449-481).

    JavaScript numbers that hold heights, counts and milliseconds are
    integers and are modelled in [Z]; the smoothed block time is a genuine
    double and is modelled with the kernel's binary64 floats; the number
    that [parseInt] makes of a search term is an integer rounded to a
    double, with the rounding written out in [Z]. A promise is modelled by
    its outcome ([Fulfilled] / [Rejected]). *)

From Stdlib Require Import String Ascii.
From Stdlib Require Import ZArith List Bool Lia.
From Stdlib Require Import Sorted Permutation Floats.
From Stdlib Require Decimal DecimalString DecimalPos.
Import ListNotations.

Set Warnings "-inexact-float".

Open Scope string_scope.
Open Scope list_scope.
Open Scope Z_scope.

(* ===================================================================== *)
(** ** Rows and tables *)
(* ===================================================================== *)

(** One row of [blocks (height, hash, timestamp, bitcoin_block_height)]. *)
Record BlockRow := {
  height : Z;
  hash : string;
  timestamp : Z;
  bitcoin_block_height : Z
}.

(** One row of
    [transactions (txid, block_height, data, status, bitcoin_txids)]. *)
Record TxRow := {
  txid : string;
  block_height : Z;
  data : string;
  status : Z;
  bitcoin_txids : list string
}.

(** The database: tables are row lists, so that duplicates and row order
    are visible and "exactly one row" is a statement, not a typing fact. *)
Record Store := {
  blocks : list BlockRow;
  transactions : list TxRow
}.

(** [ON CONFLICT (height)]: the conflict target of [insert-block]. *)
Definition same_height (new old : BlockRow) : bool :=
  height new =? height old.

(** [ON CONFLICT (txid)]: the conflict target of [insert-tx]. *)
Definition same_txid (new old : TxRow) : bool :=
  String.eqb (txid new) (txid old).

(** [DO UPDATE SET hash = EXCLUDED.hash, timestamp = EXCLUDED.timestamp,
    bitcoin_block_height = EXCLUDED.bitcoin_block_height]: the key column
    keeps the stored value, the listed columns take the proposed ones. *)
Definition update_block (excluded old : BlockRow) : BlockRow :=
  {| height := height old;
     hash := hash excluded;
     timestamp := timestamp excluded;
     bitcoin_block_height := bitcoin_block_height excluded |}.

(** [DO UPDATE SET block_height = EXCLUDED.block_height, data = ...,
    status = ..., bitcoin_txids = ...]. *)
Definition update_tx (excluded old : TxRow) : TxRow :=
  {| txid := txid old;
     block_height := block_height excluded;
     data := data excluded;
     status := status excluded;
     bitcoin_txids := bitcoin_txids excluded |}.

(** [INSERT ... ON CONFLICT (key) DO UPDATE SET ...] on a row list: with a
    conflicting row the conflicting rows are rewritten where they stand,
    without one the proposed row is appended. *)
Definition upsert {A : Type} (conflict : A -> A -> bool)
    (update : A -> A -> A) (new : A) (table : list A) : list A :=
  if existsb (conflict new) table
  then map (fun old => if conflict new old then update new old else old) table
  else table ++ [new].

(** [preparedStatements.insertBlock] on the [blocks] table. *)
Definition insertBlock : BlockRow -> list BlockRow -> list BlockRow :=
  upsert same_height update_block.

(** [preparedStatements.insertTx] on the [transactions] table. *)
Definition insertTx : TxRow -> list TxRow -> list TxRow :=
  upsert same_txid update_tx.

(** Modelled from the spec: the schema file [init.sql] is not part of the
    sources; the spec gives [blocks (height PK, hash UNIQUE, ...)]. A
    proposed block row violates [hash UNIQUE] when some row of another
    height already carries its hash. *)
Definition hash_taken (new : BlockRow) (table : list BlockRow) : bool :=
  existsb (fun old => String.eqb (hash old) (hash new)
                      && negb (height old =? height new)) table.

(** Modelled from the spec: [transactions (txid PK, block_height FK, ...)];
    the foreign key of a transaction row is satisfied when a block row of
    that height exists. *)
Definition parent_present (new : TxRow) (table : list BlockRow) : bool :=
  existsb (fun b => height b =? block_height new) table.

(* ===================================================================== *)
(** ** The node client, as far as [storeBlock] consumes it *)
(* ===================================================================== *)

(** [tx.status] as it comes from the node: a string, or any other
    JavaScript value (an object such as a failure record, [undefined]). *)
Inductive JsStatus :=
| StatusString (s : string)
| StatusOther.

(** The answer of [getProcessedTransaction]; [runtime_transaction] is held
    in its [JSON.stringify] form, [tx_bitcoin_txids] is [None] when the
    field is missing. *)
Record ProcessedTx := {
  runtime_transaction : string;
  tx_status : JsStatus;
  tx_bitcoin_txids : option (list string)
}.

(** The block object handed to [storeBlock]; [block_transactions] is [None]
    when the field is missing. *)
Record Block := {
  block_number : Z;            (* block.height *)
  block_hash : string;         (* block.hash *)
  block_timestamp : Z;         (* block.timestamp *)
  block_bitcoin_height : Z;    (* block.bitcoin_block_height *)
  block_transactions : option (list string)
}.

(** What surrounds one call of [storeBlock]: the node's answers
    ([None]: the call rejects or yields nothing usable), whether
    [pool.connect()] rejects, and which of the session's queries, counted
    from 0, reject for a reason of their own (a lost connection, a driver
    error); such a query is taken not to have run on the server. *)
Record Env := {
  getProcessedTransaction : string -> option ProcessedTx;
  connect_rejects : bool;
  query_rejects : nat -> bool
}.

(** The outcome of an awaited promise. *)
Inductive Result (A : Type) :=
| Fulfilled (a : A)
| Rejected.
Arguments Fulfilled {A} a.
Arguments Rejected {A}.

(* ===================================================================== *)
(** ** A database session *)
(* ===================================================================== *)

Inductive Stmt :=
| BEGIN
| INSERT_BLOCK (r : BlockRow)
| INSERT_TX (r : TxRow)
| COMMIT
| ROLLBACK.

(** A pooled client: [committed] is what every other session reads,
    [pending] the private state of the open transaction (if any),
    [aborted] the "current transaction is aborted" condition, [sent] the
    statements issued so far, oldest first. *)
Record Client := {
  committed : Store;
  pending : option Store;
  aborted : bool;
  sent : list Stmt
}.

Definition connect (db : Store) : Client :=
  {| committed := db; pending := None; aborted := false; sent := [] |}.

(** The rows a statement of this session sees. *)
Definition visible (c : Client) : Store :=
  match pending c with
  | Some s => s
  | None => committed c
  end.

(** A successful write goes to the open transaction, or straight to the
    committed state outside one. *)
Definition write (s : Store) (c : Client) : Client :=
  match pending c with
  | Some _ => {| committed := committed c; pending := Some s;
                 aborted := aborted c; sent := sent c |}
  | None => {| committed := s; pending := None;
               aborted := aborted c; sent := sent c |}
  end.

(** A statement that fails inside a transaction aborts it. *)
Definition fail_stmt (c : Client) : Client :=
  {| committed := committed c; pending := pending c;
     aborted := match pending c with Some _ => true | None => aborted c end;
     sent := sent c |}.

Definition run_stmt (q : Stmt) (c : Client) : Result unit * Client :=
  match q with
  | BEGIN =>
      (Fulfilled tt,
       match pending c with
       | Some _ => c
       | None => {| committed := committed c; pending := Some (committed c);
                    aborted := false; sent := sent c |}
       end)
  | COMMIT =>
      (Fulfilled tt,
       match pending c with
       | Some s =>
           {| committed := if aborted c then committed c else s;
              pending := None; aborted := false; sent := sent c |}
       | None => c
       end)
  | ROLLBACK =>
      (Fulfilled tt,
       {| committed := committed c; pending := None;
          aborted := false; sent := sent c |})
  | INSERT_BLOCK r =>
      if aborted c then (Rejected, c)
      else if hash_taken r (blocks (visible c)) then (Rejected, fail_stmt c)
      else (Fulfilled tt,
            write {| blocks := insertBlock r (blocks (visible c));
                     transactions := transactions (visible c) |} c)
  | INSERT_TX r =>
      if aborted c then (Rejected, c)
      else if parent_present r (blocks (visible c))
      then (Fulfilled tt,
            write {| blocks := blocks (visible c);
                     transactions := insertTx r (transactions (visible c)) |} c)
      else (Rejected, fail_stmt c)
  end.

(** Session code: a computation over the client that fulfils or rejects. *)
Definition Session (A : Type) : Type := Client -> Result A * Client.

Definition ret {A : Type} (a : A) : Session A := fun c => (Fulfilled a, c).

Definition throw {A : Type} : Session A := fun c => (Rejected, c).

Definition bind {A B : Type} (m : Session A) (k : A -> Session B) : Session B :=
  fun c =>
    match m c with
    | (Fulfilled a, c') => k a c'
    | (Rejected, c') => (Rejected, c')
    end.

Notation "x <- m ;; k" := (bind m (fun x => k))
  (at level 61, m at next level, right associativity).
Notation "m ;; k" := (bind m (fun _ => k))
  (at level 61, right associativity).

(** [try { body } catch (error) { handler }]. *)
Definition try_catch {A : Type} (body handler : Session A) : Session A :=
  fun c =>
    match body c with
    | (Fulfilled a, c') => (Fulfilled a, c')
    | (Rejected, c') => handler c'
    end.

(** [client.query(q)]: the statement is recorded as issued; it rejects on
    its own when the environment says so, and otherwise runs. *)
Definition query (E : Env) (q : Stmt) : Session unit :=
  fun c =>
    let c' := {| committed := committed c; pending := pending c;
                 aborted := aborted c; sent := sent c ++ [q] |} in
    if query_rejects E (length (sent c)) then (Rejected, c')
    else run_stmt q c'.

(** [txResults.map(... => client.query(...))] followed by
    [await Promise.all(queries)]: every query of the batch is issued, in
    order, and the batch rejects when one of them does. *)
Fixpoint query_all (E : Env) (qs : list Stmt) : Session unit :=
  match qs with
  | [] => ret tt
  | q :: qs' =>
      fun c =>
        match query E q c with
        | (r, c1) =>
            match query_all E qs' c1 with
            | (r', c2) =>
                (match r with Fulfilled _ => r' | Rejected => Rejected end, c2)
            end
        end
  end.

(* ===================================================================== *)
(** ** [storeBlock] (index.js, lines 154-202) *)
(* ===================================================================== *)

(** [tx.status === 'Processing' ? 0 : 1]. *)
Definition status_code (s : JsStatus) : Z :=
  match s with
  | StatusString s => if String.eqb s "Processing" then 0 else 1
  | StatusOther => 1
  end.

(** [tx.bitcoin_txids && tx.bitcoin_txids.length > 0 ? tx.bitcoin_txids
    : '{}'], the literal ['{}'] being the empty array. *)
Definition bitcoin_txids_param (o : option (list string)) : list string :=
  match o with
  | Some (x :: l) => x :: l
  | _ => []
  end.

(** The parameters bound to [insert-block]. *)
Definition insertBlock_args (b : Block) : BlockRow :=
  {| height := block_number b;
     hash := block_hash b;
     timestamp := block_timestamp b;
     bitcoin_block_height := block_bitcoin_height b |}.

(** The parameters bound to [insert-tx]. *)
Definition insertTx_args (b : Block) (txId : string) (tx : ProcessedTx) : TxRow :=
  {| txid := txId;
     block_height := block_number b;
     data := runtime_transaction tx;
     status := status_code (tx_status tx);
     bitcoin_txids := bitcoin_txids_param (tx_bitcoin_txids tx) |}.

(** [batch.map(async txId => ...)] awaited by [Promise.all]: the pairs
    [{txId, tx}] in the order of the batch, or a rejection. *)
Fixpoint resolve_all (E : Env) (batch : list string)
  : option (list (string * ProcessedTx)) :=
  match batch with
  | [] => Some []
  | txId :: rest =>
      match getProcessedTransaction E txId, resolve_all E rest with
      | Some tx, Some txResults => Some ((txId, tx) :: txResults)
      | _, _ => None
      end
  end.

Definition batchSize : nat := 50.

(** [array.slice(i, j)] for [0 <= i <= j]. *)
Definition slice {A : Type} (i j : nat) (l : list A) : list A :=
  firstn (j - i) (skipn i l).

(** [for (let i = 0; i < block.transactions.length; i += batchSize)];
    [fuel] bounds the number of iterations and is given as the number of
    transaction ids, which the loop cannot exceed. *)
Fixpoint tx_loop (E : Env) (b : Block) (fuel i : nat) (txs : list string)
  : Session unit :=
  match fuel with
  | O => ret tt
  | S fuel' =>
      if (i <? length txs)%nat then
        match resolve_all E (slice i (i + batchSize) txs) with
        | Some txResults =>
            query_all E
              (map (fun r => INSERT_TX (insertTx_args b (fst r) (snd r)))
                   txResults) ;;
            tx_loop E b fuel' (i + batchSize) txs
        | None => throw
        end
      else ret tt
  end.

(** The [try] block of [storeBlock]. *)
Definition storeBlock_try (E : Env) (b : Block) : Session unit :=
  query E BEGIN ;;
  query E (INSERT_BLOCK (insertBlock_args b)) ;;
  (match block_transactions b with
   | Some (t :: ts) => tx_loop E b (length (t :: ts)) 0 (t :: ts)
   | _ => ret tt
   end) ;;
  query E COMMIT.

(** The [catch] block: [await client.query('ROLLBACK'); throw error]. *)
Definition storeBlock_catch (E : Env) : Session unit :=
  query E ROLLBACK ;; throw.

(** [storeBlock] once a client is connected. *)
Definition storeBlock_session (E : Env) (b : Block) : Session unit :=
  try_catch (storeBlock_try E b) (storeBlock_catch E).

(** [storeBlock(block)] against the database [db]: the promise's outcome
    and the committed state left behind. *)
Definition storeBlock (E : Env) (db : Store) (b : Block) : Result unit * Store :=
  if connect_rejects E then (Rejected, db)
  else
    match storeBlock_session E b (connect db) with
    | (r, c) => (r, committed c)
    end.

(** The statements one [storeBlock] call issued. *)
Definition storeBlock_sent (E : Env) (db : Store) (b : Block) : list Stmt :=
  if connect_rejects E then []
  else sent (snd (storeBlock_session E b (connect db))).

(** The transaction ids of a block, none when the field is missing. *)
Definition tx_ids (b : Block) : list string :=
  match block_transactions b with
  | Some l => l
  | None => []
  end.

(** The row [storeBlock] binds for one transaction id. *)
Definition tx_row (E : Env) (b : Block) (txId : string) : option TxRow :=
  match getProcessedTransaction E txId with
  | Some tx => Some (insertTx_args b txId tx)
  | None => None
  end.

(** The effect of a write statement on rows shared without isolation. *)
Definition apply_write (s : Store) (q : Stmt) : Store :=
  match q with
  | INSERT_BLOCK r =>
      {| blocks := insertBlock r (blocks s); transactions := transactions s |}
  | INSERT_TX r =>
      {| blocks := blocks s; transactions := insertTx r (transactions s) |}
  | _ => s
  end.

(** The writes of [storeBlock] for rows [rows], in the order issued. *)
Definition writes (b : Block) (rows : list TxRow) : list Stmt :=
  INSERT_BLOCK (insertBlock_args b) :: map INSERT_TX rows.

(** Two writers running [w1] and [w2] against the same rows; the schedule
    says whose statement comes next ([true]: the first writer), and a
    writer that is alone runs to its end. *)
Fixpoint interleaved (schedule : list bool) (w1 w2 : list Stmt) (s : Store)
  : Store :=
  match schedule with
  | [] => fold_left apply_write (w1 ++ w2) s
  | true :: schedule' =>
      match w1 with
      | q :: w1' => interleaved schedule' w1' w2 (apply_write s q)
      | [] => fold_left apply_write w2 s
      end
  | false :: schedule' =>
      match w2 with
      | q :: w2' => interleaved schedule' w1 w2' (apply_write s q)
      | [] => fold_left apply_write w1 s
      end
  end.

(** Primary keys hold: no two block rows of one height, no two
    transaction rows of one id. *)
Definition keys_unique (db : Store) : Prop :=
  NoDup (map height (blocks db)) /\ NoDup (map txid (transactions db)).

(** Every transaction row has its parent block row. *)
Definition parents_present (db : Store) : Prop :=
  forall t, In t (transactions db) ->
  exists r, In r (blocks db) /\ height r = block_height t.

(** The rows of height [h], of transaction id [i]. *)
Definition block_rows (h : Z) (db : Store) : list BlockRow :=
  filter (fun r => height r =? h) (blocks db).

Definition tx_rows (i : string) (db : Store) : list TxRow :=
  filter (fun r => String.eqb (txid r) i) (transactions db).

(* ===================================================================== *)
(** ** [syncBlocks] (index.js, lines 64-121) and start-up (369-384) *)
(* ===================================================================== *)

Definition BATCH_SIZE : Z := 100.
Definition CONCURRENT_BATCHES : nat := 5.

(** [for (let i = 0; i < CONCURRENT_BATCHES; i++)]: the windows
    [(batchStart, batchEnd)] launched from iteration [i] on, [n] iterations
    being left. *)
Fixpoint launch (n : nat) (i : Z) (currentBlockHeight latestBlockHeight : Z)
  : list (Z * Z) :=
  match n with
  | O => []
  | S n' =>
      let batchStart := currentBlockHeight + i * BATCH_SIZE in
      if batchStart >? latestBlockHeight then []
      else
        let batchEnd := Z.min (batchStart + BATCH_SIZE - 1) latestBlockHeight in
        (batchStart, batchEnd)
          :: launch n' (i + 1) currentBlockHeight latestBlockHeight
  end.

Definition windows (currentBlockHeight latestBlockHeight : Z) : list (Z * Z) :=
  launch CONCURRENT_BATCHES 0 currentBlockHeight latestBlockHeight.

(** [for (let height = batchStart; height <= batchEnd; height++)]. *)
Definition heights (w : Z * Z) : list Z :=
  map (fun k => fst w + Z.of_nat k) (seq 0 (Z.to_nat (snd w - fst w + 1))).

(** [Promise.all(blockPromises)]: [processed h] tells whether
    [processBlock(h)] fulfilled in this round. *)
Definition batch_fulfils (processed : Z -> bool) (w : Z * Z) : bool :=
  forallb processed (heights w).

(** [Math.max(...ends)]; [None] stands for the [-Infinity] of an empty
    argument list. *)
Definition Math_max (ends : list Z) : option Z :=
  match ends with
  | [] => None
  | e :: rest => Some (fold_left Z.max rest e)
  end.

(** One iteration of the [while]: [Some next] when
    [Promise.all(batchPromises)] fulfils and the frontier is assigned,
    [None] when it rejects. With no window launched the model leaves the
    frontier alone; the loop guard excludes that case. *)
Definition round (processed : Z -> bool)
    (currentBlockHeight latestBlockHeight : Z) : option Z :=
  let launched := windows currentBlockHeight latestBlockHeight in
  if forallb (batch_fulfils processed) launched then
    match Math_max (map snd launched) with
    | Some m => Some (m + 1)
    | None => Some currentBlockHeight
    end
  else None.

(** What the scheduler does that can be seen from outside. *)
Inductive Event :=
| Assign (h : Z)          (* currentBlockHeight = h *)
| Sleep (ms : Z)          (* await new Promise(r => setTimeout(r, ms)) *)
| SetTimeout (ms : Z).    (* setTimeout(syncBlocks, ms) *)

(** [while (currentBlockHeight <= latestBlockHeight)]: [rounds] lists, per
    iteration, which [processBlock] calls fulfilled. The result is the
    frontier, the events, and whether the loop was left ([false]: still
    looping when the listed rounds were used up). *)
Fixpoint catch_up (rounds : list (Z -> bool))
    (currentBlockHeight latestBlockHeight : Z) : Z * list Event * bool :=
  if currentBlockHeight <=? latestBlockHeight then
    match rounds with
    | [] => (currentBlockHeight, [], false)
    | processed :: rounds' =>
        match round processed currentBlockHeight latestBlockHeight with
        | Some next =>
            match catch_up rounds' next latestBlockHeight with
            | (h, events, exited) => (h, Assign next :: events, exited)
            end
        | None =>
            match catch_up rounds' currentBlockHeight latestBlockHeight with
            | (h, events, exited) => (h, Sleep 2000 :: events, exited)
            end
        end
    end
  else (currentBlockHeight, [], true).

(** [const delay = currentBlockHeight >= latestBlockHeight ? 1000 : 100]. *)
Definition delay (currentBlockHeight latestBlockHeight : Z) : Z :=
  if currentBlockHeight >=? latestBlockHeight then 1000 else 100.

(** What the node answers at the head of a pass. *)
Inductive NodeAnswer :=
| NotReady                          (* isNodeReady() is false *)
| CallRejected                      (* isNodeReady / getBlockCount rejects *)
| Ready (latestBlockHeight : Z).    (* ready, with getBlockCount() *)

Record Pass := {
  answer : NodeAnswer;
  rounds_of : list (Z -> bool)
}.

(** One call of [syncBlocks]: the frontier, the events, and whether the
    call came to re-arm its timer. *)
Definition syncBlocks (p : Pass) (currentBlockHeight : Z)
  : Z * list Event * bool :=
  match answer p with
  | NotReady => (currentBlockHeight, [SetTimeout 5000], true)
  | CallRejected => (currentBlockHeight, [SetTimeout 5000], true)
  | Ready latestBlockHeight =>
      match catch_up (rounds_of p) currentBlockHeight latestBlockHeight with
      | (h, events, true) =>
          (h, events ++ [SetTimeout (delay h latestBlockHeight)], true)
      | (h, events, false) => (h, events, false)
      end
  end.

(** The timer chain: each pass starts where the previous one re-armed. *)
Fixpoint run_passes (passes : list Pass) (currentBlockHeight : Z)
  : Z * list Event :=
  match passes with
  | [] => (currentBlockHeight, [])
  | p :: passes' =>
      match syncBlocks p currentBlockHeight with
      | (h, events, true) =>
          match run_passes passes' h with
          | (h', events') => (h', events ++ events')
          end
      | (h, events, false) => (h, events)
      end
  end.

(** [SELECT MAX(height) as max_height FROM blocks]: [None] is SQL NULL. *)
Definition max_height (table : list BlockRow) : option Z :=
  Math_max (map height table).

(** [result.rows[0].max_height || 0]: NULL and 0 are the falsy cases. *)
Definition or_zero (v : option Z) : Z :=
  match v with
  | Some h => if h =? 0 then 0 else h
  | None => 0
  end.

(** The frontier the start-up callback assigns. *)
Definition startup (db : Store) : Z := or_zero (max_height (blocks db)).

(** The values [currentBlockHeight] holds during a process life, in
    order: the initialiser 0, the start-up value, every assignment of the
    passes. *)
Definition assigned (events : list Event) : list Z :=
  flat_map (fun e => match e with Assign h => [h] | _ => [] end) events.

Definition frontier_history (db : Store) (passes : list Pass) : list Z :=
  0 :: startup db :: assigned (snd (run_passes passes (startup db))).

(** The heights handed to [processBlock] by one round, in launch order. *)
Definition round_heights (currentBlockHeight latestBlockHeight : Z) : list Z :=
  flat_map heights (windows currentBlockHeight latestBlockHeight).

(* ===================================================================== *)
(** ** The smoothed block time of [processBlock] (lines 134-152) *)
(* ===================================================================== *)

(** [averageBlockTime === 0 ? blockTime
      : (averageBlockTime * 0.9 + blockTime * 0.1)], in binary64. *)
Definition update_averageBlockTime (averageBlockTime blockTime : float) : float :=
  if (averageBlockTime =? 0)%float then blockTime
  else (averageBlockTime * 0.9 + blockTime * 0.1)%float.

(** The average after a run of fulfilled [processBlock] calls, from the
    initialiser [let averageBlockTime = 0]. *)
Definition averageBlockTime_after (durations : list float) : float :=
  fold_left update_averageBlockTime durations 0%float.

(** The node calls of [processBlock]. *)
Record BlockSource := {
  getBlockHash : Z -> option string;
  getBlock : string -> option Block
}.

Record Indexer := {
  database : Store;
  averageBlockTime : float
}.

(** [processBlock(height)]; [blockTime] is the value of
    [Date.now() - blockStartTime] read after [storeBlock] fulfilled. *)
Definition processBlock (N : BlockSource) (E : Env) (h : Z) (blockTime : float)
    (st : Indexer) : Result Block * Indexer :=
  match getBlockHash N h with
  | None => (Rejected, st)
  | Some blockHash =>
      match getBlock N blockHash with
      | None => (Rejected, st)
      | Some fetched =>
          let block :=
            {| block_number := h;
               block_hash := blockHash;
               block_timestamp := block_timestamp fetched;
               block_bitcoin_height := block_bitcoin_height fetched;
               block_transactions := block_transactions fetched |} in
          match storeBlock E (database st) block with
          | (Fulfilled _, db) =>
              (Fulfilled block,
               {| database := db;
                  averageBlockTime :=
                    update_averageBlockTime (averageBlockTime st) blockTime |})
          | (Rejected, db) =>
              (Rejected,
               {| database := db; averageBlockTime := averageBlockTime st |})
          end
      end
  end.

(* ===================================================================== *)
(** ** Read handlers (lines 208-216, 290-298, 449-481) *)
(* ===================================================================== *)

(** [ORDER BY key DESC]: insertion into a descending list, after the rows
    of an equal key. *)
Fixpoint insert_desc {A : Type} (key : A -> Z) (x : A) (l : list A) : list A :=
  match l with
  | [] => [x]
  | y :: l' =>
      if key y <? key x then x :: y :: l' else y :: insert_desc key x l'
  end.

Fixpoint order_by_desc {A : Type} (key : A -> Z) (rows : list A) : list A :=
  match rows with
  | [] => []
  | r :: rows' => insert_desc key r (order_by_desc key rows')
  end.

(** [SELECT * FROM blocks ORDER BY height DESC LIMIT 200]. *)
Definition get_blocks (db : Store) : list BlockRow :=
  firstn 200 (order_by_desc height (blocks db)).

(** [SELECT * FROM transactions ORDER BY block_height DESC LIMIT 20]. *)
Definition get_transactions (db : Store) : list TxRow :=
  firstn 20 (order_by_desc block_height (transactions db)).

(** *** Texts and numbers of the search handler

    A JavaScript string is modelled by the bytes of its UTF-8 encoding,
    which is also what the database driver sends: a character outside
    ASCII takes two or three bytes. *)

Definition byte (c : ascii) : Z := Z.of_nat (nat_of_ascii c).

(** White space of one byte: TAB, LF, VT, FF, CR and SP. These are also
    the characters that the database skips around an integer. *)
Definition is_space (c : ascii) : bool :=
  let n := nat_of_ascii c in
  ((n =? 9) || (n =? 10) || (n =? 11) || (n =? 12) || (n =? 13) || (n =? 32))%nat.

(** White space of two bytes: U+00A0 (C2 A0). *)
Definition is_space2 (c1 c2 : ascii) : bool :=
  (byte c1 =? 194) && (byte c2 =? 160).

(** White space of three bytes: U+1680 (E1 9A 80), U+2000 to U+200A
    (E2 80 80 to E2 80 8A), U+2028, U+2029 and U+202F (E2 80 A8, A9, AF),
    U+205F (E2 81 9F), U+3000 (E3 80 80) and U+FEFF (EF BB BF). *)
Definition is_space3 (c1 c2 c3 : ascii) : bool :=
  let b1 := byte c1 in
  let b2 := byte c2 in
  let b3 := byte c3 in
  ((b1 =? 225) && (b2 =? 154) && (b3 =? 128))
  || ((b1 =? 226) && (b2 =? 128) && (128 <=? b3) && (b3 <=? 138))
  || ((b1 =? 226) && (b2 =? 128)
      && ((b3 =? 168) || (b3 =? 169) || (b3 =? 175)))
  || ((b1 =? 226) && (b2 =? 129) && (b3 =? 159))
  || ((b1 =? 227) && (b2 =? 128) && (b3 =? 128))
  || ((b1 =? 239) && (b2 =? 187) && (b3 =? 191)).

(** The leading white space and line terminators that [parseInt] skips. *)
Fixpoint trim_start (s : string) : string :=
  match s with
  | String c1 s1 =>
      if is_space c1 then trim_start s1
      else
        match s1 with
        | String c2 s2 =>
            if is_space2 c1 c2 then trim_start s2
            else
              match s2 with
              | String c3 s3 =>
                  if is_space3 c1 c2 c3 then trim_start s3 else s
              | EmptyString => s
              end
        | EmptyString => s
        end
  | EmptyString => s
  end.

(** The value of a character as a digit: 0-9, then a-z or A-Z for 10-35. *)
Definition digit_value (c : ascii) : option Z :=
  let n := Z.of_nat (nat_of_ascii c) in
  if (48 <=? n) && (n <=? 57) then Some (n - 48)
  else if (97 <=? n) && (n <=? 122) then Some (n - 87)
  else if (65 <=? n) && (n <=? 90) then Some (n - 55)
  else None.

(** The longest prefix of digits of the radix, read as a number; [acc] is
    [None] until a digit was read. *)
Fixpoint read_digits (radix : Z) (s : string) (acc : option Z) : option Z :=
  match s with
  | String c s' =>
      match digit_value c with
      | Some d =>
          if d <? radix
          then read_digits radix s'
                 (Some (match acc with Some a => a * radix + d | None => d end))
          else acc
      | None => acc
      end
  | EmptyString => acc
  end.

(** The decimal text of an integer: digits without leading zeros, a ["-"]
    before a negative number. *)
Definition decimal (z : Z) : string :=
  DecimalString.NilZero.string_of_int (Z.to_int z).

(** The numbers that [parseInt] returns: [NaN], an integer that a double
    holds, or an infinity. Zero carries no sign here: [-0] is not [NaN]
    and is sent to the database as ["0"]. *)
Inductive JsNumber :=
| JsNaN
| JsFinite (value : Z)
| JsInfinity (negative : bool).

Definition isNaN (n : JsNumber) : bool :=
  match n with
  | JsNaN => true
  | _ => false
  end.

(** The double nearest to an integer, ties to the even significand: up to
    2^53 the integer itself; above, the 53 leading bits [q] with the rest
    [r] rounded against [half]; an infinity from 2^1024 on. *)
Definition to_double (z : Z) : JsNumber :=
  let a := Z.abs z in
  if a <? 2 ^ 53 then JsFinite z
  else
    let e := Z.log2 a - 52 in
    let q := a / 2 ^ e in
    let r := a mod 2 ^ e in
    let half := 2 ^ (e - 1) in
    let q' := if (half <? r) || ((r =? half) && Z.odd q) then q + 1 else q in
    if 2 ^ 1024 <=? q' * 2 ^ e then JsInfinity (z <? 0)
    else JsFinite (Z.sgn z * (q' * 2 ^ e)).

(** [parseInt(term)] without a radix argument: white space, a sign, an
    optional [0x] / [0X] prefix that selects radix 16, digits; the number
    read is rounded to a double. *)
Definition parseInt (term : string) : JsNumber :=
  let s := trim_start term in
  let signed :=
    match s with
    | String "-" s' => (-1, s')
    | String "+" s' => (1, s')
    | _ => (1, s)
    end in
  let prefixed :=
    match snd signed with
    | String "0" (String "x" s') => (16, s')
    | String "0" (String "X" s') => (16, s')
    | s' => (10, s')
    end in
  match read_digits (fst prefixed) (snd prefixed) None with
  | Some n => to_double (fst signed * n)
  | None => JsNaN
  end.

(** The driver sends a number parameter as [val.toString()]. For a
    positive integer double [a] that text shows the decimal number with
    the fewest significant digits that reads back as [a], the nearest to
    [a] among those (the even one on a tie): [shortest] tries the two
    multiples of [10^j] around [a], from the largest [j] down. *)
Definition reads_back (a v : Z) : bool :=
  match to_double v with
  | JsFinite x => x =? a
  | _ => false
  end.

Fixpoint shortest (a : Z) (j : nat) : Z :=
  let p := 10 ^ Z.of_nat j in
  let lo := a / p * p in
  let hi := lo + p in
  match reads_back a lo, reads_back a hi with
  | true, true =>
      if a - lo <? hi - a then lo
      else if hi - a <? a - lo then hi
      else if Z.even (lo / p) then lo else hi
  | true, false => lo
  | false, true => hi
  | false, false =>
      match j with
      | O => a
      | S j' => shortest a j'
      end
  end.

Fixpoint strip_zeros (fuel : nat) (v : Z) : Z :=
  match fuel with
  | O => v
  | S fuel' =>
      if (0 <? v) && (v mod 10 =? 0) then strip_zeros fuel' (v / 10) else v
  end.

(** The text of a number of more than 21 digits: the significant digits
    with a point after the first, then [e+] and the exponent. *)
Definition exponential (v : Z) : string :=
  let n := String.length (decimal v) in
  let e := String.append "e+" (decimal (Z.of_nat n - 1)) in
  match decimal (strip_zeros n v) with
  | String d EmptyString => String d e
  | String d digits => String d (String "." (String.append digits e))
  | EmptyString => e
  end.

Definition Number_toString (n : JsNumber) : string :=
  match n with
  | JsNaN => "NaN"
  | JsInfinity negative => if negative then "-Infinity" else "Infinity"
  | JsFinite z =>
      let a := Z.abs z in
      let v := shortest a (String.length (decimal a)) in
      let text := if v <? 10 ^ 21 then decimal v else exponential v in
      if z <? 0 then String "-" text else text
  end.

(** Modelled from the spec: the schema file [init.sql] is not part of the
    sources; the spec gives [height] as an integer column without naming
    its width, so the width is left open. *)
Inductive IntType := smallint | integer | bigint.

Definition int_bits (ty : IntType) : Z :=
  match ty with
  | smallint => 16
  | integer => 32
  | bigint => 64
  end.

Definition in_range (ty : IntType) (v : Z) : bool :=
  (- 2 ^ (int_bits ty - 1) <=? v) && (v <=? 2 ^ (int_bits ty - 1) - 1).

Fixpoint skip_spaces (s : string) : string :=
  match s with
  | String c s' => if is_space c then skip_spaces s' else s
  | EmptyString => s
  end.

Fixpoint spaces_only (s : string) : bool :=
  match s with
  | String c s' => is_space c && spaces_only s'
  | EmptyString => true
  end.

Definition decimal_digit (c : ascii) : option Z :=
  match digit_value c with
  | Some d => if d <? 10 then Some d else None
  | None => None
  end.

Fixpoint digits_then_spaces (s : string) (acc : Z) : option Z :=
  match s with
  | String c s' =>
      match decimal_digit c with
      | Some d => digits_then_spaces s' (acc * 10 + d)
      | None => if spaces_only s then Some acc else None
      end
  | EmptyString => Some acc
  end.

(** How the database reads the text of a parameter that is compared with
    an integer column: white space, a sign, decimal digits, white space,
    and a value within the range of the type. [None] is the error the
    server raises on any other text, such as ["1e+23"] or ["Infinity"].
    Only the decimal syntax is modelled; the texts of numbers offer no
    other. *)
Definition int_in (ty : IntType) (text : string) : option Z :=
  let s := skip_spaces text in
  let signed :=
    match s with
    | String c s' =>
        if Ascii.eqb c "-" then (true, s')
        else if Ascii.eqb c "+" then (false, s')
        else (false, s)
    | EmptyString => (false, s)
    end in
  match snd signed with
  | String c _ =>
      match decimal_digit c, digits_then_spaces (snd signed) 0 with
      | Some _, Some n =>
          let v := if fst signed then - n else n in
          if in_range ty v then Some v else None
      | _, _ => None
      end
  | EmptyString => None
  end.

(** The [height] parameter of the third query as the server reads it. *)
Definition height_param (ty : IntType) (number : JsNumber) : option Z :=
  int_in ty (Number_toString number).

(** A text parameter is refused by the server when it holds the character
    U+0000, which no text value can hold. *)
Fixpoint text_in (s : string) : bool :=
  match s with
  | String c s' => negb (Ascii.eqb c Ascii.zero) && text_in s'
  | EmptyString => true
  end.

(** *** [/api/search] (lines 449-481) *)

(** The database behind [pool]: the type of the [height] column and, for
    the [k]-th query of a request, whether the database fails to answer
    (connection lost, server down). *)
Record Pool := {
  height_type : IntType;
  pool_rejects : nat -> bool
}.

(** [await pool.query(text, [param])], the [k]-th of the handler: the
    rows, or [None] for a rejected promise, which takes the handler to
    its [catch]. *)
Definition pool_query {A : Type} (P : Pool) (k : nat) (accepted : bool)
  (rows : A) : option A :=
  if pool_rejects P k || negb accepted then None else Some rows.

(** The answers of [/api/search]. *)
Inductive SearchResponse :=
| FoundTransaction (data : TxRow)    (* { type: 'transaction', data } *)
| FoundBlock (data : BlockRow)       (* { type: 'block', data } *)
| NotFound                           (* status 404 *)
| ServerError.                       (* status 500, from [catch] *)

(** [SELECT * FROM transactions WHERE txid = $1], first row. *)
Definition tx_by_id (db : Store) (term : string) : option TxRow :=
  find (fun t => String.eqb (txid t) term) (transactions db).

(** [SELECT * FROM blocks WHERE hash = $1], first row. *)
Definition block_by_hash (db : Store) (term : string) : option BlockRow :=
  find (fun b => String.eqb (hash b) term) (blocks db).

(** [SELECT * FROM blocks WHERE height = $1], first row. *)
Definition block_by_height (db : Store) (h : Z) : option BlockRow :=
  find (fun b => height b =? h) (blocks db).

(** The handler for a [term] that is a string. *)
Definition search (P : Pool) (db : Store) (term : string) : SearchResponse :=
  match pool_query P 0 (text_in term) (tx_by_id db term) with
  | None => ServerError
  | Some (Some t) => FoundTransaction t
  | Some None =>
      match pool_query P 1 (text_in term) (block_by_hash db term) with
      | None => ServerError
      | Some (Some b) => FoundBlock b
      | Some None =>
          let number := parseInt term in
          if isNaN number then NotFound
          else
            match height_param (height_type P) number with
            | None => ServerError
            | Some h =>
                match pool_query P 2 true (block_by_height db h) with
                | None => ServerError
                | Some (Some b) => FoundBlock b
                | Some None => NotFound
                end
            end
      end
  end.

(* ===================================================================== *)
(** ** Notions used to state the properties *)
(* ===================================================================== *)

(** A row is settled in a table when it is there and every row of its key
    is a copy of it. *)
Definition settled {A K : Type} (key : A -> K) (r : A) (table : list A) : Prop :=
  In r table /\ forall x, In x table -> key x = key r -> x = r.

(** A write statement is settled in a store when its row is. *)
Definition settled_write (q : Stmt) (s : Store) : Prop :=
  match q with
  | INSERT_BLOCK r => settled height r (blocks s)
  | INSERT_TX r => settled txid r (transactions s)
  | _ => True
  end.

(** Two write statements agree when they do not propose different rows
    for one key. *)
Definition agree (q q' : Stmt) : Prop :=
  match q, q' with
  | INSERT_BLOCK r, INSERT_BLOCK r' => height r = height r' -> r = r'
  | INSERT_TX r, INSERT_TX r' => txid r = txid r' -> r = r'
  | _, _ => True
  end.

Definition consistent (w : list Stmt) : Prop :=
  forall q q', In q w -> In q' w -> agree q q'.

(** Two writers that run the same statement list against [db] have issued
    the prefixes [p1] and [p2]; the shared rows [s] are in step when they
    are what the longer prefix alone would have left. *)
Definition in_step (db : Store) (p1 p2 : list Stmt) (s : Store) : Prop :=
  ((exists d, p1 = p2 ++ d) /\ s = fold_left apply_write p1 db)
  \/ ((exists d, p2 = p1 ++ d) /\ s = fold_left apply_write p2 db).

(** A client inside a healthy transaction: [db] committed, [s] pending,
    [log] issued. *)
Definition txn (db s : Store) (log : list Stmt) : Client :=
  {| committed := db; pending := Some s; aborted := false; sent := log |}.

(** A client inside a transaction, healthy or not, over committed [db]. *)
Definition open_on (db : Store) (c : Client) : Prop :=
  committed c = db /\ pending c <> None.

(** The statements that write rows. *)
Definition is_insert (q : Stmt) : bool :=
  match q with
  | INSERT_BLOCK _ | INSERT_TX _ => true
  | _ => false
  end.

(** The rows [storeBlock] binds for all transactions of a block, when the
    node resolves every id. *)
Definition rows_for (b : Block) (txResults : list (string * ProcessedTx))
  : list TxRow :=
  map (fun r => insertTx_args b (fst r) (snd r)) txResults.

Definition resolved_rows (E : Env) (b : Block) : option (list TxRow) :=
  match resolve_all E (tx_ids b) with
  | Some txResults => Some (rows_for b txResults)
  | None => None
  end.

(** The outcome of [storeBlock] read off its inputs: it fulfils when the
    connection is granted, every id resolves, none of the statements
    (BEGIN, the block, one per transaction, COMMIT) rejects on its own and
    the hash is free; it then leaves the writes applied. Otherwise it
    rejects and leaves the database as it was. *)
Definition storeBlock_outcome (E : Env) (db : Store) (b : Block)
  : Result unit * Store :=
  match resolved_rows E b with
  | Some rows =>
      if connect_rejects E
         || existsb (query_rejects E) (seq 0 (length rows + 3))
         || hash_taken (insertBlock_args b) (blocks db)
      then (Rejected, db)
      else (Fulfilled tt, fold_left apply_write (writes b rows) db)
  | None => (Rejected, db)
  end.

(** Sample inputs: a node that knows every id but ["lost"] and reports
    ["p"] as still processing; a database that already holds heights 2
    and 3 and transaction ["a"]; a block of height 3 naming ["a"] twice. *)
Definition sample_env : Env :=
  {| getProcessedTransaction := fun i =>
       if String.eqb i "lost" then None
       else Some {| runtime_transaction := "{}";
                    tx_status := StatusString
                      (if String.eqb i "p" then "Processing" else "Processed");
                    tx_bitcoin_txids := None |};
     connect_rejects := false;
     query_rejects := fun _ => false |}.

Definition sample_db : Store :=
  {| blocks :=
       [ {| height := 2; hash := "h2"; timestamp := 20;
            bitcoin_block_height := 7 |};
         {| height := 3; hash := "stale"; timestamp := 29;
            bitcoin_block_height := 7 |} ];
     transactions :=
       [ {| txid := "a"; block_height := 2; data := "{}"; status := 0;
            bitcoin_txids := [] |} ] |}.

Definition sample_block : Block :=
  {| block_number := 3; block_hash := "h3"; block_timestamp := 30;
     block_bitcoin_height := 8;
     block_transactions := Some ["a"; "p"; "a"] |}.

(** A block of 51 transactions whose last id the node cannot resolve: the
    first sub-batch of 50 is written before the failure shows. *)
Definition sample_block_lost : Block :=
  {| block_number := 4; block_hash := "h4"; block_timestamp := 40;
     block_bitcoin_height := 8;
     block_transactions := Some (repeat "b" 50 ++ ["lost"]) |}.

(** The frontier climbs from [lo] to [hi] along [events]: its assigned
    values never go down and stay between the two. *)
Definition climbs (lo hi : Z) (events : list Event) : Prop :=
  lo <= hi
  /\ StronglySorted Z.le (assigned events)
  /\ Forall (fun h => lo <= h <= hi) (assigned events).

(** A pass over a chain of height 249 whose first round loses height 150. *)
Definition sample_pass : Pass :=
  {| answer := Ready 249;
     rounds_of := [fun h => negb (h =? 150); fun _ => true] |}.

(** A pass over a chain of height 600, which takes two rounds. *)
Definition sample_pass_two_rounds : Pass :=
  {| answer := Ready 600;
     rounds_of := [fun _ => true; fun _ => true] |}.

(** Descending order on a key. *)
Definition desc {A : Type} (key : A -> Z) (x y : A) : Prop := key y <= key x.

(** The integer that the text of the number [x] denotes: [x] itself up to
    2^53, the shortest decimal that reads back as [x] beyond. *)
Definition printed (x : Z) : Z :=
  let a := Z.abs x in
  let v := shortest a (String.length (decimal a)) in
  if x <? 0 then - v else v.

(** The same rounding by the Standard Library's model of binary64
    ([SpecFloat], precision 53, exponents up to 1024), to compare
    [to_double] with. *)
Definition binary64_of (z : Z) : JsNumber :=
  match SpecFloat.binary_normalize 53 1024 z 0 false with
  | SpecFloat.S754_zero _ => JsFinite 0
  | SpecFloat.S754_infinity negative => JsInfinity negative
  | SpecFloat.S754_nan => JsNaN
  | SpecFloat.S754_finite negative m e =>
      let v := if 0 <=? e then Z.pos m * 2 ^ e else Z.pos m / 2 ^ (- e) in
      JsFinite (if negative then - v else v)
  end.

(** A text of decimal digits only. *)
Fixpoint all_digits (s : string) : bool :=
  match s with
  | String c s' =>
      match decimal_digit c with
      | Some _ => all_digits s'
      | None => false
      end
  | EmptyString => true
  end.

(** A database that answers every query, with a [height] column of the
    given type. *)
Definition answering (ty : IntType) : Pool :=
  {| height_type := ty; pool_rejects := fun _ => false |}.

(* ===================================================================== *)
(** ** The remaining read handlers (lines 218-343, 386-447) *)
(* ===================================================================== *)

(** [/api/transactions/:txid] (lines 300-313): [rows[0]] of
    [SELECT * FROM transactions WHERE txid = $1], or 404. *)
Inductive TxResponse :=
| TxJson (row : TxRow)
| TxNotFound.

Definition get_transaction (db : Store) (txid_param : string) : TxResponse :=
  match tx_rows txid_param db with
  | row :: _ => TxJson row
  | [] => TxNotFound
  end.

(** The body of a block answer: the columns of the block row,
    [previous_block_hash] and the ids of its transactions. *)
Record BlockDetail := {
  detail_block : BlockRow;
  previous_block_hash : option string;
  detail_transactions : list string
}.

Inductive BlockResponse :=
| BlockJson (detail : BlockDetail)
| BlockNotFound.

(** [(SELECT hash FROM blocks WHERE height = b.height - 1)]: the scalar
    subquery, NULL without such a row. *)
Definition previous_hash (db : Store) (b : BlockRow) : option string :=
  match block_rows (height b - 1) db with
  | r :: _ => Some (hash r)
  | [] => None
  end.

(** [SELECT txid FROM transactions WHERE block_height = $1] mapped to the
    ids, and the answer [{...block, transactions}]. *)
Definition block_detail (db : Store) (b : BlockRow) (h : Z) : BlockDetail :=
  {| detail_block := b;
     previous_block_hash := previous_hash db b;
     detail_transactions :=
       map txid (filter (fun t => block_height t =? h) (transactions db)) |}.

(** [/api/blocks/:blockhash] (lines 218-252); the transactions are looked
    up under [block.height]. *)
Definition get_block_by_hash (db : Store) (blockhash : string) : BlockResponse :=
  match filter (fun b => String.eqb (hash b) blockhash) (blocks db) with
  | b :: _ => BlockJson (block_detail db b (height b))
  | [] => BlockNotFound
  end.

(** [/api/blocks/height/:height] (lines 254-288), for a route parameter
    that the server reads as the integer [h]; the transactions are looked
    up under the parameter. *)
Definition get_block_by_height (db : Store) (h : Z) : BlockResponse :=
  match block_rows h db with
  | b :: _ => BlockJson (block_detail db b h)
  | [] => BlockNotFound
  end.

(** The integer fields of the [/api/sync-status] answer (lines 330-334):
    [currentBlockHeight], [latestBlockHeight] and
    [isSynced: currentBlockHeight >= latestBlockHeight]. *)
Record SyncStatus := {
  status_currentBlockHeight : Z;
  status_latestBlockHeight : Z;
  isSynced : bool
}.

Definition sync_status (currentBlockHeight latestBlockHeight : Z) : SyncStatus :=
  {| status_currentBlockHeight := currentBlockHeight;
     status_latestBlockHeight := latestBlockHeight;
     isSynced := currentBlockHeight >=? latestBlockHeight |}.

(** The derived table [recent_data] of [/api/network-stats] (lines
    417-427): [blocks b LEFT JOIN transactions t ON b.height =
    t.block_height WHERE b.height > (SELECT MAX(height) - 100 FROM
    blocks)], as rows [(b.timestamp, t.txid)]; a block without
    transactions gives one row with a NULL [txid]. *)
Definition transactions_of (db : Store) (b : BlockRow) : list TxRow :=
  filter (fun t => height b =? block_height t) (transactions db).

Definition left_join_row (db : Store) (b : BlockRow) : list (Z * option string) :=
  match transactions_of db b with
  | [] => [(timestamp b, None)]
  | ts => map (fun t => (timestamp b, Some (txid t))) ts
  end.

Definition recent_blocks (db : Store) : list BlockRow :=
  match max_height (blocks db) with
  | Some m => filter (fun b => height b >? m - 100) (blocks db)
  | None => []
  end.

Definition recent_data (db : Store) : list (Z * option string) :=
  flat_map (left_join_row db) (recent_blocks db).

(** [SELECT COUNT( * ) as tx_count FROM (...) as recent_data]. *)
Definition last100BlocksTxCount (db : Store) : nat := length (recent_data db).

(** [SELECT COUNT( * ) as total_transactions FROM transactions], handed over
    as the decimal text of the count, and
    [parseInt(txRows[0].total_transactions)] (lines 389-390). *)
Definition totalTransactions (db : Store) : JsNumber :=
  parseInt (decimal (Z.of_nat (length (transactions db)))).

(* ===================================================================== *)
(** ** [connectWithRetry] (lines 352-367) *)
(* ===================================================================== *)

Definition MAX_RETRIES : nat := 10.
Definition RETRY_DELAY : Z := 5000.

(** [while (retries < MAX_RETRIES)]: [attempt k] tells whether the call of
    [pool.connect()] made after [k] failures fulfils; [budget] is
    [MAX_RETRIES - retries]. The result is [true] for the [return] and
    [false] for [process.exit(1)], with the sleeps in between. *)
Fixpoint connect_loop (attempt : nat -> bool) (retries budget : nat)
  : bool * list Event :=
  match budget with
  | O => (false, [])
  | S budget' =>
      if attempt retries then (true, [])
      else
        match connect_loop attempt (S retries) budget' with
        | (connected, events) => (connected, Sleep RETRY_DELAY :: events)
        end
  end.

Definition connectWithRetry (attempt : nat -> bool) : bool * list Event :=
  connect_loop attempt 0 MAX_RETRIES.

(* ===================================================================== *)
(** * Properties *)
(* ===================================================================== *)

(** ** Upserts on a keyed row list *)

Section Upsert.
Variables (A K : Type) (key : A -> K).
Variables (conflict : A -> A -> bool) (update : A -> A -> A).
Hypothesis conflict_spec :
  forall new old, conflict new old = true <-> key new = key old.
Hypothesis update_spec :
  forall new old, key new = key old -> update new old = new.

Lemma upsert_update (new : A) (table : list A) :
  existsb (conflict new) table = true ->
  upsert conflict update new table
  = map (fun old => if conflict new old then new else old) table.
Proof.
  intros E. unfold upsert. rewrite E. apply map_ext_in. intros old _.
  destruct (conflict new old) eqn:C; [|reflexivity].
  apply update_spec, conflict_spec, C.
Qed.

Lemma upsert_keys (new : A) (table : list A) :
  map key (upsert conflict update new table)
  = if existsb (conflict new) table then map key table
    else map key table ++ [key new].
Proof.
  destruct (existsb (conflict new) table) eqn:E.
  - rewrite upsert_update by assumption. rewrite map_map.
    apply map_ext. intros old.
    destruct (conflict new old) eqn:C; [|reflexivity].
    apply conflict_spec, C.
  - unfold upsert. rewrite E, map_app. reflexivity.
Qed.

Lemma conflict_free (new : A) (table : list A) :
  existsb (conflict new) table = false -> ~ In (key new) (map key table).
Proof.
  intros E H. apply in_map_iff in H. destruct H as [x [Hk Hx]].
  assert (existsb (conflict new) table = true) as E'.
  { apply existsb_exists. exists x. split; [assumption|].
    apply conflict_spec. symmetry. assumption. }
  congruence.
Qed.

Lemma upsert_NoDup (new : A) (table : list A) :
  NoDup (map key table) -> NoDup (map key (upsert conflict update new table)).
Proof.
  intros H. rewrite upsert_keys.
  destruct (existsb (conflict new) table) eqn:E; [assumption|].
  apply NoDup_app; [assumption | repeat constructor; intros [] | ].
  intros k Hk [<-|[]]. revert Hk. apply conflict_free, E.
Qed.

Lemma upsert_absorb (r : A) (table : list A) :
  settled key r table -> upsert conflict update r table = table.
Proof.
  intros [Hin Hall].
  rewrite upsert_update.
  - rewrite <- (map_id table) at 2. apply map_ext_in. intros old Hold.
    destruct (conflict r old) eqn:C; [|reflexivity].
    symmetry. apply Hall; [assumption|].
    symmetry. apply conflict_spec, C.
  - apply existsb_exists. exists r. split; [assumption|].
    apply conflict_spec. reflexivity.
Qed.

Lemma upsert_settled (r : A) (table : list A) :
  settled key r (upsert conflict update r table).
Proof.
  destruct (existsb (conflict r) table) eqn:E.
  - rewrite upsert_update by assumption. split.
    + apply existsb_exists in E. destruct E as [x [Hx C]].
      apply in_map_iff. exists x. rewrite C. auto.
    + intros x Hx Hk. apply in_map_iff in Hx. destruct Hx as [old [<- Hold]].
      destruct (conflict r old) eqn:C; [reflexivity|].
      exfalso. assert (conflict r old = true) as C'
        by (apply conflict_spec; symmetry; exact Hk).
      congruence.
  - unfold upsert. rewrite E. split.
    + apply in_or_app. right. left. reflexivity.
    + intros x Hx Hk. apply in_app_or in Hx. destruct Hx as [Hx|[<-|[]]].
      * exfalso. apply (conflict_free _ _ E). rewrite <- Hk.
        apply in_map. assumption.
      * reflexivity.
Qed.

Lemma upsert_settled_other (r r' : A) (table : list A) :
  settled key r table ->
  (key r' = key r -> r' = r) ->
  settled key r (upsert conflict update r' table).
Proof.
  intros [Hin Hall] Hagree.
  destruct (existsb (conflict r') table) eqn:E.
  - rewrite upsert_update by assumption. split.
    + apply in_map_iff. exists r. split; [|assumption].
      destruct (conflict r' r) eqn:C; [|reflexivity].
      apply Hagree, conflict_spec, C.
    + intros x Hx Hk. apply in_map_iff in Hx. destruct Hx as [old [<- Hold]].
      destruct (conflict r' old) eqn:C.
      * apply Hagree. assumption.
      * apply Hall; assumption.
  - unfold upsert. rewrite E. split.
    + apply in_or_app. left. assumption.
    + intros x Hx Hk. apply in_app_or in Hx. destruct Hx as [Hx|[<-|[]]].
      * apply Hall; assumption.
      * apply Hagree. assumption.
Qed.

Lemma upsert_in (new x : A) (table : list A) :
  In x (upsert conflict update new table) -> In x table \/ x = new.
Proof.
  destruct (existsb (conflict new) table) eqn:E.
  - rewrite upsert_update by assumption. intros H.
    apply in_map_iff in H. destruct H as [old [<- Hold]].
    destruct (conflict new old); auto.
  - unfold upsert. rewrite E. intros H.
    apply in_app_or in H. destruct H as [H|[<-|[]]]; auto.
Qed.

Lemma settled_rows (p : A -> bool) (r : A) (table : list A) :
  (forall x, p x = true <-> key x = key r) ->
  NoDup (map key table) -> In r table -> filter p table = [r].
Proof.
  intros Hp. induction table as [|x l IH]; simpl; intros Hnd Hin; [contradiction|].
  inversion Hnd as [|k ks Hk Hnd']; subst.
  assert (forall y, In y l -> key y <> key x) as Hfresh.
  { intros y Hy Heq. apply Hk. rewrite <- Heq. apply in_map. assumption. }
  destruct Hin as [->|Hin].
  - assert (p r = true) as -> by (apply Hp; reflexivity).
    f_equal. clear IH Hnd Hnd' Hk.
    induction l as [|y l IH]; simpl; [reflexivity|].
    destruct (p y) eqn:Py.
    + exfalso. apply (Hfresh y); [left; reflexivity|]. apply Hp, Py.
    + apply IH. intros z Hz. apply Hfresh. right. assumption.
  - destruct (p x) eqn:Px.
    + exfalso. apply (Hfresh r Hin). symmetry. apply Hp, Px.
    + apply IH; assumption.
Qed.
End Upsert.

(** ** The two tables *)

Lemma same_height_spec (new old : BlockRow) :
  same_height new old = true <-> height new = height old.
Proof. unfold same_height. apply Z.eqb_eq. Qed.

Lemma update_block_spec (new old : BlockRow) :
  height new = height old -> update_block new old = new.
Proof. intros H. destruct new. unfold update_block. simpl in *. congruence. Qed.

Lemma same_txid_spec (new old : TxRow) :
  same_txid new old = true <-> txid new = txid old.
Proof. unfold same_txid. apply String.eqb_eq. Qed.

Lemma update_tx_spec (new old : TxRow) :
  txid new = txid old -> update_tx new old = new.
Proof. intros H. destruct new. unfold update_tx. simpl in *. congruence. Qed.

Lemma agree_sym (q q' : Stmt) : agree q q' -> agree q' q.
Proof.
  destruct q, q'; simpl; auto; intros H E; symmetry; apply H; symmetry; exact E.
Qed.

Lemma apply_write_absorb (q : Stmt) (s : Store) :
  settled_write q s -> apply_write s q = s.
Proof.
  destruct s as [bs ts]. destruct q; simpl; intros H; try reflexivity.
  - unfold insertBlock.
    rewrite (upsert_absorb _ _ height _ _ same_height_spec update_block_spec) by exact H.
    reflexivity.
  - unfold insertTx.
    rewrite (upsert_absorb _ _ txid _ _ same_txid_spec update_tx_spec) by exact H.
    reflexivity.
Qed.

Lemma apply_write_settled (q : Stmt) (s : Store) :
  settled_write q (apply_write s q).
Proof.
  destruct q; simpl; auto.
  - apply (upsert_settled _ _ height _ _ same_height_spec update_block_spec).
  - apply (upsert_settled _ _ txid _ _ same_txid_spec update_tx_spec).
Qed.

Lemma apply_write_settled_other (q q' : Stmt) (s : Store) :
  settled_write q s -> agree q' q -> settled_write q (apply_write s q').
Proof.
  destruct q, q'; simpl; auto; intros H Ha.
  - apply (upsert_settled_other _ _ height _ _ same_height_spec update_block_spec);
      assumption.
  - apply (upsert_settled_other _ _ txid _ _ same_txid_spec update_tx_spec);
      assumption.
Qed.

Lemma apply_write_keys_unique (q : Stmt) (s : Store) :
  keys_unique s -> keys_unique (apply_write s q).
Proof.
  intros [Hb Ht]. destruct q; simpl; split; simpl; auto.
  - apply (upsert_NoDup _ _ height _ _ same_height_spec update_block_spec), Hb.
  - apply (upsert_NoDup _ _ txid _ _ same_txid_spec update_tx_spec), Ht.
Qed.

Lemma writes_keys_unique (w : list Stmt) (s : Store) :
  keys_unique s -> keys_unique (fold_left apply_write w s).
Proof.
  revert s. induction w as [|q w IH]; simpl; intros s H; [assumption|].
  apply IH, apply_write_keys_unique, H.
Qed.

Lemma writes_keep_settled (q : Stmt) (w : list Stmt) (s : Store) :
  settled_write q s -> (forall q', In q' w -> agree q' q) ->
  settled_write q (fold_left apply_write w s).
Proof.
  revert s. induction w as [|q0 w IH]; simpl; intros s H Ha; [assumption|].
  apply IH.
  - apply apply_write_settled_other; auto.
  - intros q' Hq'. apply Ha. auto.
Qed.

Lemma writes_settle (w : list Stmt) (s : Store) (q : Stmt) :
  consistent w -> In q w -> settled_write q (fold_left apply_write w s).
Proof.
  revert s. induction w as [|q0 w IH]; simpl; intros s Hc Hq; [contradiction|].
  assert (consistent w) as Hc'.
  { intros a a' Ha Ha'. apply Hc; right; assumption. }
  destruct Hq as [->|Hq].
  - apply writes_keep_settled.
    + apply apply_write_settled.
    + intros q' Hq'. apply Hc; [right; assumption | left; reflexivity].
  - apply IH; assumption.
Qed.

Lemma writes_absorbed (w : list Stmt) (s : Store) :
  (forall q, In q w -> settled_write q s) -> fold_left apply_write w s = s.
Proof.
  induction w as [|q w IH]; simpl; intros H; [reflexivity|].
  rewrite apply_write_absorb by (apply H; left; reflexivity).
  apply IH. intros q' Hq'. apply H. right. assumption.
Qed.

(** Running the writes of a consistent list a second time changes
    nothing. *)
Lemma writes_idempotent (w : list Stmt) (s : Store) :
  consistent w ->
  fold_left apply_write w (fold_left apply_write w s) = fold_left apply_write w s.
Proof.
  intros Hc. apply writes_absorbed. intros q Hq. apply writes_settle; assumption.
Qed.

(** ** Two writers of the same statements *)

Lemma consistent_prefix (p w : list Stmt) : consistent (p ++ w) -> consistent p.
Proof. intros H q q' Hq Hq'. apply H; apply in_or_app; left; assumption. Qed.

Lemma in_step_sym (db : Store) (p1 p2 : list Stmt) (s : Store) :
  in_step db p1 p2 s -> in_step db p2 p1 s.
Proof. unfold in_step. tauto. Qed.

Lemma in_step_advance (db : Store) (p1 p2 w1 w2 : list Stmt) (q : Stmt) (s : Store) :
  consistent (p2 ++ w2) ->
  p1 ++ q :: w1 = p2 ++ w2 ->
  in_step db p1 p2 s ->
  in_step db (p1 ++ [q]) p2 (apply_write s q).
Proof.
  intros Hc HW [[[d ->] ->]|[[d ->] ->]].
  - left. split.
    + exists (d ++ [q]). rewrite app_assoc. reflexivity.
    + rewrite !fold_left_app. reflexivity.
  - destruct d as [|q0 d].
    + rewrite app_nil_r in *. left. split.
      * exists [q]. reflexivity.
      * rewrite !fold_left_app. reflexivity.
    + rewrite <- app_assoc in HW. apply app_inv_head in HW.
      simpl in HW. injection HW as -> _.
      right. split.
      * exists d. rewrite <- app_assoc. reflexivity.
      * apply apply_write_absorb. apply writes_settle.
        -- apply (consistent_prefix _ w2). exact Hc.
        -- apply in_or_app. right. left. reflexivity.
Qed.

Lemma in_step_finish (db : Store) (p1 p2 w1 w2 : list Stmt) (s : Store) :
  consistent (p2 ++ w2) ->
  p1 ++ w1 = p2 ++ w2 ->
  in_step db p1 p2 s ->
  fold_left apply_write (w1 ++ w2) s = fold_left apply_write (p2 ++ w2) db.
Proof.
  intros Hc HW Hs.
  assert (forall t, t = fold_left apply_write (p2 ++ w2) db ->
                    fold_left apply_write w2 t = t) as Hlast.
  { intros t ->. apply writes_absorbed. intros q Hq.
    apply writes_settle; [assumption|]. apply in_or_app. right. assumption. }
  destruct Hs as [[[d ->] ->]|[[d ->] ->]].
  - rewrite fold_left_app, <- (fold_left_app apply_write (p2 ++ d) w1), HW.
    apply Hlast. reflexivity.
  - rewrite <- app_assoc in HW. apply app_inv_head in HW. subst w1.
    assert (fold_left apply_write d (fold_left apply_write (p1 ++ d) db)
            = fold_left apply_write (p1 ++ d) db) as Hd.
    { apply writes_absorbed. intros q Hq. apply writes_settle.
      - apply (consistent_prefix _ w2). exact Hc.
      - apply in_or_app. right. assumption. }
    rewrite (fold_left_app apply_write (d ++ w2) w2).
    rewrite (fold_left_app apply_write d w2), Hd.
    rewrite <- (fold_left_app apply_write (p1 ++ d) w2).
    apply Hlast. reflexivity.
Qed.

Lemma interleaved_in_step (schedule : list bool) (db : Store)
    (p1 p2 w1 w2 : list Stmt) (s : Store) :
  consistent (p2 ++ w2) ->
  p1 ++ w1 = p2 ++ w2 ->
  in_step db p1 p2 s ->
  interleaved schedule w1 w2 s = fold_left apply_write (p2 ++ w2) db.
Proof.
  revert p1 p2 w1 w2 s.
  induction schedule as [|turn schedule IH]; intros p1 p2 w1 w2 s Hc HW Hs.
  - simpl. apply (in_step_finish db p1 p2); assumption.
  - destruct turn; simpl.
    + destruct w1 as [|q w1].
      * apply (in_step_finish db p1 p2 [] w2); assumption.
      * apply (IH (p1 ++ [q]) p2).
        -- assumption.
        -- rewrite <- app_assoc. exact HW.
        -- apply (in_step_advance db p1 p2 w1 w2); assumption.
    + destruct w2 as [|q w2].
      * rewrite <- (app_nil_r w1). apply (in_step_finish db p1 p2); assumption.
      * replace (p2 ++ q :: w2) with ((p2 ++ [q]) ++ w2)
          by (rewrite <- app_assoc; reflexivity).
        apply (IH p1 (p2 ++ [q])).
        -- rewrite <- app_assoc. exact Hc.
        -- rewrite <- app_assoc. exact HW.
        -- apply in_step_sym. apply (in_step_advance db p2 p1 w2 w1).
           ++ rewrite HW. exact Hc.
           ++ symmetry. exact HW.
           ++ apply in_step_sym. exact Hs.
Qed.

(** Two writers of one consistent statement list leave, under every
    schedule, what one of them leaves alone. *)
Lemma interleaved_same_writes (schedule : list bool) (w : list Stmt) (db : Store) :
  consistent w -> interleaved schedule w w db = fold_left apply_write w db.
Proof.
  intros Hc. apply (interleaved_in_step schedule db [] [] w w db).
  - exact Hc.
  - reflexivity.
  - left. split; [exists []; reflexivity | reflexivity].
Qed.

(** ** Statements inside a transaction *)

Lemma query_begin (E : Env) (db : Store) :
  query_rejects E 0 = false ->
  query E BEGIN (connect db) = (Fulfilled tt, txn db db [BEGIN]).
Proof. intros H. unfold query. simpl. rewrite H. reflexivity. Qed.

Lemma query_insert_block (E : Env) (db s : Store) (log : list Stmt) (r : BlockRow) :
  query_rejects E (length log) = false ->
  hash_taken r (blocks s) = false ->
  query E (INSERT_BLOCK r) (txn db s log)
  = (Fulfilled tt, txn db (apply_write s (INSERT_BLOCK r)) (log ++ [INSERT_BLOCK r])).
Proof.
  intros H T. unfold query, txn. simpl. rewrite H.
  unfold visible, write, fail_stmt. simpl. rewrite T. reflexivity.
Qed.

Lemma query_insert_tx (E : Env) (db s : Store) (log : list Stmt) (r : TxRow) :
  query_rejects E (length log) = false ->
  parent_present r (blocks s) = true ->
  query E (INSERT_TX r) (txn db s log)
  = (Fulfilled tt, txn db (apply_write s (INSERT_TX r)) (log ++ [INSERT_TX r])).
Proof.
  intros H T. unfold query, txn. simpl. rewrite H.
  unfold visible, write, fail_stmt. simpl. rewrite T. reflexivity.
Qed.

Lemma query_commit (E : Env) (db s : Store) (log : list Stmt) :
  query_rejects E (length log) = false ->
  query E COMMIT (txn db s log)
  = (Fulfilled tt,
     {| committed := s; pending := None; aborted := false;
        sent := log ++ [COMMIT] |}).
Proof. intros H. unfold query. simpl. rewrite H. reflexivity. Qed.

Lemma query_rejected (E : Env) (q : Stmt) (c : Client) :
  query_rejects E (length (sent c)) = true ->
  fst (query E q c) = Rejected.
Proof. intros H. unfold query. rewrite H. reflexivity. Qed.

Lemma query_rejected_eq (E : Env) (q : Stmt) (c : Client) :
  query_rejects E (length (sent c)) = true ->
  query E q c
  = (Rejected,
     {| committed := committed c; pending := pending c;
        aborted := aborted c; sent := sent c ++ [q] |}).
Proof. intros H. unfold query. rewrite H. reflexivity. Qed.

Lemma txn_open (db s : Store) (log : list Stmt) : open_on db (txn db s log).
Proof. split; simpl; congruence. Qed.

(** An insert never touches the committed rows of an open transaction. *)
Lemma query_insert_open (E : Env) (db : Store) (q : Stmt) (c : Client) :
  is_insert q = true -> open_on db c -> open_on db (snd (query E q c)).
Proof.
  intros Hq [Hc Hp]. unfold query.
  destruct (pending c) as [s|] eqn:P; [|congruence].
  destruct (query_rejects E (length (sent c))); [split; simpl; congruence|].
  destruct q; try discriminate; unfold run_stmt, visible, write, fail_stmt; simpl.
  - destruct (aborted c); [split; simpl; congruence|].
    destruct (hash_taken r (blocks s)); split; simpl; congruence.
  - destruct (aborted c); [split; simpl; congruence|].
    destruct (parent_present r (blocks s)); split; simpl; congruence.
Qed.

Lemma query_sent (E : Env) (q : Stmt) (c : Client) :
  sent (snd (query E q c)) = sent c ++ [q].
Proof.
  unfold query. destruct (query_rejects E (length (sent c))); [reflexivity|].
  destruct q; unfold run_stmt, write, fail_stmt; simpl.
  - destruct (pending c); reflexivity.
  - destruct (aborted c); [reflexivity|].
    destruct (hash_taken _ _); destruct (pending c); reflexivity.
  - destruct (aborted c); [reflexivity|].
    destruct (parent_present _ _); destruct (pending c); reflexivity.
  - destruct (pending c); reflexivity.
  - reflexivity.
Qed.

Lemma query_rollback_committed (E : Env) (c : Client) :
  committed (snd (query E ROLLBACK c)) = committed c.
Proof.
  unfold query. destruct (query_rejects E (length (sent c))); reflexivity.
Qed.

Lemma query_all_open (E : Env) (db : Store) (qs : list Stmt) (c : Client) :
  forallb is_insert qs = true -> open_on db c ->
  open_on db (snd (query_all E qs c)).
Proof.
  revert c. induction qs as [|q qs IH]; simpl; intros c Hq Hc; [assumption|].
  apply andb_prop in Hq. destruct Hq as [Hq Hqs].
  pose proof (query_insert_open E db q c Hq Hc) as H1.
  destruct (query E q c) as [r c1]. simpl in H1.
  specialize (IH c1 Hqs H1).
  destruct (query_all E qs c1) as [r' c2]. exact IH.
Qed.

Lemma existsb_seq_app (f : nat -> bool) (n a b : nat) :
  existsb f (seq n (a + b)) = existsb f (seq n a) || existsb f (seq (n + a) b).
Proof. rewrite seq_app, existsb_app. reflexivity. Qed.

Lemma inserts_of_rows (rows : list TxRow) :
  forallb is_insert (map INSERT_TX rows) = true.
Proof. induction rows; simpl; auto. Qed.

Lemma tx_writes_blocks (rows : list TxRow) (s : Store) :
  blocks (fold_left apply_write (map INSERT_TX rows) s) = blocks s.
Proof.
  revert s. induction rows as [|r rows IH]; simpl; intros s; [reflexivity|].
  rewrite IH. reflexivity.
Qed.

Lemma query_all_rows_fulfilled (E : Env) (db : Store) (rows : list TxRow) :
  forall (s : Store) (log : list Stmt),
  existsb (query_rejects E) (seq (length log) (length rows)) = false ->
  (forall r, In r rows -> parent_present r (blocks s) = true) ->
  query_all E (map INSERT_TX rows) (txn db s log)
  = (Fulfilled tt,
     txn db (fold_left apply_write (map INSERT_TX rows) s)
         (log ++ map INSERT_TX rows)).
Proof.
  induction rows as [|r rows IH]; intros s log Hf Hp.
  - simpl. rewrite app_nil_r. reflexivity.
  - simpl in Hf. apply orb_false_elim in Hf. destruct Hf as [Hf0 Hf].
    cbn [map query_all].
    rewrite query_insert_tx by (auto; apply Hp; left; reflexivity).
    rewrite IH.
    + cbn [fold_left]. rewrite <- app_assoc. reflexivity.
    + rewrite length_app. simpl. rewrite Nat.add_1_r. exact Hf.
    + intros r' Hr'. simpl. apply Hp. right. assumption.
Qed.

Lemma query_all_rows_rejected (E : Env) (db : Store) (rows : list TxRow) :
  forall (s : Store) (log : list Stmt),
  existsb (query_rejects E) (seq (length log) (length rows)) = true ->
  (forall r, In r rows -> parent_present r (blocks s) = true) ->
  fst (query_all E (map INSERT_TX rows) (txn db s log)) = Rejected.
Proof.
  induction rows as [|r rows IH]; intros s log Hf Hp.
  - discriminate.
  - simpl in Hf. cbn [map query_all].
    destruct (query_rejects E (length log)) eqn:Hf0.
    + pose proof (query_rejected E (INSERT_TX r) (txn db s log) Hf0) as Hq.
      destruct (query E (INSERT_TX r) (txn db s log)) as [r0 c1].
      simpl in Hq. subst r0.
      destruct (query_all E (map INSERT_TX rows) c1). reflexivity.
    + simpl in Hf.
      rewrite query_insert_tx by (auto; apply Hp; left; reflexivity).
      specialize (IH (apply_write s (INSERT_TX r)) (log ++ [INSERT_TX r])).
      destruct (query_all E (map INSERT_TX rows) _) as [r' c2].
      simpl in *. apply IH.
      * rewrite length_app. simpl. rewrite Nat.add_1_r. exact Hf.
      * intros r1 Hr1. apply Hp. right. assumption.
Qed.

(** ** Resolution of transaction ids *)

Lemma resolve_all_app (E : Env) (l1 l2 : list string) :
  resolve_all E (l1 ++ l2)
  = match resolve_all E l1, resolve_all E l2 with
    | Some a, Some b => Some (a ++ b)
    | _, _ => None
    end.
Proof.
  induction l1 as [|x l1 IH]; simpl.
  - destruct (resolve_all E l2); reflexivity.
  - rewrite IH. destruct (getProcessedTransaction E x); [|reflexivity].
    destruct (resolve_all E l1); [|reflexivity].
    destruct (resolve_all E l2); reflexivity.
Qed.

Lemma resolve_all_length (E : Env) (l : list string) :
  forall results, resolve_all E l = Some results -> length results = length l.
Proof.
  induction l as [|x l IH]; simpl; intros results H.
  - injection H as <-. reflexivity.
  - destruct (getProcessedTransaction E x); [|discriminate].
    destruct (resolve_all E l); [|discriminate].
    injection H as <-. simpl. f_equal. apply IH. reflexivity.
Qed.

Lemma resolve_all_ids (E : Env) (l : list string) :
  forall results, resolve_all E l = Some results -> map fst results = l.
Proof.
  induction l as [|x l IH]; simpl; intros results H.
  - injection H as <-. reflexivity.
  - destruct (getProcessedTransaction E x); [|discriminate].
    destruct (resolve_all E l); [|discriminate].
    injection H as <-. simpl. f_equal. apply IH. reflexivity.
Qed.

Lemma resolve_all_answers (E : Env) (l : list string) :
  forall results, resolve_all E l = Some results ->
  forall r, In r results -> getProcessedTransaction E (fst r) = Some (snd r).
Proof.
  induction l as [|x l IH]; simpl; intros results H r Hr.
  - injection H as <-. contradiction.
  - destruct (getProcessedTransaction E x) eqn:G; [|discriminate].
    destruct (resolve_all E l); [|discriminate].
    injection H as <-. destruct Hr as [<-|Hr]; [exact G|].
    apply (IH _ eq_refl). assumption.
Qed.

Lemma resolve_all_none (E : Env) (l : list string) (i : string) :
  In i l -> getProcessedTransaction E i = None -> resolve_all E l = None.
Proof.
  induction l as [|x l IH]; simpl; intros Hi G; [contradiction|].
  destruct Hi as [->|Hi].
  - rewrite G. reflexivity.
  - rewrite (IH Hi G). destruct (getProcessedTransaction E x); reflexivity.
Qed.

(** ** The transaction loop of [storeBlock] *)

Lemma rows_for_app (b : Block) (r1 r2 : list (string * ProcessedTx)) :
  rows_for b (r1 ++ r2) = rows_for b r1 ++ rows_for b r2.
Proof. apply map_app. Qed.

Lemma rows_for_length (b : Block) (results : list (string * ProcessedTx)) :
  length (rows_for b results) = length results.
Proof. apply length_map. Qed.

Lemma rows_for_parent (b : Block) (results : list (string * ProcessedTx)) (s : Store) :
  existsb (fun r => height r =? block_number b) (blocks s) = true ->
  forall r, In r (rows_for b results) -> parent_present r (blocks s) = true.
Proof.
  intros H r Hr. apply in_map_iff in Hr. destruct Hr as [x [<- _]]. exact H.
Qed.

Lemma inserts_rows_for (b : Block) (results : list (string * ProcessedTx)) :
  map (fun r => INSERT_TX (insertTx_args b (fst r) (snd r))) results
  = map INSERT_TX (rows_for b results).
Proof. unfold rows_for. rewrite map_map. reflexivity. Qed.

Lemma slice_batch (i : nat) (txs : list string) :
  slice i (i + batchSize) txs = firstn batchSize (skipn i txs).
Proof. unfold slice. f_equal. lia. Qed.

Lemma skipn_batch (i : nat) (txs : list string) :
  skipn (i + batchSize) txs = skipn batchSize (skipn i txs).
Proof. rewrite skipn_skipn. f_equal. lia. Qed.

Lemma skipn_exhausted (i : nat) (txs : list string) :
  (i <? length txs)%nat = false -> skipn i txs = [].
Proof. intros H. apply Nat.ltb_ge in H. apply skipn_all2. exact H. Qed.

Lemma tx_loop_fulfilled (E : Env) (b : Block) (db : Store) (txs : list string) :
  forall (fuel i : nat) (s : Store) (log : list Stmt) results,
  (length txs <= i + fuel)%nat ->
  resolve_all E (skipn i txs) = Some results ->
  existsb (query_rejects E) (seq (length log) (length results)) = false ->
  existsb (fun r => height r =? block_number b) (blocks s) = true ->
  tx_loop E b fuel i txs (txn db s log)
  = (Fulfilled tt,
     txn db (fold_left apply_write (map INSERT_TX (rows_for b results)) s)
         (log ++ map INSERT_TX (rows_for b results))).
Proof.
  induction fuel as [|fuel IH]; intros i s log results Hfuel Hres Hf Hp.
  - rewrite skipn_all2 in Hres by lia. injection Hres as <-.
    simpl. rewrite app_nil_r. reflexivity.
  - cbn [tx_loop]. destruct (i <? length txs)%nat eqn:Hi.
    + rewrite slice_batch.
      rewrite <- (firstn_skipn batchSize (skipn i txs)), resolve_all_app in Hres.
      destruct (resolve_all E (firstn batchSize (skipn i txs))) as [r1|] eqn:R1;
        [|discriminate].
      destruct (resolve_all E (skipn batchSize (skipn i txs))) as [r2|] eqn:R2;
        [|discriminate].
      injection Hres as <-.
      rewrite length_app, existsb_seq_app in Hf.
      apply orb_false_elim in Hf. destruct Hf as [Hf1 Hf2].
      rewrite inserts_rows_for. unfold bind.
      rewrite query_all_rows_fulfilled.
      * rewrite (IH (i + batchSize)%nat _ _ r2).
        -- rewrite rows_for_app, map_app, fold_left_app, app_assoc. reflexivity.
        -- unfold batchSize. lia.
        -- rewrite skipn_batch. exact R2.
        -- rewrite length_app, length_map, rows_for_length. exact Hf2.
        -- rewrite tx_writes_blocks. exact Hp.
      * rewrite rows_for_length. exact Hf1.
      * apply rows_for_parent. exact Hp.
    + rewrite skipn_exhausted in Hres by exact Hi. injection Hres as <-.
      simpl. rewrite app_nil_r. reflexivity.
Qed.

Lemma tx_loop_rejected (E : Env) (b : Block) (db : Store) (txs : list string) :
  forall (fuel i : nat) (s : Store) (log : list Stmt),
  (length txs <= i + fuel)%nat ->
  existsb (fun r => height r =? block_number b) (blocks s) = true ->
  match resolve_all E (skipn i txs) with
  | Some results =>
      existsb (query_rejects E) (seq (length log) (length results)) = true
  | None => True
  end ->
  fst (tx_loop E b fuel i txs (txn db s log)) = Rejected.
Proof.
  induction fuel as [|fuel IH]; intros i s log Hfuel Hp Hbad.
  - rewrite skipn_all2 in Hbad by lia. discriminate.
  - cbn [tx_loop]. destruct (i <? length txs)%nat eqn:Hi.
    + rewrite slice_batch.
      rewrite <- (firstn_skipn batchSize (skipn i txs)), resolve_all_app in Hbad.
      destruct (resolve_all E (firstn batchSize (skipn i txs))) as [r1|] eqn:R1;
        [|reflexivity].
      rewrite inserts_rows_for. unfold bind.
      destruct (existsb (query_rejects E) (seq (length log) (length r1))) eqn:Hf1.
      * pose proof (query_all_rows_rejected E db (rows_for b r1) s log) as Hq.
        rewrite rows_for_length in Hq.
        specialize (Hq Hf1 (rows_for_parent b r1 s Hp)).
        destruct (query_all E _ _) as [r0 c1]. simpl in Hq. subst r0. reflexivity.
      * rewrite query_all_rows_fulfilled;
          [| rewrite rows_for_length; exact Hf1 | apply rows_for_parent; exact Hp].
        apply IH.
        -- unfold batchSize. lia.
        -- rewrite tx_writes_blocks. exact Hp.
        -- rewrite skipn_batch.
           destruct (resolve_all E (skipn batchSize (skipn i txs))) as [r2|];
             [|exact I].
           rewrite length_app, existsb_seq_app, Hf1 in Hbad. simpl in Hbad.
           rewrite length_app, length_map, rows_for_length. exact Hbad.
    + rewrite skipn_exhausted in Hbad by exact Hi. discriminate.
Qed.

Lemma tx_loop_open (E : Env) (b : Block) (db : Store) (txs : list string) :
  forall (fuel i : nat) (c : Client),
  open_on db c -> open_on db (snd (tx_loop E b fuel i txs c)).
Proof.
  induction fuel as [|fuel IH]; intros i c Hc; [exact Hc|].
  cbn [tx_loop]. destruct (i <? length txs)%nat; [|exact Hc].
  destruct (resolve_all E (slice i (i + batchSize) txs)) as [r1|]; [|exact Hc].
  rewrite inserts_rows_for. unfold bind.
  pose proof (query_all_open E db _ c (inserts_of_rows (rows_for b r1)) Hc) as H1.
  destruct (query_all E _ c) as [r0 c1]. simpl in H1.
  destruct r0; [apply IH|]; exact H1.
Qed.

(** ** [storeBlock] as a whole *)

Lemma rejects_split (f : nat -> bool) (n : nat) :
  existsb f (seq 0 (n + 3))
  = f 0%nat || (f 1%nat || (existsb f (seq 2 n) || f (n + 2)%nat)).
Proof.
  replace (n + 3)%nat with (S (S (n + 1))) by lia.
  cbn [seq existsb]. rewrite existsb_seq_app. simpl.
  rewrite orb_false_r. replace (S (S n)) with (n + 2)%nat by lia. reflexivity.
Qed.

Lemma tx_loop_of_block (E : Env) (b : Block) :
  match block_transactions b with
  | Some (t :: ts) => tx_loop E b (length (t :: ts)) 0 (t :: ts)
  | _ => ret tt
  end
  = tx_loop E b (length (tx_ids b)) 0 (tx_ids b).
Proof.
  unfold tx_ids. destruct (block_transactions b) as [[|t ts]|]; reflexivity.
Qed.

Lemma block_row_present (b : Block) (s : Store) :
  existsb (fun r => height r =? block_number b)
          (blocks (apply_write s (INSERT_BLOCK (insertBlock_args b)))) = true.
Proof.
  pose proof (apply_write_settled (INSERT_BLOCK (insertBlock_args b)) s) as [H _].
  apply existsb_exists. exists (insertBlock_args b). split; [exact H|].
  simpl. apply Z.eqb_refl.
Qed.

(** The [try] block fulfils when nothing stands in its way ... *)
Lemma storeBlock_try_fulfilled (E : Env) (db : Store) (b : Block) (rows : list TxRow) :
  resolved_rows E b = Some rows ->
  existsb (query_rejects E) (seq 0 (length rows + 3)) = false ->
  hash_taken (insertBlock_args b) (blocks db) = false ->
  storeBlock_try E b (connect db)
  = (Fulfilled tt,
     {| committed := fold_left apply_write (writes b rows) db;
        pending := None; aborted := false;
        sent := BEGIN :: writes b rows ++ [COMMIT] |}).
Proof.
  unfold resolved_rows. intros R F T.
  destruct (resolve_all E (tx_ids b)) as [results|] eqn:Res; [|discriminate].
  injection R as <-.
  rewrite rejects_split in F.
  apply orb_false_elim in F. destruct F as [F0 F].
  apply orb_false_elim in F. destruct F as [F1 F].
  apply orb_false_elim in F. destruct F as [F2 F3].
  rewrite rows_for_length in F2, F3.
  unfold storeBlock_try, bind.
  rewrite query_begin by exact F0.
  rewrite query_insert_block by assumption.
  rewrite tx_loop_of_block.
  rewrite (tx_loop_fulfilled E b db (tx_ids b) _ 0%nat _ _ results).
  - rewrite query_commit.
    + unfold writes. simpl. reflexivity.
    + rewrite length_app, length_map, rows_for_length. simpl.
      replace (S (S (length results))) with (length results + 2)%nat by lia.
      exact F3.
  - lia.
  - exact Res.
  - exact F2.
  - apply block_row_present.
Qed.

(** ... and rejects otherwise, the committed rows being untouched. *)
Lemma storeBlock_try_rejected (E : Env) (db : Store) (b : Block) :
  match resolved_rows E b with
  | Some rows =>
      existsb (query_rejects E) (seq 0 (length rows + 3))
      || hash_taken (insertBlock_args b) (blocks db) = true
  | None => True
  end ->
  exists c, storeBlock_try E b (connect db) = (Rejected, c) /\ committed c = db.
Proof.
  unfold resolved_rows. intros Hbad.
  unfold storeBlock_try, bind.
  destruct (query_rejects E 0) eqn:F0.
  { unfold query at 1. simpl. rewrite F0. eexists. split; reflexivity. }
  rewrite query_begin by exact F0.
  destruct (query_rejects E 1) eqn:F1.
  { unfold query at 1. simpl. rewrite F1. eexists. split; reflexivity. }
  destruct (hash_taken (insertBlock_args b) (blocks db)) eqn:T.
  { unfold query at 1, txn. simpl. rewrite F1.
    unfold visible, fail_stmt. simpl. rewrite T.
    eexists. split; reflexivity. }
  rewrite query_insert_block by assumption.
  rewrite tx_loop_of_block.
  set (s1 := apply_write db (INSERT_BLOCK (insertBlock_args b))).
  set (log1 := [BEGIN] ++ [INSERT_BLOCK (insertBlock_args b)]).
  pose proof (tx_loop_open E b db (tx_ids b) (length (tx_ids b)) 0
                (txn db s1 log1) (txn_open db s1 log1)) as Hopen.
  assert (existsb (fun r => height r =? block_number b) (blocks s1) = true)
    as Hparent by apply block_row_present.
  destruct (resolve_all E (tx_ids b)) as [results|] eqn:Res.
  - rewrite orb_false_r, rows_for_length, rejects_split, F0, F1 in Hbad.
    simpl in Hbad.
    destruct (existsb (query_rejects E) (seq 2 (length results))) eqn:F2.
    + pose proof (tx_loop_rejected E b db (tx_ids b) (length (tx_ids b)) 0
                    s1 log1 (Nat.le_refl _) Hparent) as Hrej.
      simpl skipn in Hrej. rewrite Res in Hrej. specialize (Hrej F2).
      destruct (tx_loop E b _ 0 _ _) as [r c]. simpl in Hrej, Hopen. subst r.
      exists c. split; [reflexivity | apply Hopen].
    + simpl in Hbad.
      rewrite (tx_loop_fulfilled E b db (tx_ids b) _ 0%nat _ _ results);
        [| lia | exact Res | exact F2 | exact Hparent].
      match goal with
      | |- context [query E COMMIT ?c] =>
          assert (query_rejects E (length (sent c)) = true) as F3;
          [| rewrite (query_rejected_eq E COMMIT c F3);
             eexists; split; reflexivity]
      end.
      unfold txn, log1. cbn [sent].
      rewrite !length_app, length_map, rows_for_length. simpl.
      replace (S (S (length results))) with (length results + 2)%nat by lia.
      exact Hbad.
  - pose proof (tx_loop_rejected E b db (tx_ids b) (length (tx_ids b)) 0
                  s1 log1 (Nat.le_refl _) Hparent) as Hrej.
    simpl skipn in Hrej. rewrite Res in Hrej. specialize (Hrej I).
    destruct (tx_loop E b _ 0 _ _) as [r c]. simpl in Hrej, Hopen. subst r.
    exists c. split; [reflexivity | apply Hopen].
Qed.

Lemma storeBlock_catch_spec (E : Env) (c : Client) :
  exists c', storeBlock_catch E c = (Rejected, c')
             /\ committed c' = committed c
             /\ sent c' = sent c ++ [ROLLBACK].
Proof.
  unfold storeBlock_catch, bind, throw.
  pose proof (query_rollback_committed E c) as Hc.
  pose proof (query_sent E ROLLBACK c) as Hs.
  destruct (query E ROLLBACK c) as [[[]|] c']; simpl in *; eauto.
Qed.

Lemma storeBlock_session_rejected (E : Env) (db : Store) (b : Block) :
  match resolved_rows E b with
  | Some rows =>
      existsb (query_rejects E) (seq 0 (length rows + 3))
      || hash_taken (insertBlock_args b) (blocks db) = true
  | None => True
  end ->
  exists c, storeBlock_session E b (connect db) = (Rejected, c)
            /\ committed c = db
            /\ exists earlier, sent c = earlier ++ [ROLLBACK].
Proof.
  intros Hbad.
  destruct (storeBlock_try_rejected E db b Hbad) as [c1 [Htry Hc1]].
  destruct (storeBlock_catch_spec E c1) as [c [Hcatch [Hc Hs]]].
  exists c. unfold storeBlock_session, try_catch. rewrite Htry, Hcatch.
  split; [reflexivity|]. split; [congruence|]. exists (sent c1). exact Hs.
Qed.

Lemma storeBlock_session_fulfilled (E : Env) (db : Store) (b : Block)
    (rows : list TxRow) :
  resolved_rows E b = Some rows ->
  existsb (query_rejects E) (seq 0 (length rows + 3)) = false ->
  hash_taken (insertBlock_args b) (blocks db) = false ->
  storeBlock_session E b (connect db)
  = (Fulfilled tt,
     {| committed := fold_left apply_write (writes b rows) db;
        pending := None; aborted := false;
        sent := BEGIN :: writes b rows ++ [COMMIT] |}).
Proof.
  intros R F T. unfold storeBlock_session, try_catch.
  rewrite (storeBlock_try_fulfilled E db b rows R F T). reflexivity.
Qed.

(** [storeBlock] computes [storeBlock_outcome]. *)
Lemma storeBlock_eq_outcome (E : Env) (db : Store) (b : Block) :
  storeBlock E db b = storeBlock_outcome E db b.
Proof.
  unfold storeBlock, storeBlock_outcome.
  destruct (connect_rejects E) eqn:C.
  { simpl. destruct (resolved_rows E b); reflexivity. }
  simpl.
  destruct (resolved_rows E b) as [rows|] eqn:R.
  - destruct (existsb (query_rejects E) (seq 0 (length rows + 3))) eqn:F.
    + destruct (storeBlock_session_rejected E db b) as [c [-> [-> _]]];
        [rewrite R, F; reflexivity | reflexivity].
    + destruct (hash_taken (insertBlock_args b) (blocks db)) eqn:T.
      * destruct (storeBlock_session_rejected E db b) as [c [-> [-> _]]];
          [rewrite R, F, T; reflexivity | reflexivity].
      * rewrite (storeBlock_session_fulfilled E db b rows R F T). reflexivity.
  - destruct (storeBlock_session_rejected E db b) as [c [-> [-> _]]];
      [rewrite R; exact I | reflexivity].
Qed.

(** What a fulfilled [storeBlock] tells about its inputs. *)
Lemma storeBlock_fulfilled_inv (E : Env) (db db' : Store) (b : Block) :
  storeBlock E db b = (Fulfilled tt, db') ->
  exists rows,
    resolved_rows E b = Some rows
    /\ connect_rejects E = false
    /\ existsb (query_rejects E) (seq 0 (length rows + 3)) = false
    /\ hash_taken (insertBlock_args b) (blocks db) = false
    /\ db' = fold_left apply_write (writes b rows) db.
Proof.
  rewrite storeBlock_eq_outcome. unfold storeBlock_outcome.
  destruct (resolved_rows E b) as [rows|]; [|discriminate].
  destruct (connect_rejects E); [discriminate|].
  destruct (existsb (query_rejects E) (seq 0 (length rows + 3))) eqn:F;
    [discriminate|].
  destruct (hash_taken (insertBlock_args b) (blocks db)) eqn:T; [discriminate|].
  simpl. intros H. injection H as <-. exists rows. repeat split; assumption.
Qed.

Lemma storeBlock_rejected_inv (E : Env) (db db' : Store) (b : Block) :
  storeBlock E db b = (Rejected, db') -> db' = db.
Proof.
  rewrite storeBlock_eq_outcome. unfold storeBlock_outcome.
  destruct (resolved_rows E b) as [rows|]; [|congruence].
  destruct (_ || _ || _); [congruence|discriminate].
Qed.

Lemma storeBlock_sent_fulfilled (E : Env) (db db' : Store) (b : Block) :
  storeBlock E db b = (Fulfilled tt, db') ->
  exists rows,
    resolved_rows E b = Some rows
    /\ storeBlock_sent E db b = BEGIN :: writes b rows ++ [COMMIT].
Proof.
  intros H. destruct (storeBlock_fulfilled_inv E db db' b H)
    as [rows [R [C [F [T _]]]]].
  exists rows. split; [exact R|].
  unfold storeBlock_sent. rewrite C.
  rewrite (storeBlock_session_fulfilled E db b rows R F T). reflexivity.
Qed.

Lemma storeBlock_sent_rejected (E : Env) (db db' : Store) (b : Block) :
  connect_rejects E = false ->
  storeBlock E db b = (Rejected, db') ->
  exists earlier, storeBlock_sent E db b = earlier ++ [ROLLBACK].
Proof.
  intros C H. unfold storeBlock_sent. rewrite C.
  rewrite storeBlock_eq_outcome in H. unfold storeBlock_outcome in H.
  rewrite C in H. simpl in H.
  destruct (storeBlock_session_rejected E db b) as [c [-> [_ Hs]]]; [|exact Hs].
  destruct (resolved_rows E b) as [rows|]; [|exact I].
  destruct (_ || _); [reflexivity|discriminate].
Qed.

(** ** The writes of one block *)

Lemma rows_for_in (E : Env) (b : Block) (l : list string) results (r : TxRow) :
  resolve_all E l = Some results -> In r (rows_for b results) ->
  exists tx, getProcessedTransaction E (txid r) = Some tx
             /\ In (txid r) l
             /\ r = insertTx_args b (txid r) tx.
Proof.
  intros R Hr. apply in_map_iff in Hr. destruct Hr as [x [<- Hx]].
  exists (snd x). simpl. split; [|split].
  - apply (resolve_all_answers E l results R x Hx).
  - rewrite <- (resolve_all_ids E l results R). apply in_map. exact Hx.
  - reflexivity.
Qed.

Lemma rows_for_complete (E : Env) (b : Block) (l : list string) results (i : string) :
  resolve_all E l = Some results -> In i l ->
  exists tx, getProcessedTransaction E i = Some tx
             /\ In (insertTx_args b i tx) (rows_for b results).
Proof.
  intros R Hi. rewrite <- (resolve_all_ids E l results R) in Hi.
  apply in_map_iff in Hi. destruct Hi as [x [<- Hx]].
  exists (snd x). split.
  - apply (resolve_all_answers E l results R x Hx).
  - unfold rows_for. apply in_map_iff. exists x. split; [reflexivity|exact Hx].
Qed.

Lemma writes_consistent (E : Env) (b : Block) (rows : list TxRow) :
  resolved_rows E b = Some rows -> consistent (writes b rows).
Proof.
  unfold resolved_rows. intros R.
  destruct (resolve_all E (tx_ids b)) as [results|] eqn:Res; [|discriminate].
  injection R as <-.
  assert (forall q, In q (writes b (rows_for b results)) ->
            q = INSERT_BLOCK (insertBlock_args b)
            \/ exists r, q = INSERT_TX r /\ In r (rows_for b results)) as Hshape.
  { intros q [<-|Hq]; [left; reflexivity|]. right.
    apply in_map_iff in Hq. destruct Hq as [r [<- Hr]]. eauto. }
  intros q q' Hq Hq'.
  destruct (Hshape q Hq) as [->|[r [-> Hr]]];
    destruct (Hshape q' Hq') as [->|[r' [-> Hr']]]; simpl; auto.
  intros Hid.
  destruct (rows_for_in E b _ _ r Res Hr) as [tx [G [_ ->]]].
  destruct (rows_for_in E b _ _ r' Res Hr') as [tx' [G' [_ ->]]].
  simpl in *. rewrite Hid in G. congruence.
Qed.

Lemma writes_blocks (b : Block) (rows : list TxRow) (db : Store) :
  blocks (fold_left apply_write (writes b rows) db)
  = insertBlock (insertBlock_args b) (blocks db).
Proof. unfold writes. simpl. rewrite tx_writes_blocks. reflexivity. Qed.

Lemma hash_taken_upsert (r : BlockRow) (table : list BlockRow) :
  hash_taken r (insertBlock r table) = hash_taken r table.
Proof.
  unfold insertBlock, upsert, hash_taken.
  destruct (existsb (same_height r) table).
  - induction table as [|old l IH]; simpl; [reflexivity|].
    rewrite IH. f_equal. unfold same_height.
    destruct (height r =? height old) eqn:Hh; [|reflexivity].
    apply Z.eqb_eq in Hh. simpl. rewrite <- Hh, Z.eqb_refl. simpl.
    rewrite !andb_false_r. reflexivity.
  - rewrite existsb_app. simpl. rewrite Z.eqb_refl. simpl.
    rewrite andb_false_r, !orb_false_r. reflexivity.
Qed.

Lemma insertBlock_heights (r : BlockRow) (table : list BlockRow) (h : Z) :
  In h (map height table) \/ h = height r ->
  In h (map height (insertBlock r table)).
Proof.
  unfold insertBlock.
  rewrite (upsert_keys _ _ height _ _ same_height_spec update_block_spec).
  destruct (existsb (same_height r) table) eqn:X.
  - intros [H| ->]; [exact H|].
    apply existsb_exists in X. destruct X as [old [Hold Hh]].
    apply same_height_spec in Hh. rewrite Hh. apply in_map. exact Hold.
  - intros [H| ->]; apply in_or_app; [left; exact H | right; left; reflexivity].
Qed.

Lemma tx_writes_in (rows : list TxRow) (s : Store) (t : TxRow) :
  In t (transactions (fold_left apply_write (map INSERT_TX rows) s)) ->
  In t (transactions s) \/ In t rows.
Proof.
  revert s. induction rows as [|r rows IH]; simpl; intros s H; [auto|].
  destruct (IH _ H) as [Hs|Hr]; [|auto].
  simpl in Hs.
  apply (upsert_in _ _ txid _ _ same_txid_spec update_tx_spec) in Hs.
  destruct Hs as [Hs| ->]; auto.
Qed.

Lemma writes_parents (b : Block) (rows : list TxRow) (db : Store) :
  (forall r, In r rows -> block_height r = block_number b) ->
  parents_present db ->
  parents_present (fold_left apply_write (writes b rows) db).
Proof.
  intros Hrows Hdb t Ht.
  assert (forall h, In h (map height (blocks db)) \/ h = block_number b ->
            exists r, In r (blocks (fold_left apply_write (writes b rows) db))
                      /\ height r = h) as Hh.
  { intros h Hh. rewrite writes_blocks.
    apply (insertBlock_heights (insertBlock_args b)) in Hh.
    apply in_map_iff in Hh. destruct Hh as [r [Hr Hin]]. eauto. }
  unfold writes in Ht. simpl in Ht. apply tx_writes_in in Ht.
  destruct Ht as [Ht|Ht].
  - simpl in Ht. destruct (Hdb t Ht) as [r [Hr Hrh]].
    apply Hh. left. rewrite <- Hrh. apply in_map. exact Hr.
  - apply Hh. right. apply Hrows. exact Ht.
Qed.

Lemma resolved_rows_height (E : Env) (b : Block) (rows : list TxRow) :
  resolved_rows E b = Some rows ->
  forall r, In r rows -> block_height r = block_number b.
Proof.
  unfold resolved_rows. destruct (resolve_all E (tx_ids b)); [|discriminate].
  intros H r Hr. injection H as <-.
  apply in_map_iff in Hr. destruct Hr as [x [<- _]]. reflexivity.
Qed.

(** ** Idempotent ingestion *)

(** The rows a fulfilled [storeBlock] leaves for its block: keys stay
    unique, the block's height has exactly the row just bound, and so has
    each of its transaction ids. *)
Lemma storeBlock_rows (E : Env) (db db1 : Store) (b : Block) :
  keys_unique db ->
  storeBlock E db b = (Fulfilled tt, db1) ->
  keys_unique db1
  /\ block_rows (block_number b) db1 = [insertBlock_args b]
  /\ (forall i, In i (tx_ids b) ->
        exists tx, getProcessedTransaction E i = Some tx
                   /\ tx_rows i db1 = [insertTx_args b i tx]).
Proof.
  intros Hkeys Hstore.
  destruct (storeBlock_fulfilled_inv E db db1 b Hstore)
    as [rows [R [C [F [T ->]]]]].
  pose proof (writes_consistent E b rows R) as Hcons.
  pose proof (writes_keys_unique (writes b rows) db Hkeys) as Hkeys1.
  split; [exact Hkeys1|]. split.
  - unfold block_rows.
    apply (settled_rows _ _ height).
    + intros x. simpl. apply Z.eqb_eq.
    + apply Hkeys1.
    + apply (writes_settle (writes b rows) db (INSERT_BLOCK (insertBlock_args b)));
        [exact Hcons | left; reflexivity].
  - intros i Hi. unfold resolved_rows in R.
    destruct (resolve_all E (tx_ids b)) as [results|] eqn:Res; [|discriminate].
    injection R as <-.
    destruct (rows_for_complete E b _ results i Res Hi) as [tx [G Hin]].
    exists tx. split; [exact G|].
    unfold tx_rows. apply (settled_rows _ _ txid).
    + intros x. simpl. apply String.eqb_eq.
    + apply Hkeys1.
    + apply (writes_settle (writes b (rows_for b results)) db
               (INSERT_TX (insertTx_args b i tx))); [exact Hcons|].
      right. apply in_map. exact Hin.
Qed.

(** C1 — Ingestion is idempotent. Whenever [storeBlock] fulfils on a
    database whose primary keys hold, the database it leaves ([db1]) still
    has unique keys; it holds exactly one block row of the block's height,
    and that row carries the hash, timestamp and bitcoin block height just
    ingested; for every transaction id of the block it holds exactly one
    transaction row, carrying the block height, payload, status and
    bitcoin txids just resolved, whatever the database held before.
    Storing the block once more fulfils and leaves [db1] unchanged; two
    writers issuing the statements of this [storeBlock] concurrently, in
    any interleaving, leave [db1] as well; and a later fulfilled store of
    the block, with whatever the node answers then, again leaves one row
    per key, carrying the values of that latest ingestion. *)
Theorem storeBlock_idempotent (E : Env) (db db1 : Store) (b : Block) :
  keys_unique db ->
  storeBlock E db b = (Fulfilled tt, db1) ->
  (keys_unique db1
   /\ block_rows (block_number b) db1 = [insertBlock_args b]
   /\ (forall i, In i (tx_ids b) ->
         exists tx, getProcessedTransaction E i = Some tx
                    /\ tx_rows i db1 = [insertTx_args b i tx]))
  /\ storeBlock E db1 b = (Fulfilled tt, db1)
  /\ (exists rows,
        storeBlock_sent E db b = BEGIN :: writes b rows ++ [COMMIT]
        /\ forall schedule,
             interleaved schedule (writes b rows) (writes b rows) db = db1)
  /\ (forall E2 db2, storeBlock E2 db1 b = (Fulfilled tt, db2) ->
        keys_unique db2
        /\ block_rows (block_number b) db2 = [insertBlock_args b]
        /\ (forall i, In i (tx_ids b) ->
              exists tx, getProcessedTransaction E2 i = Some tx
                         /\ tx_rows i db2 = [insertTx_args b i tx])).
Proof.
  intros Hkeys Hstore.
  pose proof (storeBlock_rows E db db1 b Hkeys Hstore) as Hrows.
  split; [exact Hrows|].
  destruct (storeBlock_sent_fulfilled E db db1 b Hstore) as [rows' [R' Hsent]].
  destruct (storeBlock_fulfilled_inv E db db1 b Hstore)
    as [rows [R [C [F [T Hdb1]]]]].
  assert (rows' = rows) as -> by congruence. clear R'.
  pose proof (writes_consistent E b rows R) as Hcons.
  split; [|split].
  - rewrite storeBlock_eq_outcome. unfold storeBlock_outcome.
    assert (hash_taken (insertBlock_args b) (blocks db1) = false) as T1
      by (rewrite Hdb1, writes_blocks, hash_taken_upsert; exact T).
    rewrite R, C, F, T1. cbn [orb]. f_equal.
    rewrite Hdb1. apply writes_idempotent. exact Hcons.
  - exists rows. split; [exact Hsent|]. intros schedule.
    rewrite Hdb1. apply interleaved_same_writes. exact Hcons.
  - intros E2 db2 H2.
    apply (storeBlock_rows E2 db1 db2 b); [apply Hrows | exact H2].
Qed.

(** Re-ingesting height 3 into a database that already holds it. *)
Lemma storeBlock_idempotent_witness :
  let db1 := snd (storeBlock sample_env sample_db sample_block) in
  block_rows 3 db1 = [insertBlock_args sample_block]
  /\ storeBlock sample_env db1 sample_block = (Fulfilled tt, db1).
Proof.
  intros db1.
  assert (keys_unique sample_db) as Hkeys
    by (split; simpl; repeat constructor; simpl; intuition discriminate).
  destruct (storeBlock_idempotent sample_env sample_db db1 sample_block
              Hkeys eq_refl) as [[_ [Hrow _]] [Hagain _]].
  split; [exact Hrow | exact Hagain].
Defined.

(** ** Atomic storing *)

Lemma resolved_rows_length (E : Env) (b : Block) (rows : list TxRow) :
  resolved_rows E b = Some rows -> length rows = length (tx_ids b).
Proof.
  unfold resolved_rows.
  destruct (resolve_all E (tx_ids b)) as [results|] eqn:R; [|discriminate].
  intros H. injection H as <-.
  rewrite rows_for_length. apply (resolve_all_length E _ _ R).
Qed.

(** C2 — [storeBlock] is all-or-nothing. When it rejects, the error is the
    outcome of the call, the committed database is exactly the one before
    the call (no row of the block became visible) and, if a client was
    connected, the last statement issued is ROLLBACK. Every failure makes
    it reject in this way: a refused connection, a block hash held by
    another height, a transaction id anywhere in the block's list that the
    node does not resolve, a query among BEGIN, the upserts and COMMIT
    that rejects. When it fulfils, the statements issued are BEGIN, the
    block upsert, the transaction upserts in list order, COMMIT, and
    exactly these writes are committed. In both cases a database in which
    every transaction row has its parent block row stays so. *)
Theorem storeBlock_atomic (E : Env) (db : Store) (b : Block) :
  (forall db', storeBlock E db b = (Rejected, db') ->
     db' = db
     /\ (connect_rejects E = false ->
         exists earlier, storeBlock_sent E db b = earlier ++ [ROLLBACK]))
  /\ (connect_rejects E = true
      \/ hash_taken (insertBlock_args b) (blocks db) = true
      \/ (exists i, In i (tx_ids b) /\ getProcessedTransaction E i = None)
      \/ (exists k, (k < length (tx_ids b) + 3)%nat /\ query_rejects E k = true) ->
      storeBlock E db b = (Rejected, db))
  /\ (forall db', storeBlock E db b = (Fulfilled tt, db') ->
        exists rows,
          storeBlock_sent E db b
          = BEGIN :: INSERT_BLOCK (insertBlock_args b)
                  :: map INSERT_TX rows ++ [COMMIT]
          /\ db' = fold_left apply_write
                     (INSERT_BLOCK (insertBlock_args b) :: map INSERT_TX rows) db)
  /\ (parents_present db -> parents_present (snd (storeBlock E db b))).
Proof.
  split; [|split; [|split]].
  - intros db' H. split.
    + apply (storeBlock_rejected_inv E db db' b H).
    + intros C. apply (storeBlock_sent_rejected E db db' b C H).
  - intros Hfail. rewrite storeBlock_eq_outcome. unfold storeBlock_outcome.
    destruct (resolved_rows E b) as [rows|] eqn:R; [|reflexivity].
    destruct Hfail as [C|[T|[[i [Hi G]]|[k [Hk F]]]]].
    + rewrite C. reflexivity.
    + rewrite T, orb_true_r. reflexivity.
    + unfold resolved_rows in R.
      rewrite (resolve_all_none E _ i Hi G) in R. discriminate.
    + assert (existsb (query_rejects E) (seq 0 (length rows + 3)) = true) as ->.
      { apply existsb_exists. exists k. split; [|exact F].
        apply in_seq. rewrite (resolved_rows_length E b rows R). lia. }
      rewrite orb_true_r. reflexivity.
  - intros db' H.
    destruct (storeBlock_sent_fulfilled E db db' b H) as [rows [R Hsent]].
    destruct (storeBlock_fulfilled_inv E db db' b H) as [rows' [R' [_ [_ [_ ->]]]]].
    assert (rows' = rows) as -> by congruence.
    exists rows. split; [exact Hsent | reflexivity].
  - intros Hp. destruct (storeBlock E db b) as [[[]|] db'] eqn:H; simpl.
    + destruct (storeBlock_fulfilled_inv E db db' b H) as [rows [R [_ [_ [_ ->]]]]].
      apply writes_parents; [|exact Hp].
      apply (resolved_rows_height E b rows R).
    + rewrite (storeBlock_rejected_inv E db db' b H). exact Hp.
Qed.

(** A resolution failure in the second sub-batch: 50 transaction upserts
    were issued inside the transaction, the call rejects, the last
    statement is ROLLBACK and the database is the one before the call. *)
Example storeBlock_lost_transaction :
  storeBlock sample_env sample_db sample_block_lost = (Rejected, sample_db)
  /\ length (storeBlock_sent sample_env sample_db sample_block_lost) = 53%nat
  /\ last (storeBlock_sent sample_env sample_db sample_block_lost) BEGIN
     = ROLLBACK
  /\ block_rows 4 (snd (storeBlock sample_env sample_db sample_block_lost)) = [].
Proof. repeat split. Qed.

(** ** Windows and rounds *)

Lemma In_heights (w : Z * Z) (h : Z) :
  In h (heights w) <-> fst w <= h <= snd w.
Proof.
  unfold heights. rewrite in_map_iff. split.
  - intros [k [<- Hk]]. apply in_seq in Hk. lia.
  - intros H. exists (Z.to_nat (h - fst w)). split; [lia|].
    apply in_seq. lia.
Qed.

Lemma batch_fulfils_spec (processed : Z -> bool) (w : Z * Z) :
  batch_fulfils processed w = true
  <-> forall h, fst w <= h <= snd w -> processed h = true.
Proof.
  unfold batch_fulfils. rewrite forallb_forall. split; intros H h Hh.
  - apply H, In_heights, Hh.
  - apply H, In_heights, Hh.
Qed.

Lemma launch_bounds (n : nat) (cur latest : Z) :
  forall i w, 0 <= i -> In w (launch n i cur latest) ->
  cur <= fst w /\ fst w <= snd w /\ snd w <= latest.
Proof.
  induction n as [|n IH]; simpl; intros i w Hi Hw; [contradiction|].
  destruct (cur + i * BATCH_SIZE >? latest) eqn:G; [contradiction|].
  unfold BATCH_SIZE in *.
  destruct Hw as [<-|Hw].
  - simpl. lia.
  - apply (IH (i + 1)); [lia | exact Hw].
Qed.

Lemma windows_bounds (cur latest : Z) (w : Z * Z) :
  In w (windows cur latest) ->
  cur <= fst w /\ fst w <= snd w /\ snd w <= latest.
Proof. apply launch_bounds. lia. Qed.

Lemma windows_first (cur latest : Z) :
  cur <= latest ->
  exists rest,
    windows cur latest = (cur, Z.min (cur + BATCH_SIZE - 1) latest) :: rest.
Proof.
  intros H. unfold windows, CONCURRENT_BATCHES. cbn [launch].
  replace (cur + 0 * BATCH_SIZE) with cur by lia.
  destruct (cur >? latest) eqn:G; [lia|]. eauto.
Qed.

Lemma Math_max_spec (l : list Z) (m : Z) :
  Math_max l = Some m -> In m l /\ forall x, In x l -> x <= m.
Proof.
  destruct l as [|e rest]; simpl; [discriminate|].
  intros H. injection H as <-. revert e.
  induction rest as [|y rest IH]; simpl; intros e.
  - split; [auto|]. intros x [<-|[]]. lia.
  - destruct (IH (Z.max e y)) as [Hin Hle].
    remember (fold_left Z.max rest (Z.max e y)) as m. split.
    + destruct Hin as [Hin|Hin]; [|auto].
      destruct (Z.max_spec e y) as [[_ Hm]|[_ Hm]]; rewrite Hm in Hin; auto.
    + intros x [<-|[<-|Hx]].
      * specialize (Hle (Z.max e y) (or_introl eq_refl)). lia.
      * specialize (Hle (Z.max e y) (or_introl eq_refl)). lia.
      * apply Hle. right. exact Hx.
Qed.

Lemma Math_max_some (l : list Z) : l <> [] -> exists m, Math_max l = Some m.
Proof. destruct l; [congruence|]. simpl. eauto. Qed.

(** Inside the loop a round that fulfils moves the frontier strictly
    forward, to one past the largest window end, never past
    [latestBlockHeight + 1]. *)
Lemma round_some (processed : Z -> bool) (cur latest next : Z) :
  cur <= latest ->
  round processed cur latest = Some next ->
  Math_max (map snd (windows cur latest)) = Some (next - 1)
  /\ cur < next <= latest + 1.
Proof.
  intros Hle. unfold round.
  destruct (forallb (batch_fulfils processed) (windows cur latest)); [|discriminate].
  destruct (windows_first cur latest Hle) as [rest Hw].
  destruct (Math_max (map snd (windows cur latest))) as [m|] eqn:M.
  - intros H. injection H as <-. split; [f_equal; lia|].
    destruct (Math_max_spec _ m M) as [Hin Hmax].
    apply in_map_iff in Hin. destruct Hin as [w [<- Hin]].
    pose proof (windows_bounds cur latest w Hin). lia.
  - rewrite Hw in M. discriminate.
Qed.

Lemma round_fulfils (processed : Z -> bool) (cur latest : Z) :
  cur <= latest ->
  forallb (batch_fulfils processed) (windows cur latest) = true ->
  exists m, Math_max (map snd (windows cur latest)) = Some m
            /\ round processed cur latest = Some (m + 1).
Proof.
  intros Hle Hall. unfold round. rewrite Hall.
  destruct (windows_first cur latest Hle) as [rest Hw].
  destruct (Math_max_some (map snd (windows cur latest))) as [m M].
  { rewrite Hw. discriminate. }
  exists m. rewrite M. auto.
Qed.

Lemma round_rejects (processed : Z -> bool) (cur latest : Z) :
  forallb (batch_fulfils processed) (windows cur latest) = false ->
  round processed cur latest = None.
Proof. intros H. unfold round. rewrite H. reflexivity. Qed.

Lemma windows_all_fulfil (processed : Z -> bool) (cur latest : Z) :
  forallb (batch_fulfils processed) (windows cur latest) = true
  <-> forall w h, In w (windows cur latest) -> fst w <= h <= snd w ->
                  processed h = true.
Proof.
  rewrite forallb_forall. split.
  - intros H w h Hw Hh. apply (proj1 (batch_fulfils_spec processed w) (H w Hw)), Hh.
  - intros H w Hw. apply batch_fulfils_spec. intros h Hh. apply (H w h Hw Hh).
Qed.

Lemma windows_some_rejects (processed : Z -> bool) (cur latest : Z) :
  forallb (batch_fulfils processed) (windows cur latest) = false
  <-> exists w h, In w (windows cur latest) /\ fst w <= h <= snd w
                  /\ processed h = false.
Proof.
  split.
  - intros H.
    induction (windows cur latest) as [|w ws IH]; simpl in H; [discriminate|].
    destruct (batch_fulfils processed w) eqn:B.
    + destruct (IH H) as [w' [h [Hw' Hh]]]. exists w', h. split; [right|]; tauto.
    + clear IH H. exists w. unfold batch_fulfils in B.
      assert (exists h, In h (heights w) /\ processed h = false) as [h [Hin Hp]].
      { induction (heights w) as [|x l IHl]; simpl in B; [discriminate|].
        destruct (processed x) eqn:Px.
        - destruct (IHl B) as [h [Hh Hp]]. exists h. split; [right|]; assumption.
        - exists x. split; [left; reflexivity | exact Px]. }
      exists h. split; [left; reflexivity|]. split; [apply In_heights, Hin | exact Hp].
  - intros [w [h [Hw [Hh Hp]]]].
    destruct (forallb (batch_fulfils processed) (windows cur latest)) eqn:A;
      [|reflexivity].
    rewrite (proj1 (windows_all_fulfil processed cur latest) A w h Hw Hh) in Hp.
    discriminate.
Qed.

(** ** The frontier over a process life *)

Lemma assigned_app (e1 e2 : list Event) :
  assigned (e1 ++ e2) = assigned e1 ++ assigned e2.
Proof. unfold assigned. apply flat_map_app. Qed.

Lemma climbs_nil (lo : Z) : climbs lo lo [].
Proof. repeat split; [lia | constructor | constructor]. Qed.

Lemma climbs_assign (lo next hi : Z) (events : list Event) :
  lo <= next -> climbs next hi events -> climbs lo hi (Assign next :: events).
Proof.
  intros Hlo [Hle [Hs Hb]]. repeat split; [lia | |]; simpl.
  - constructor; [exact Hs|]. eapply Forall_impl; [|exact Hb].
    simpl. intros h Hh. lia.
  - constructor; [lia|]. eapply Forall_impl; [|exact Hb].
    simpl. intros h Hh. lia.
Qed.

Lemma climbs_app (a b c : Z) (e1 e2 : list Event) :
  climbs a b e1 -> climbs b c e2 -> climbs a c (e1 ++ e2).
Proof.
  intros [H1 [S1 B1]] [H2 [S2 B2]]. rewrite Forall_forall in B1, B2.
  repeat split; [lia | |]; rewrite assigned_app.
  - induction S1 as [|x l S1 IH Hx]; simpl; [exact S2|].
    constructor.
    + apply IH. intros y Hy. apply B1. right. exact Hy.
    + apply Forall_app. split; [exact Hx|].
      apply Forall_forall. intros y Hy.
      specialize (B1 x (or_introl eq_refl)). specialize (B2 y Hy). lia.
  - apply Forall_app. split; apply Forall_forall; intros y Hy.
    + specialize (B1 y Hy). lia.
    + specialize (B2 y Hy). lia.
Qed.

Lemma catch_up_climbs (rounds : list (Z -> bool)) (latest : Z) :
  forall cur h events exited,
  catch_up rounds cur latest = (h, events, exited) ->
  climbs cur h events /\ (exited = true -> latest < h).
Proof.
  induction rounds as [|processed rounds IH]; intros cur h events exited; simpl.
  - destruct (cur <=? latest) eqn:G; intros H; injection H as <- <- <-.
    + split; [apply climbs_nil | discriminate].
    + split; [apply climbs_nil | lia].
  - destruct (cur <=? latest) eqn:G.
    + apply Z.leb_le in G.
      destruct (round processed cur latest) as [next|] eqn:R.
      * destruct (catch_up rounds next latest) as [[h' ev'] x'] eqn:C.
        intros H. injection H as <- <- <-.
        destruct (IH _ _ _ _ C) as [Hc Hx]. split; [|exact Hx].
        apply climbs_assign; [|exact Hc].
        destruct (round_some processed cur latest next G R) as [_ Hn]. lia.
      * destruct (catch_up rounds cur latest) as [[h' ev'] x'] eqn:C.
        intros H. injection H as <- <- <-.
        destruct (IH _ _ _ _ C) as [Hc Hx]. split; [exact Hc | exact Hx].
    + intros H. injection H as <- <- <-.
      split; [apply climbs_nil | lia].
Qed.

Lemma climbs_timer (lo hi ms : Z) (events : list Event) :
  climbs lo hi events -> climbs lo hi (events ++ [SetTimeout ms]).
Proof.
  unfold climbs. rewrite assigned_app. simpl. rewrite app_nil_r. tauto.
Qed.

Lemma syncBlocks_climbs (p : Pass) (cur h : Z) (events : list Event) (armed : bool) :
  syncBlocks p cur = (h, events, armed) -> climbs cur h events.
Proof.
  unfold syncBlocks. destruct (answer p) as [| |latest].
  - intros H. injection H as <- <- <-. apply (climbs_timer _ _ _ []), climbs_nil.
  - intros H. injection H as <- <- <-. apply (climbs_timer _ _ _ []), climbs_nil.
  - destruct (catch_up (rounds_of p) cur latest) as [[h' ev'] x'] eqn:C.
    destruct (catch_up_climbs _ _ _ _ _ _ C) as [Hc _].
    destruct x'; intros H; injection H as <- <- <-.
    + apply climbs_timer, Hc.
    + exact Hc.
Qed.

Lemma run_passes_climbs (passes : list Pass) :
  forall cur h events,
  run_passes passes cur = (h, events) -> climbs cur h events.
Proof.
  induction passes as [|p passes IH]; intros cur h events; simpl.
  - intros H. injection H as <- <-. apply climbs_nil.
  - destruct (syncBlocks p cur) as [[h1 ev1] armed] eqn:S.
    pose proof (syncBlocks_climbs p cur h1 ev1 armed S) as H1.
    destruct armed.
    + destruct (run_passes passes h1) as [h2 ev2] eqn:P.
      intros H. injection H as <- <-.
      apply (climbs_app cur h1 h2); [exact H1 | apply IH, P].
    + intros H. injection H as <- <-. exact H1.
Qed.

Lemma startup_max (db : Store) (m : Z) :
  max_height (blocks db) = Some m -> startup db = m.
Proof.
  unfold startup. intros ->. simpl.
  destruct (m =? 0) eqn:Z0; [apply Z.eqb_eq in Z0; lia | reflexivity].
Qed.

Lemma startup_nonneg (db : Store) :
  (forall r, In r (blocks db) -> 0 <= height r) -> 0 <= startup db.
Proof.
  intros H. destruct (max_height (blocks db)) as [m|] eqn:M.
  - rewrite (startup_max db m M).
    destruct (Math_max_spec _ m M) as [Hin _].
    apply in_map_iff in Hin. destruct Hin as [r [<- Hr]]. apply H, Hr.
  - unfold startup. rewrite M. simpl. lia.
Qed.

(** C4 — The frontier never goes down, and a round moves it only when all
    its windows fulfil. Over any database with non-negative heights and any
    run of passes, the values held by [currentBlockHeight] (the initialiser,
    the start-up value, every assignment of the loop) are non-decreasing.
    Inside the loop, for a frontier not above the chain height: if every
    height of every launched window is processed, the frontier is assigned
    the largest window end plus one and the loop goes on from there; if
    some height of some launched window fails, nothing is assigned, the
    loop sleeps 2000 ms and runs again from the same frontier against the
    same chain height. *)
Theorem frontier_monotone (db : Store) (passes : list Pass) :
  (forall r, In r (blocks db) -> 0 <= height r) ->
  StronglySorted Z.le (frontier_history db passes)
  /\ forall processed rounds cur latest,
       cur <= latest ->
       ((forall w h, In w (windows cur latest) -> fst w <= h <= snd w ->
                     processed h = true) ->
        exists m,
          Math_max (map snd (windows cur latest)) = Some m
          /\ cur < m + 1
          /\ catch_up (processed :: rounds) cur latest
             = (fst (fst (catch_up rounds (m + 1) latest)),
                Assign (m + 1) :: snd (fst (catch_up rounds (m + 1) latest)),
                snd (catch_up rounds (m + 1) latest)))
       /\ ((exists w h, In w (windows cur latest) /\ fst w <= h <= snd w
                        /\ processed h = false) ->
           catch_up (processed :: rounds) cur latest
           = (fst (fst (catch_up rounds cur latest)),
              Sleep 2000 :: snd (fst (catch_up rounds cur latest)),
              snd (catch_up rounds cur latest))).
Proof.
  intros Hdb. split.
  - unfold frontier_history.
    destruct (run_passes passes (startup db)) as [h events] eqn:P.
    destruct (run_passes_climbs passes _ _ _ P) as [Hle [Hs Hb]].
    pose proof (startup_nonneg db Hdb) as H0. simpl.
    constructor; [constructor; [exact Hs|]|].
    + eapply Forall_impl; [|exact Hb]. simpl. intros x Hx. lia.
    + constructor; [exact H0|].
      eapply Forall_impl; [|exact Hb]. simpl. intros x Hx. lia.
  - intros processed rounds cur latest Hle. split.
    + intros Hall. apply windows_all_fulfil in Hall.
      destruct (round_fulfils processed cur latest Hle Hall) as [m [M R]].
      exists m. split; [exact M|].
      destruct (round_some processed cur latest (m + 1) Hle R) as [_ Hn].
      split; [lia|]. simpl.
      apply Z.leb_le in Hle. rewrite Hle, R.
      destruct (catch_up rounds (m + 1) latest) as [[h ev] x]. reflexivity.
    + intros Hsome. apply windows_some_rejects in Hsome.
      simpl. apply Z.leb_le in Hle.
      rewrite Hle, (round_rejects processed cur latest Hsome).
      destruct (catch_up rounds cur latest) as [[h ev] x]. reflexivity.
Qed.

(** A restart over heights 2 and 3, then a pass that fails once. *)
Lemma frontier_monotone_witness :
  StronglySorted Z.le (frontier_history sample_db [sample_pass]).
Proof.
  apply (frontier_monotone sample_db [sample_pass]).
  intros r [<-|[<-|[]]]; simpl; lia.
Defined.

(** ** The window scenario *)

(** C5 — With [BATCH_SIZE] 100 and [CONCURRENT_BATCHES] 5, a round at
    frontier 0 against chain height 249 launches exactly the windows
    [0,99], [100,199], [200,249]; when every height from 0 to 249 is
    processed the round assigns 250 to the frontier, and the loop is left
    after this one round. *)
Theorem windows_scenario (processed : Z -> bool) (rounds : list (Z -> bool)) :
  (forall h, 0 <= h <= 249 -> processed h = true) ->
  BATCH_SIZE = 100 /\ CONCURRENT_BATCHES = 5%nat
  /\ windows 0 249 = [(0, 99); (100, 199); (200, 249)]
  /\ round processed 0 249 = Some 250
  /\ catch_up (processed :: rounds) 0 249 = (250, [Assign 250], true).
Proof.
  intros Hall.
  assert (round processed 0 249 = Some 250) as R.
  { assert (0 <= 249) as Hle by lia.
    destruct (round_fulfils processed 0 249 Hle) as [m [M ->]].
    - apply windows_all_fulfil. intros w h Hw Hh.
      pose proof (windows_bounds 0 249 w Hw). apply Hall. lia.
    - vm_compute in M. injection M as <-. reflexivity. }
  repeat split; try reflexivity; [exact R|].
  cbn [catch_up]. rewrite R.
  change (0 <=? 249) with true. cbv iota.
  destruct rounds; reflexivity.
Qed.

Lemma windows_scenario_witness :
  catch_up [fun _ => true] 0 249 = (250, [Assign 250], true).
Proof.
  apply (windows_scenario (fun _ => true) []). reflexivity.
Defined.

(** ** Start-up *)

Lemma round_heights_first (cur latest : Z) :
  cur <= latest -> hd_error (round_heights cur latest) = Some cur.
Proof.
  intros H. unfold round_heights.
  destruct (windows_first cur latest H) as [rest ->].
  cbn [flat_map]. unfold heights. cbn [fst snd].
  destruct (Z.to_nat (Z.min (cur + BATCH_SIZE - 1) latest - cur + 1)) eqn:N.
  - unfold BATCH_SIZE in N. lia.
  - simpl. f_equal. lia.
Qed.

(** C3, as stated, fails: over a database whose highest block is 3 the
    frontier starts at 3, not at 4, and height 3 is the first height handed
    to [processBlock] again. *)
Lemma startup_resumes_at_max :
  max_height (blocks sample_db) = Some 3
  /\ startup sample_db = 3
  /\ startup sample_db <> 3 + 1
  /\ hd_error (round_heights (startup sample_db) 249) = Some 3.
Proof. repeat split. discriminate. Qed.

(** C3, amended — At start-up the frontier is set to 0 over an empty
    [blocks] table and to the highest stored height itself (not one past
    it) over a non-empty one; the first height processed after a restart
    is therefore that highest stored height, which is ingested again. *)
Theorem startup_frontier (db : Store) :
  (blocks db = [] -> startup db = 0)
  /\ (blocks db <> [] -> exists m, max_height (blocks db) = Some m)
  /\ (forall m, max_height (blocks db) = Some m ->
        In m (map height (blocks db))
        /\ (forall r, In r (blocks db) -> height r <= m)
        /\ startup db = m
        /\ forall latest, m <= latest ->
             hd_error (round_heights (startup db) latest) = Some m).
Proof.
  split; [|split].
  - intros H. unfold startup. rewrite H. reflexivity.
  - intros H. apply Math_max_some. destruct (blocks db); [congruence|discriminate].
  - intros m M. destruct (Math_max_spec _ m M) as [Hin Hmax].
    split; [exact Hin|]. split; [|split].
    + intros r Hr. apply Hmax, in_map, Hr.
    + apply startup_max, M.
    + intros latest Hle. rewrite (startup_max db m M).
      apply round_heights_first, Hle.
Qed.

(** ** Polling cadence *)

Lemma catch_up_events (rounds : list (Z -> bool)) (latest : Z) :
  forall cur h events exited,
  catch_up rounds cur latest = (h, events, exited) ->
  Forall (fun e => (exists n, e = Assign n) \/ e = Sleep 2000) events.
Proof.
  induction rounds as [|processed rounds IH]; intros cur h events exited; simpl.
  - destruct (cur <=? latest); intros H; injection H as <- <- <-; constructor.
  - destruct (cur <=? latest).
    + destruct (round processed cur latest) as [next|].
      * destruct (catch_up rounds next latest) as [[h' ev'] x'] eqn:C.
        intros H. injection H as <- <- <-.
        constructor; [left; eauto | apply (IH _ _ _ _ C)].
      * destruct (catch_up rounds cur latest) as [[h' ev'] x'] eqn:C.
        intros H. injection H as <- <- <-.
        constructor; [right; reflexivity | apply (IH _ _ _ _ C)].
    + intros H. injection H as <- <- <-. constructor.
Qed.

(** C8, as stated, fails: at frontier = chain height the delay is 1000 ms,
    not 100 ms; and in a pass over chain height 600 the frontier is 500,
    not above the chain height, after the first round, yet the second
    round follows without any wait and the pass ends on a 1000 ms timer. *)
Lemma delay_at_equal_heights :
  delay 5 5 = 1000
  /\ syncBlocks sample_pass_two_rounds 0
     = (601, [Assign 500; Assign 601; SetTimeout 1000], true)
  /\ ~ (forall frontier chainHeight,
          (frontier > chainHeight -> delay frontier chainHeight = 1000)
          /\ (frontier <= chainHeight -> delay frontier chainHeight = 100)).
Proof.
  split; [reflexivity|]. split; [reflexivity|]. intros H.
  destruct (H 5 5) as [_ H5]. specialize (H5 ltac:(lia)). discriminate.
Qed.

(** C8, amended — The timer is re-armed with 1000 ms when the frontier is
    at or above the chain height and with 100 ms only when it is strictly
    below; a pass that got its chain height from a ready node and came to
    re-arm the timer has left the loop with the frontier above the chain
    height, so its last event is a re-arm after 1000 ms, and no wait of
    100 ms occurs anywhere in the pass: while the frontier is not above
    the chain height, rounds follow one another without a wait, or after
    2000 ms when a round failed. *)
Theorem polling_delay (p : Pass) (cur latest h : Z) (events : list Event) :
  answer p = Ready latest ->
  syncBlocks p cur = (h, events, true) ->
  latest < h
  /\ (exists earlier,
        events = earlier ++ [SetTimeout 1000]
        /\ Forall (fun e => (exists n, e = Assign n) \/ e = Sleep 2000) earlier)
  /\ Forall (fun e => e <> Sleep 100 /\ e <> SetTimeout 100) events
  /\ (forall frontier chainHeight,
        (frontier >= chainHeight -> delay frontier chainHeight = 1000)
        /\ (frontier < chainHeight -> delay frontier chainHeight = 100)).
Proof.
  intros Ha. unfold syncBlocks. rewrite Ha.
  destruct (catch_up (rounds_of p) cur latest) as [[h' ev'] x'] eqn:C.
  destruct (catch_up_climbs _ _ _ _ _ _ C) as [_ Hx].
  pose proof (catch_up_events _ _ _ _ _ _ C) as Hev.
  destruct x'; intros H; [|discriminate]. injection H as <- <-.
  specialize (Hx eq_refl).
  assert (forall f c, (f >= c -> delay f c = 1000) /\ (f < c -> delay f c = 100))
    as Hd.
  { intros f c. unfold delay. destruct (f >=? c) eqn:G; split; intros; lia. }
  rewrite (proj1 (Hd h' latest)) by lia.
  split; [exact Hx|]. split; [|split; [|exact Hd]].
  - exists ev'. split; [reflexivity | exact Hev].
  - apply Forall_app. split.
    + eapply Forall_impl; [|exact Hev]. simpl.
      intros e [[n ->]| ->]; split; discriminate.
    + constructor; [split; discriminate | constructor].
Qed.

Lemma polling_delay_witness :
  exists earlier,
    snd (fst (syncBlocks sample_pass 0)) = earlier ++ [SetTimeout 1000]
    /\ Forall (fun e => (exists n, e = Assign n) \/ e = Sleep 2000) earlier.
Proof.
  exact (proj1 (proj2 (polling_delay sample_pass 0 249 250 _ eq_refl eq_refl))).
Defined.

(** ** Smoothed block time *)

Lemma positive_not_zero (a : float) :
  (0 <? a)%float = true -> (a =? 0)%float = false.
Proof.
  rewrite ltb_spec, eqb_spec. unfold SFltb, SFeqb.
  change (Prim2SF 0) with (S754_zero false).
  destruct (Prim2SF a) as [s|s| |s m e]; simpl; try congruence;
    destruct s; simpl; congruence.
Qed.

(** C6 — The smoothed block time is an exponential moving average with
    weight 0.1 on the new sample, seeded with the first duration: for a
    positive average [a] and a duration [d] the new average is
    [a * 0.9 + d * 0.1] (in binary64, as the code computes it), for the
    initial average 0 it is [d]; durations 100, 100, 100 keep the average
    at 100 and durations 100, 200 bring it to 110; and this is the update
    every fulfilled [processBlock] applies to the average. *)
Theorem averageBlockTime_ema (a d : float) :
  (0 <? a)%float = true ->
  update_averageBlockTime a d = (a * 0.9 + d * 0.1)%float
  /\ update_averageBlockTime 0 d = d
  /\ averageBlockTime_after [100; 100; 100]%float = 100%float
  /\ averageBlockTime_after [100; 200]%float = 110%float
  /\ (forall N E h st block st',
        processBlock N E h d st = (Fulfilled block, st') ->
        averageBlockTime st'
        = update_averageBlockTime (averageBlockTime st) d).
Proof.
  intros Ha. repeat split; try reflexivity.
  - unfold update_averageBlockTime. rewrite (positive_not_zero a Ha). reflexivity.
  - intros N E h st block st'. unfold processBlock.
    destruct (getBlockHash N h) as [blockHash|]; [|discriminate].
    destruct (getBlock N blockHash) as [fetched|]; [|discriminate].
    destruct (storeBlock E (database st) _) as [[[]|] db]; [|discriminate].
    intros H. injection H as _ <-. reflexivity.
Qed.

Lemma averageBlockTime_ema_witness :
  update_averageBlockTime 100 200 = (100 * 0.9 + 200 * 0.1)%float.
Proof.
  exact (proj1 (averageBlockTime_ema 100 200 eq_refl)).
Defined.

(** ** Status normalisation *)

(** The comparison is one of strings, letter case included: a remote
    status spelled ["processing"] is not the node's ["Processing"] and is
    stored as 1. *)
Example status_compared_by_case :
  status (insertTx_args sample_block "t"
            {| runtime_transaction := "{}";
               tx_status := StatusString "processing";
               tx_bitcoin_txids := None |}) = 1.
Proof. reflexivity. Qed.

(** C7 — The status bound to [insert-tx] is 0 (pending) exactly when the
    remote status is the node's processing status, the string
    ["Processing"], and 1 (finalized) for every other remote status
    value, string or not. *)
Theorem status_normalised (b : Block) (txId : string) (tx : ProcessedTx) :
  (status (insertTx_args b txId tx) = 0
   <-> tx_status tx = StatusString "Processing")
  /\ (status (insertTx_args b txId tx) = 1
      <-> tx_status tx <> StatusString "Processing").
Proof.
  simpl. unfold status_code. destruct (tx_status tx) as [s|].
  - destruct (String.eqb s "Processing") eqn:Q.
    + apply String.eqb_eq in Q. subst s.
      split; split; intros H; try reflexivity; try discriminate.
      exfalso. apply H. reflexivity.
    + apply String.eqb_neq in Q.
      split; split; intros H; try reflexivity; try discriminate; try congruence.
  - split; split; intros H; try reflexivity; discriminate.
Qed.

(** ** Numbers and their texts *)

Lemma to_double_small (z : Z) :
  Z.abs z < 2 ^ 53 -> to_double z = JsFinite z.
Proof.
  intros H. unfold to_double.
  destruct (Z.abs z <? 2 ^ 53) eqn:Q; [reflexivity|].
  apply Z.ltb_ge in Q. lia.
Qed.

(** Beyond 2^53 rounding stays beyond 2^53. *)
Lemma to_double_large (z x : Z) :
  2 ^ 53 <= Z.abs z -> to_double z = JsFinite x -> 2 ^ 53 <= Z.abs x.
Proof.
  intros H. unfold to_double.
  destruct (Z.abs z <? 2 ^ 53) eqn:Q; [apply Z.ltb_lt in Q; lia|].
  set (a := Z.abs z) in *.
  set (e := Z.log2 a - 52).
  set (q := a / 2 ^ e).
  set (q' := if (2 ^ (e - 1) <? a mod 2 ^ e)
                || ((a mod 2 ^ e =? 2 ^ (e - 1)) && Z.odd q)
             then q + 1 else q).
  destruct (2 ^ 1024 <=? q' * 2 ^ e); [discriminate|].
  intros X. injection X as <-.
  assert (0 < a) as Ha by (change (2 ^ 53) with 9007199254740992 in H; lia).
  assert (53 <= Z.log2 a) as HL.
  { change 53 with (Z.log2 (2 ^ 53)). apply Z.log2_le_mono, H. }
  assert (1 <= e) as He by (unfold e; lia).
  pose proof (Z.log2_spec a Ha) as [Hlo _].
  assert (0 < 2 ^ e) as Hp by (apply Z.pow_pos_nonneg; lia).
  assert (2 ^ 52 <= q) as Hq.
  { unfold q. apply Z.div_le_lower_bound; [exact Hp|].
    rewrite <- Z.pow_add_r by lia.
    replace (e + 52) with (Z.log2 a) by (unfold e; lia). exact Hlo. }
  assert (q <= q') as Hq' by (unfold q'; destruct (_ || _); lia).
  assert (2 <= 2 ^ e) as H2.
  { change 2 with (2 ^ 1) at 1. apply Z.pow_le_mono_r; lia. }
  assert (2 ^ 53 <= q' * 2 ^ e) as Hx.
  { change (2 ^ 53) with (2 ^ 52 * 2). apply Z.mul_le_mono_nonneg; lia. }
  assert (Z.abs (Z.sgn z) = 1) as Hs by (unfold a in Ha; lia).
  rewrite Z.abs_mul, Hs, Z.abs_eq by lia. lia.
Qed.

Lemma reads_back_small (a v : Z) :
  0 <= a < 2 ^ 53 -> 0 <= v -> reads_back a v = true -> v = a.
Proof.
  intros Ha Hv. unfold reads_back.
  destruct (to_double v) as [|x|] eqn:D; try discriminate.
  intros Q. apply Z.eqb_eq in Q. subst x.
  destruct (Z_lt_le_dec (Z.abs v) (2 ^ 53)) as [S|L].
  - rewrite (to_double_small v S) in D. congruence.
  - pose proof (to_double_large v a L D). lia.
Qed.

Lemma shortest_small (a : Z) (j : nat) :
  0 <= a < 2 ^ 53 -> shortest a j = a.
Proof.
  intros Ha. induction j as [|j IH]; cbn [shortest];
    set (p := 10 ^ Z.of_nat _);
    assert (0 < p) as Hp by (apply Z.pow_pos_nonneg; lia);
    assert (0 <= a / p * p) as Hlo
      by (apply Z.mul_nonneg_nonneg; [apply Z.div_pos|]; lia);
    pose proof (reads_back_small a (a / p * p) Ha Hlo) as L;
    pose proof (reads_back_small a (a / p * p + p) Ha ltac:(lia)) as U;
    destruct (reads_back a (a / p * p)), (reads_back a (a / p * p + p));
    try specialize (L eq_refl); try specialize (U eq_refl);
    try lia; try assumption; try reflexivity.
Qed.

Lemma shortest_nonneg (a : Z) (j : nat) : 0 <= a -> 0 <= shortest a j.
Proof.
  intros Ha. induction j as [|j IH]; cbn [shortest];
    set (p := 10 ^ Z.of_nat _);
    assert (0 < p) as Hp by (apply Z.pow_pos_nonneg; lia);
    assert (0 <= a / p * p) as Hlo
      by (apply Z.mul_nonneg_nonneg; [apply Z.div_pos|]; lia);
    destruct (reads_back a (a / p * p)), (reads_back a (a / p * p + p));
    repeat match goal with |- context [if ?b then _ else _] => destruct b end;
    lia.
Qed.

Lemma printed_small (x : Z) : Z.abs x < 2 ^ 53 -> printed x = x.
Proof.
  intros H. unfold printed. rewrite shortest_small by lia.
  destruct (x <? 0) eqn:Q; [apply Z.ltb_lt in Q | apply Z.ltb_ge in Q]; lia.
Qed.

Lemma Number_toString_small (z : Z) :
  Z.abs z < 2 ^ 53 -> Number_toString (JsFinite z) = decimal z.
Proof.
  intros H. cbn [Number_toString]. cbv zeta.
  rewrite shortest_small by lia.
  assert ((Z.abs z <? 10 ^ 21) = true) as ->.
  { apply Z.ltb_lt. change (2 ^ 53) with 9007199254740992 in H.
    change (10 ^ 21) with 1000000000000000000000. lia. }
  destruct z as [|p|p]; reflexivity.
Qed.

(** [to_double] rounds as binary64 does, here on integers around 2^53,
    2^63, 10^23 and the largest double. *)
Lemma to_double_examples :
  Forall (fun z => to_double z = binary64_of z)
    [0; 1; -1; 2 ^ 53 - 1; 2 ^ 53; 2 ^ 53 + 1; 2 ^ 53 + 2; 2 ^ 53 + 3;
     - (2 ^ 53 + 1); - (2 ^ 53 + 3); 2 ^ 54 + 1; 2 ^ 54 + 2; 2 ^ 54 + 3;
     2 ^ 54 + 5; 2 ^ 54 + 6; 2 ^ 54 + 7; 9007199254740993;
     18014398509481985; 2 ^ 63 - 513; 2 ^ 63 - 512; 2 ^ 63 - 511;
     2 ^ 63 - 1; 2 ^ 63; 10 ^ 21; 10 ^ 21 + 65536; 10 ^ 23 - 1; 10 ^ 23;
     123456789012345678901; 3 ^ 200; - 3 ^ 333;
     2 ^ 1024 - 2 ^ 971; 2 ^ 1024 - 2 ^ 970 - 1; 2 ^ 1024 - 2 ^ 970;
     2 ^ 1024 - 1; 2 ^ 1024; - 2 ^ 1024; 10 ^ 400]
  /\ to_double 9007199254740993 = JsFinite 9007199254740992
  /\ to_double (2 ^ 1024) = JsInfinity false.
Proof. split; [|split]; [repeat constructor | |]; vm_compute; reflexivity. Qed.

(** ** Decimal text *)

Lemma of_uint_digit (d : Decimal.uint) :
  let u := (10 ^ DecimalPos.Unsigned.usize d)%N in
  let v := Pos.of_uint d in
  Pos.of_uint (Decimal.D0 d) = v
  /\ Pos.of_uint (Decimal.D1 d) = (v + 1 * u)%N
  /\ Pos.of_uint (Decimal.D2 d) = (v + 2 * u)%N
  /\ Pos.of_uint (Decimal.D3 d) = (v + 3 * u)%N
  /\ Pos.of_uint (Decimal.D4 d) = (v + 4 * u)%N
  /\ Pos.of_uint (Decimal.D5 d) = (v + 5 * u)%N
  /\ Pos.of_uint (Decimal.D6 d) = (v + 6 * u)%N
  /\ Pos.of_uint (Decimal.D7 d) = (v + 7 * u)%N
  /\ Pos.of_uint (Decimal.D8 d) = (v + 8 * u)%N
  /\ Pos.of_uint (Decimal.D9 d) = (v + 9 * u)%N.
Proof.
  intros u v. unfold u, v.
  repeat split;
    rewrite !DecimalPos.Unsigned.of_uint_alt; unfold Decimal.rev;
    cbn [Decimal.revapp]; rewrite DecimalPos.Unsigned.of_lu_revapp;
    cbn [DecimalPos.Unsigned.of_lu]; unfold Decimal.rev; lia.
Qed.

Lemma read_digits_uint (d : Decimal.uint) :
  forall acc,
  read_digits 10 (DecimalString.NilEmpty.string_of_uint d) (Some acc)
  = Some (acc * 10 ^ Z.of_N (DecimalPos.Unsigned.usize d)
          + Z.of_N (Pos.of_uint d)).
Proof.
  induction d; intros acc;
    try (destruct (of_uint_digit d) as (E0 & E1 & E2 & E3 & E4 & E5 & E6 & E7 & E8 & E9));
    cbn [DecimalString.NilEmpty.string_of_uint DecimalPos.Unsigned.usize].
  - simpl. f_equal. lia.
  - change (read_digits 10 (String "0" ?s) (Some acc))
      with (read_digits 10 s (Some (acc * 10 + 0))).
    rewrite IHd, E0, N2Z.inj_succ, Z.pow_succ_r by lia. f_equal. lia.
  - change (read_digits 10 (String "1" ?s) (Some acc))
      with (read_digits 10 s (Some (acc * 10 + 1))).
    rewrite IHd, E1, N2Z.inj_succ, Z.pow_succ_r by lia.
    rewrite N2Z.inj_add, N2Z.inj_mul, N2Z.inj_pow. f_equal. simpl Z.of_N. lia.
  - change (read_digits 10 (String "2" ?s) (Some acc))
      with (read_digits 10 s (Some (acc * 10 + 2))).
    rewrite IHd, E2, N2Z.inj_succ, Z.pow_succ_r by lia.
    rewrite N2Z.inj_add, N2Z.inj_mul, N2Z.inj_pow. f_equal. simpl Z.of_N. lia.
  - change (read_digits 10 (String "3" ?s) (Some acc))
      with (read_digits 10 s (Some (acc * 10 + 3))).
    rewrite IHd, E3, N2Z.inj_succ, Z.pow_succ_r by lia.
    rewrite N2Z.inj_add, N2Z.inj_mul, N2Z.inj_pow. f_equal. simpl Z.of_N. lia.
  - change (read_digits 10 (String "4" ?s) (Some acc))
      with (read_digits 10 s (Some (acc * 10 + 4))).
    rewrite IHd, E4, N2Z.inj_succ, Z.pow_succ_r by lia.
    rewrite N2Z.inj_add, N2Z.inj_mul, N2Z.inj_pow. f_equal. simpl Z.of_N. lia.
  - change (read_digits 10 (String "5" ?s) (Some acc))
      with (read_digits 10 s (Some (acc * 10 + 5))).
    rewrite IHd, E5, N2Z.inj_succ, Z.pow_succ_r by lia.
    rewrite N2Z.inj_add, N2Z.inj_mul, N2Z.inj_pow. f_equal. simpl Z.of_N. lia.
  - change (read_digits 10 (String "6" ?s) (Some acc))
      with (read_digits 10 s (Some (acc * 10 + 6))).
    rewrite IHd, E6, N2Z.inj_succ, Z.pow_succ_r by lia.
    rewrite N2Z.inj_add, N2Z.inj_mul, N2Z.inj_pow. f_equal. simpl Z.of_N. lia.
  - change (read_digits 10 (String "7" ?s) (Some acc))
      with (read_digits 10 s (Some (acc * 10 + 7))).
    rewrite IHd, E7, N2Z.inj_succ, Z.pow_succ_r by lia.
    rewrite N2Z.inj_add, N2Z.inj_mul, N2Z.inj_pow. f_equal. simpl Z.of_N. lia.
  - change (read_digits 10 (String "8" ?s) (Some acc))
      with (read_digits 10 s (Some (acc * 10 + 8))).
    rewrite IHd, E8, N2Z.inj_succ, Z.pow_succ_r by lia.
    rewrite N2Z.inj_add, N2Z.inj_mul, N2Z.inj_pow. f_equal. simpl Z.of_N. lia.
  - change (read_digits 10 (String "9" ?s) (Some acc))
      with (read_digits 10 s (Some (acc * 10 + 9))).
    rewrite IHd, E9, N2Z.inj_succ, Z.pow_succ_r by lia.
    rewrite N2Z.inj_add, N2Z.inj_mul, N2Z.inj_pow. f_equal. simpl Z.of_N. lia.
Qed.

Lemma read_digits_uint_first (d : Decimal.uint) :
  d <> Decimal.Nil ->
  read_digits 10 (DecimalString.NilEmpty.string_of_uint d) None
  = Some (Z.of_N (Pos.of_uint d)).
Proof.
  destruct d as [|d|d|d|d|d|d|d|d|d|d]; intros Hd; [congruence|..];
    destruct (of_uint_digit d) as (E0 & E1 & E2 & E3 & E4 & E5 & E6 & E7 & E8 & E9);
    cbn [DecimalString.NilEmpty.string_of_uint].
  - change (read_digits 10 (String "0" ?s) None)
      with (read_digits 10 s (Some 0)).
    rewrite read_digits_uint, E0. f_equal.
  - change (read_digits 10 (String "1" ?s) None)
      with (read_digits 10 s (Some 1)).
    rewrite read_digits_uint, E1, N2Z.inj_add, N2Z.inj_mul, N2Z.inj_pow.
    f_equal. simpl Z.of_N. lia.
  - change (read_digits 10 (String "2" ?s) None)
      with (read_digits 10 s (Some 2)).
    rewrite read_digits_uint, E2, N2Z.inj_add, N2Z.inj_mul, N2Z.inj_pow.
    f_equal. simpl Z.of_N. lia.
  - change (read_digits 10 (String "3" ?s) None)
      with (read_digits 10 s (Some 3)).
    rewrite read_digits_uint, E3, N2Z.inj_add, N2Z.inj_mul, N2Z.inj_pow.
    f_equal. simpl Z.of_N. lia.
  - change (read_digits 10 (String "4" ?s) None)
      with (read_digits 10 s (Some 4)).
    rewrite read_digits_uint, E4, N2Z.inj_add, N2Z.inj_mul, N2Z.inj_pow.
    f_equal. simpl Z.of_N. lia.
  - change (read_digits 10 (String "5" ?s) None)
      with (read_digits 10 s (Some 5)).
    rewrite read_digits_uint, E5, N2Z.inj_add, N2Z.inj_mul, N2Z.inj_pow.
    f_equal. simpl Z.of_N. lia.
  - change (read_digits 10 (String "6" ?s) None)
      with (read_digits 10 s (Some 6)).
    rewrite read_digits_uint, E6, N2Z.inj_add, N2Z.inj_mul, N2Z.inj_pow.
    f_equal. simpl Z.of_N. lia.
  - change (read_digits 10 (String "7" ?s) None)
      with (read_digits 10 s (Some 7)).
    rewrite read_digits_uint, E7, N2Z.inj_add, N2Z.inj_mul, N2Z.inj_pow.
    f_equal. simpl Z.of_N. lia.
  - change (read_digits 10 (String "8" ?s) None)
      with (read_digits 10 s (Some 8)).
    rewrite read_digits_uint, E8, N2Z.inj_add, N2Z.inj_mul, N2Z.inj_pow.
    f_equal. simpl Z.of_N. lia.
  - change (read_digits 10 (String "9" ?s) None)
      with (read_digits 10 s (Some 9)).
    rewrite read_digits_uint, E9, N2Z.inj_add, N2Z.inj_mul, N2Z.inj_pow.
    f_equal. simpl Z.of_N. lia.
Qed.

Lemma string_of_uint_nonnil (d : Decimal.uint) :
  d <> Decimal.Nil ->
  DecimalString.NilZero.string_of_uint d
  = DecimalString.NilEmpty.string_of_uint d.
Proof. destruct d; [congruence | reflexivity ..]. Qed.

Lemma all_digits_uint (d : Decimal.uint) :
  all_digits (DecimalString.NilEmpty.string_of_uint d) = true.
Proof. induction d; simpl; auto. Qed.

Lemma digits_then_spaces_read (s : string) :
  all_digits s = true ->
  forall acc, digits_then_spaces s acc = read_digits 10 s (Some acc).
Proof.
  induction s as [|c s IH]; intros H acc; [reflexivity|].
  cbn [all_digits digits_then_spaces read_digits] in *.
  unfold decimal_digit in *. destruct (digit_value c) as [d|]; [|discriminate].
  destruct (d <? 10); [|discriminate]. apply IH, H.
Qed.

Lemma digit_not_space (c : ascii) (d : Z) :
  decimal_digit c = Some d ->
  is_space c = false /\ Ascii.eqb c "-" = false /\ Ascii.eqb c "+" = false
  /\ Ascii.eqb c Ascii.zero = false /\ byte c < 128.
Proof.
  destruct c as [[] [] [] [] [] [] [] []]; try discriminate;
    intros _; repeat split.
Qed.

Lemma string_of_uint_first (d : Decimal.uint) :
  d <> Decimal.Nil ->
  exists c rest x,
    DecimalString.NilEmpty.string_of_uint d = String c rest
    /\ decimal_digit c = Some x.
Proof.
  destruct d; intros Hd; [congruence|..];
    cbn [DecimalString.NilEmpty.string_of_uint]; do 3 eexists;
    (split; [reflexivity|]); reflexivity.
Qed.

Lemma decimal_first (w : Z) :
  0 <= w ->
  exists c rest x, decimal w = String c rest /\ decimal_digit c = Some x.
Proof.
  intros Hw. destruct w as [|p|p]; [| |lia].
  - exists "0"%char, EmptyString, 0. split; reflexivity.
  - unfold decimal. cbn [Z.to_int DecimalString.NilZero.string_of_int].
    pose proof (DecimalPos.Unsigned.to_uint_nonnil p) as Hn.
    rewrite (string_of_uint_nonnil _ Hn). apply string_of_uint_first, Hn.
Qed.

Lemma text_in_digits (s : string) : all_digits s = true -> text_in s = true.
Proof.
  induction s as [|c s IH]; [reflexivity|]. cbn [all_digits text_in].
  destruct (decimal_digit c) as [x|] eqn:Hc; [|discriminate].
  destruct (digit_not_space c x Hc) as (_ & _ & _ & -> & _). exact IH.
Qed.

Lemma text_in_decimal (z : Z) : text_in (decimal z) = true.
Proof.
  unfold decimal. destruct z as [|p|p]; [reflexivity|..];
    pose proof (DecimalPos.Unsigned.to_uint_nonnil p) as Hn;
    cbn [Z.to_int DecimalString.NilZero.string_of_int];
    rewrite (string_of_uint_nonnil _ Hn); cbn [text_in];
    try change (negb (Ascii.eqb "-" Ascii.zero)) with true; cbn [andb];
    apply text_in_digits, all_digits_uint.
Qed.

(** ** The database's reading of an integer parameter *)

Lemma digits_then_spaces_uint (d : Decimal.uint) :
  digits_then_spaces (DecimalString.NilEmpty.string_of_uint d) 0
  = Some (Z.of_N (Pos.of_uint d)).
Proof.
  rewrite digits_then_spaces_read by apply all_digits_uint.
  rewrite read_digits_uint. f_equal.
Qed.

Lemma int_in_digits (ty : IntType) (d : Decimal.uint) (negative : bool) :
  d <> Decimal.Nil ->
  int_in ty (if negative
             then String "-" (DecimalString.NilEmpty.string_of_uint d)
             else DecimalString.NilEmpty.string_of_uint d)
  = let n := Z.of_N (Pos.of_uint d) in
    let v := if negative then - n else n in
    if in_range ty v then Some v else None.
Proof.
  intros Hd. pose proof (digits_then_spaces_uint d) as D.
  destruct (string_of_uint_first d Hd) as (c & rest & x & Hs & Hc).
  destruct (digit_not_space c x Hc) as (S1 & S2 & S3 & _).
  rewrite Hs in *. unfold int_in.
  destruct negative; cbn [skip_spaces]; [change (is_space "-") with false|];
    cbv iota; try rewrite S1; cbn [Ascii.eqb Bool.eqb]; try rewrite S2, S3;
    cbn [fst snd]; rewrite Hc, D; reflexivity.
Qed.

(** Decimal text is read as its integer, when the type can take it. *)
Lemma int_in_decimal (ty : IntType) (z : Z) :
  int_in ty (decimal z) = if in_range ty z then Some z else None.
Proof.
  unfold decimal. destruct z as [|p|p]; [destruct ty; reflexivity|..];
    pose proof (DecimalPos.Unsigned.to_uint_nonnil p) as Hn;
    pose proof (DecimalPos.Unsigned.of_to p) as Hp;
    cbn [Z.to_int DecimalString.NilZero.string_of_int];
    rewrite (string_of_uint_nonnil _ Hn).
  - rewrite (int_in_digits ty _ false Hn). cbv zeta. rewrite Hp. reflexivity.
  - rewrite (int_in_digits ty _ true Hn). cbv zeta. rewrite Hp. reflexivity.
Qed.

Lemma int_in_minus_decimal (ty : IntType) (v : Z) :
  0 <= v ->
  int_in ty (String "-" (decimal v))
  = if in_range ty (- v) then Some (- v) else None.
Proof.
  intros Hv. destruct v as [|p|p]; [destruct ty; reflexivity| |lia].
  change (String "-" (decimal (Z.pos p))) with (decimal (Z.neg p)).
  apply int_in_decimal.
Qed.

Lemma strip_zeros_nonneg (fuel : nat) :
  forall v, 0 <= v -> 0 <= strip_zeros fuel v.
Proof.
  induction fuel as [|fuel IH]; intros v Hv; cbn [strip_zeros]; [exact Hv|].
  destruct ((0 <? v) && (v mod 10 =? 0)); [|exact Hv].
  apply IH, Z.div_pos; lia.
Qed.

(** A digit followed by a character that is neither digit nor white space
    is refused. *)
Lemma int_in_junk (ty : IntType) (c k : ascii) (tail : string) (x : Z)
  (negative : bool) :
  decimal_digit c = Some x -> decimal_digit k = None -> is_space k = false ->
  int_in ty (if negative then String "-" (String c (String k tail))
             else String c (String k tail)) = None.
Proof.
  intros Hc Hk Hs.
  destruct (digit_not_space c x Hc) as (S1 & S2 & S3 & _).
  unfold int_in.
  destruct negative; cbn [skip_spaces]; [change (is_space "-") with false|];
    cbv iota; try rewrite S1; cbn [Ascii.eqb Bool.eqb]; try rewrite S2, S3;
    cbn [fst snd digits_then_spaces spaces_only]; rewrite Hc, Hk, Hs;
    reflexivity.
Qed.

Lemma int_in_exponential (ty : IntType) (v : Z) (negative : bool) :
  0 <= v ->
  int_in ty (if negative then String "-" (exponential v) else exponential v)
  = None.
Proof.
  intros Hv. unfold exponential.
  destruct (decimal_first (strip_zeros (String.length (decimal v)) v))
    as (c & rest & x & -> & Hc); [apply strip_zeros_nonneg, Hv|].
  destruct rest as [|c' rest]; cbn [String.append];
    apply (int_in_junk ty c _ _ x negative Hc); reflexivity.
Qed.

Lemma in_range_bound (ty : IntType) (v : Z) :
  in_range ty v = true -> Z.abs v < 10 ^ 21.
Proof.
  unfold in_range. intros H. apply andb_true_iff in H. destruct H as [L U].
  apply Z.leb_le in L, U. change (10 ^ 21) with 1000000000000000000000.
  destruct ty; cbn in L, U; lia.
Qed.

(** The height that the third query compares with is the integer the
    number's text denotes, and the query is refused when the column's
    type cannot take it; a text with an exponent is always refused. *)
Lemma height_param_finite (ty : IntType) (x : Z) :
  height_param ty (JsFinite x)
  = if in_range ty (printed x) then Some (printed x) else None.
Proof.
  unfold height_param, printed. cbn [Number_toString]. cbv zeta.
  set (v := shortest _ _).
  assert (0 <= v) as Hv by (apply shortest_nonneg; lia).
  destruct (v <? 10 ^ 21) eqn:Q.
  - destruct (x <? 0); [apply int_in_minus_decimal, Hv | apply int_in_decimal].
  - apply Z.ltb_ge in Q.
    assert (forall w, Z.abs w = v -> in_range ty w = false) as R.
    { intros w Hw. destruct (in_range ty w) eqn:I; [|reflexivity].
      apply in_range_bound in I. lia. }
    destruct (x <? 0).
    + rewrite (int_in_exponential ty v true Hv), R by lia. reflexivity.
    + rewrite (int_in_exponential ty v false Hv), R by lia. reflexivity.
Qed.

Lemma height_param_safe (ty : IntType) (x : Z) :
  Z.abs x < 2 ^ 53 ->
  height_param ty (JsFinite x) = if in_range ty x then Some x else None.
Proof.
  intros H. rewrite height_param_finite, (printed_small x H). reflexivity.
Qed.

Lemma height_param_infinite (ty : IntType) (negative : bool) :
  height_param ty (JsInfinity negative) = None.
Proof. destruct ty, negative; reflexivity. Qed.

(** ** [parseInt] *)

Lemma trim_start_first (c : ascii) (s : string) :
  is_space c = false -> byte c < 128 -> trim_start (String c s) = String c s.
Proof.
  intros H B. cbn [trim_start]. rewrite H.
  assert ((byte c =? 194) = false) as B1 by (apply Z.eqb_neq; lia).
  assert ((byte c =? 225) = false) as B2 by (apply Z.eqb_neq; lia).
  assert ((byte c =? 226) = false) as B3 by (apply Z.eqb_neq; lia).
  assert ((byte c =? 227) = false) as B4 by (apply Z.eqb_neq; lia).
  assert ((byte c =? 239) = false) as B5 by (apply Z.eqb_neq; lia).
  destruct s as [|c2 [|c3 s3]]; try reflexivity;
    unfold is_space2, is_space3; cbv zeta; rewrite ?B1, ?B2, ?B3, ?B4, ?B5;
    reflexivity.
Qed.

(** On digits alone [parseInt] takes neither a sign nor a [0x] prefix. *)
Lemma parseInt_digits (d : Decimal.uint) :
  d <> Decimal.Nil ->
  parseInt (DecimalString.NilEmpty.string_of_uint d)
  = match read_digits 10 (DecimalString.NilEmpty.string_of_uint d) None with
    | Some n => to_double (1 * n)
    | None => JsNaN
    end
  /\ parseInt (String "-" (DecimalString.NilEmpty.string_of_uint d))
     = match read_digits 10 (DecimalString.NilEmpty.string_of_uint d) None with
       | Some n => to_double (-1 * n)
       | None => JsNaN
       end.
Proof.
  destruct d as [|d|d|d|d|d|d|d|d|d|d]; intros Hd; [congruence|..];
    cbn [DecimalString.NilEmpty.string_of_uint];
    (split; unfold parseInt; rewrite trim_start_first by reflexivity;
     try reflexivity; destruct d; reflexivity).
Qed.

(** From the decimal text of an integer [parseInt] returns the double
    nearest to it. *)
Lemma parseInt_decimal (z : Z) : parseInt (decimal z) = to_double z.
Proof.
  unfold decimal. destruct z as [|p|p]; [reflexivity|..];
    pose proof (DecimalPos.Unsigned.to_uint_nonnil p) as Hn;
    pose proof (DecimalPos.Unsigned.of_to p) as Hp;
    destruct (parseInt_digits (Pos.to_uint p) Hn) as [Hplus Hminus];
    cbn [Z.to_int DecimalString.NilZero.string_of_int];
    rewrite (string_of_uint_nonnil _ Hn).
  - rewrite Hplus, (read_digits_uint_first _ Hn), Hp. reflexivity.
  - rewrite Hminus, (read_digits_uint_first _ Hn), Hp. reflexivity.
Qed.

(** White space before the number, also outside ASCII (here U+00A0 and
    U+FEFF), a sign, a hexadecimal prefix, trailing text; beyond 2^53 the
    nearest double. *)
Lemma parseInt_examples :
  parseInt "42" = JsFinite 42
  /\ parseInt "  -17" = JsFinite (-17)
  /\ parseInt "12abc" = JsFinite 12
  /\ parseInt "0x1f" = JsFinite 31
  /\ parseInt "h3" = JsNaN
  /\ parseInt "" = JsNaN
  /\ parseInt (String (ascii_of_nat 194) (String (ascii_of_nat 160) "2"))
     = JsFinite 2
  /\ parseInt (String (ascii_of_nat 239) (String (ascii_of_nat 187)
                 (String (ascii_of_nat 191) "7"))) = JsFinite 7
  /\ parseInt "9007199254740993" = JsFinite 9007199254740992
  /\ parseInt "99999999999999999999999" = JsFinite 99999999999999991611392.
Proof. repeat split; vm_compute; reflexivity. Qed.

(** The text of a number as the driver sends it. *)
Lemma Number_toString_examples :
  Number_toString (JsFinite 42) = "42"
  /\ Number_toString (JsFinite (-17)) = "-17"
  /\ Number_toString (JsFinite (2 ^ 60)) = "1152921504606847000"
  /\ Number_toString (JsFinite (2 ^ 63)) = "9223372036854776000"
  /\ Number_toString (JsFinite (2 ^ 70)) = "1.1805916207174113e+21"
  /\ Number_toString (JsFinite 99999999999999991611392) = "1e+23"
  /\ Number_toString (JsInfinity false) = "Infinity".
Proof. repeat split; vm_compute; reflexivity. Qed.

(** ** Search *)

Lemma tx_by_id_none (db : Store) (term : string) :
  (forall t, In t (transactions db) -> txid t <> term) ->
  tx_by_id db term = None.
Proof.
  intros H. unfold tx_by_id.
  destruct (find _ (transactions db)) as [t|] eqn:F; [|reflexivity].
  apply find_some in F. destruct F as [Hin Heq].
  apply String.eqb_eq in Heq. destruct (H t Hin Heq).
Qed.

Lemma block_by_hash_none (db : Store) (term : string) :
  (forall b, In b (blocks db) -> hash b <> term) ->
  block_by_hash db term = None.
Proof.
  intros H. unfold block_by_hash.
  destruct (find _ (blocks db)) as [b|] eqn:F; [|reflexivity].
  apply find_some in F. destruct F as [Hin Heq].
  apply String.eqb_eq in Heq. destruct (H b Hin Heq).
Qed.

Lemma block_by_height_none (db : Store) (h : Z) :
  (forall b, In b (blocks db) -> height b <> h) ->
  block_by_height db h = None.
Proof.
  intros H. unfold block_by_height.
  destruct (find _ (blocks db)) as [b|] eqn:F; [|reflexivity].
  apply find_some in F. destruct F as [Hin Heq].
  apply Z.eqb_eq in Heq. destruct (H b Hin Heq).
Qed.

Lemma find_found (A : Type) (p : A -> bool) (l : list A) (x : A) :
  In x l -> p x = true -> exists y, find p l = Some y.
Proof.
  intros Hin Hp. destruct (find p l) as [y|] eqn:F; [eauto|].
  rewrite (find_none p l F x Hin) in Hp. discriminate.
Qed.

Lemma pool_query_answers (A : Type) (P : Pool) (k : nat) (rows : A) :
  pool_rejects P k = false -> pool_query P k true rows = Some rows.
Proof. intros H. unfold pool_query. rewrite H. reflexivity. Qed.

Lemma pool_query_rejected (A : Type) (P : Pool) (k : nat) (accepted : bool)
  (rows : A) :
  pool_rejects P k = true \/ accepted = false ->
  pool_query P k accepted rows = None.
Proof.
  intros [H|H]; unfold pool_query; rewrite H;
    [reflexivity | rewrite orb_true_r; reflexivity].
Qed.

(** The search once the two text queries found nothing: the third query
    and its outcomes. *)
Lemma search_by_height (P : Pool) (db : Store) (term : string) :
  pool_rejects P 0 = false -> pool_rejects P 1 = false ->
  text_in term = true ->
  tx_by_id db term = None -> block_by_hash db term = None ->
  search P db term
  = if isNaN (parseInt term) then NotFound
    else
      match height_param (height_type P) (parseInt term) with
      | None => ServerError
      | Some h =>
          match pool_query P 2 true (block_by_height db h) with
          | None => ServerError
          | Some (Some b) => FoundBlock b
          | Some None => NotFound
          end
      end.
Proof.
  intros R0 R1 T X B. unfold search.
  rewrite T, X, B, !pool_query_answers by assumption. reflexivity.
Qed.

(** The handler on the sample database: a transaction id, a block hash,
    a height, a height after the white space U+00A0, terms that match
    nothing, and a hash whose query the database fails to answer. *)
Example search_examples :
  search (answering integer) sample_db "a"
  = FoundTransaction {| txid := "a"; block_height := 2; data := "{}";
                        status := 0; bitcoin_txids := [] |}
  /\ search (answering integer) sample_db "h2"
     = FoundBlock {| height := 2; hash := "h2"; timestamp := 20;
                     bitcoin_block_height := 7 |}
  /\ search (answering integer) sample_db "3"
     = FoundBlock {| height := 3; hash := "stale"; timestamp := 29;
                     bitcoin_block_height := 7 |}
  /\ search (answering integer) sample_db
       (String (ascii_of_nat 194) (String (ascii_of_nat 160) "2"))
     = FoundBlock {| height := 2; hash := "h2"; timestamp := 20;
                     bitcoin_block_height := 7 |}
  /\ search (answering integer) sample_db "7" = NotFound
  /\ search (answering integer) sample_db "nothing" = NotFound
  /\ search {| height_type := integer; pool_rejects := Nat.eqb 1 |}
       sample_db "h2" = ServerError.
Proof. repeat split; vm_compute; reflexivity. Qed.

(** C9, as stated, fails: the term 99999999999999999999999 is no stored
    transaction id and no stored block hash, and no stored block has the
    height it parses to, yet the answer is 500 and not 404. [parseInt]
    gives a number that is sent as the text [1e+23], which the database
    refuses for an integer column of any width; a term within the doubles
    that print without exponent is refused as well when it is out of the
    column's range. *)
Lemma search_refused_height_is_500 :
  parseInt "99999999999999999999999" = JsFinite 99999999999999991611392
  /\ Number_toString (parseInt "99999999999999999999999") = "1e+23"
  /\ (forall ty,
        search (answering ty) sample_db "99999999999999999999999"
        = ServerError)
  /\ search (answering integer) sample_db "3000000000" = ServerError
  /\ search (answering bigint) sample_db "3000000000" = NotFound
  /\ ~ (forall P db term,
          (forall k, pool_rejects P k = false) ->
          (forall t, In t (transactions db) -> txid t <> term) ->
          (forall b, In b (blocks db) -> hash b <> term) ->
          (forall b h, In b (blocks db) -> parseInt term = JsFinite h ->
                       height b <> h) ->
          search P db term = NotFound).
Proof.
  assert (forall ty,
            search (answering ty) sample_db "99999999999999999999999"
            = ServerError) as E
    by (intros ty; destruct ty; vm_compute; reflexivity).
  split; [vm_compute; reflexivity|]. split; [vm_compute; reflexivity|].
  split; [exact E|]. split; [vm_compute; reflexivity|].
  split; [vm_compute; reflexivity|]. intros H.
  specialize (H (answering bigint) sample_db "99999999999999999999999").
  rewrite E in H. discriminate H.
  - reflexivity.
  - intros t [<-|[]]. discriminate.
  - intros b [<-|[<-|[]]]; discriminate.
  - intros b h Hin Hp. vm_compute in Hp. injection Hp as <-.
    destruct Hin as [<-|[<-|[]]]; discriminate.
Qed.

(** C9, amended — [/api/search] resolves a term by fixed precedence, and
    answers 500 when a query of its own is refused. A term holding the
    character U+0000, or a database that fails to answer, gives 500.
    Otherwise, if the term is the id of a stored transaction the answer
    is a transaction with that id, whatever block hashes or heights it
    also matches; otherwise, if it is the hash of a stored block, the
    answer is a block with that hash; otherwise, if [parseInt] gives
    [NaN] the answer is 404; otherwise the number is sent to the
    database, and the answer is 500 when the database refuses it as a
    height, a block of that height when one is stored, and 404 when none
    is. The height the database reads is the integer that the text of the
    number denotes, which is the number itself up to 2^53, and it is
    refused when the type of the column cannot take it; an infinite
    number is always refused. *)
Theorem search_precedence (P : Pool) (db : Store) (term : string) :
  (pool_rejects P 0 = true \/ text_in term = false ->
     search P db term = ServerError)
  /\ (pool_rejects P 0 = false -> text_in term = true ->
      (forall t, In t (transactions db) -> txid t = term ->
         exists t', search P db term = FoundTransaction t'
                    /\ In t' (transactions db) /\ txid t' = term)
      /\ ((forall t, In t (transactions db) -> txid t <> term) ->
          (pool_rejects P 1 = true -> search P db term = ServerError)
          /\ (pool_rejects P 1 = false ->
              (forall b, In b (blocks db) -> hash b = term ->
                 exists b', search P db term = FoundBlock b'
                            /\ In b' (blocks db) /\ hash b' = term)
              /\ ((forall b, In b (blocks db) -> hash b <> term) ->
                  (parseInt term = JsNaN -> search P db term = NotFound)
                  /\ (parseInt term <> JsNaN ->
                      (height_param (height_type P) (parseInt term) = None ->
                         search P db term = ServerError)
                      /\ (forall h,
                            height_param (height_type P) (parseInt term)
                            = Some h ->
                            (pool_rejects P 2 = true ->
                               search P db term = ServerError)
                            /\ (pool_rejects P 2 = false ->
                                (forall b, In b (blocks db) -> height b = h ->
                                   exists b',
                                     search P db term = FoundBlock b'
                                     /\ In b' (blocks db) /\ height b' = h)
                                /\ ((forall b, In b (blocks db) ->
                                               height b <> h) ->
                                    search P db term = NotFound))))))))
  /\ (forall x, parseInt term = JsFinite x ->
        height_param (height_type P) (parseInt term)
        = (if in_range (height_type P) (printed x)
           then Some (printed x) else None)
        /\ (Z.abs x < 2 ^ 53 -> printed x = x))
  /\ (forall negative, parseInt term = JsInfinity negative ->
        height_param (height_type P) (parseInt term) = None).
Proof.
  split; [|split; [|split]].
  - intros H. unfold search.
    rewrite (pool_query_rejected _ P 0 (text_in term)); [reflexivity|].
    destruct H as [H|H]; [left | right]; exact H.
  - intros R0 T. split.
    + intros t Hin Hid. unfold search.
      destruct (find_found _ (fun t => String.eqb (txid t) term) _ t Hin)
        as [t' F]; [apply String.eqb_eq, Hid|].
      rewrite T, pool_query_answers by exact R0.
      unfold tx_by_id. rewrite F. exists t'. split; [reflexivity|].
      apply find_some in F. destruct F as [Hin' Heq].
      apply String.eqb_eq in Heq. auto.
    + intros Hnotx. pose proof (tx_by_id_none db term Hnotx) as X. split.
      * intros R1. unfold search.
        rewrite T, pool_query_answers, X by exact R0.
        rewrite (pool_query_rejected _ P 1 true); [reflexivity|].
        left. exact R1.
      * intros R1. split.
        -- intros b Hin Hh. unfold search.
           rewrite T, !pool_query_answers, X by assumption.
           destruct (find_found _ (fun b => String.eqb (hash b) term) _ b Hin)
             as [b' F]; [apply String.eqb_eq, Hh|].
           unfold block_by_hash. rewrite F. exists b'. split; [reflexivity|].
           apply find_some in F. destruct F as [Hin' Heq].
           apply String.eqb_eq in Heq. auto.
        -- intros Hnohash.
           pose proof (block_by_hash_none db term Hnohash) as B.
           rewrite (search_by_height P db term R0 R1 T X B). split.
           ++ intros N. rewrite N. reflexivity.
           ++ intros N.
              assert (isNaN (parseInt term) = false) as ->
                by (destruct (parseInt term); [congruence | reflexivity ..]).
              split.
              ** intros Hp. rewrite Hp. reflexivity.
              ** intros h Hp. rewrite Hp. split.
                 --- intros R2.
                     rewrite (pool_query_rejected _ P 2 true); [reflexivity|].
                     left. exact R2.
                 --- intros R2. rewrite pool_query_answers by exact R2. split.
                     +++ intros b Hin Hh.
                         destruct (find_found _ (fun b => height b =? h) _ b Hin)
                           as [b' F]; [apply Z.eqb_eq, Hh|].
                         unfold block_by_height. rewrite F. exists b'.
                         split; [reflexivity|].
                         apply find_some in F. destruct F as [Hin' Heq].
                         apply Z.eqb_eq in Heq. auto.
                     +++ intros Hnone.
                         rewrite (block_by_height_none db h Hnone). reflexivity.
  - intros x Hx. rewrite Hx. split; [apply height_param_finite|].
    apply printed_small.
  - intros negative Hx. rewrite Hx. apply height_param_infinite.
Qed.

(** ** Listings *)

Section OrderBy.
Variables (A : Type) (key : A -> Z).

Lemma insert_desc_perm (x : A) (l : list A) :
  Permutation (x :: l) (insert_desc key x l).
Proof.
  induction l as [|y l IH]; simpl; [reflexivity|].
  destruct (key y <? key x); [reflexivity|].
  rewrite perm_swap. constructor. exact IH.
Qed.

Lemma order_by_desc_perm (rows : list A) :
  Permutation rows (order_by_desc key rows).
Proof.
  induction rows as [|r rows IH]; simpl; [constructor|].
  rewrite <- insert_desc_perm. constructor. exact IH.
Qed.

Lemma insert_desc_sorted (x : A) (l : list A) :
  StronglySorted (desc key) l -> StronglySorted (desc key) (insert_desc key x l).
Proof.
  induction 1 as [|y l Hs IH Hy]; simpl.
  - repeat constructor.
  - destruct (key y <? key x) eqn:G.
    + apply Z.ltb_lt in G. constructor; [constructor; assumption|].
      constructor; [unfold desc; lia|].
      eapply Forall_impl; [|exact Hy]. unfold desc. simpl. intros z Hz. lia.
    + apply Z.ltb_ge in G. constructor; [exact IH|].
      apply (Permutation_Forall (insert_desc_perm x l)).
      constructor; [unfold desc; lia | exact Hy].
Qed.

Lemma order_by_desc_sorted (rows : list A) :
  StronglySorted (desc key) (order_by_desc key rows).
Proof.
  induction rows as [|r rows IH]; simpl; [constructor|].
  apply insert_desc_sorted, IH.
Qed.

Lemma sorted_split (l1 l2 : list A) :
  StronglySorted (desc key) (l1 ++ l2) ->
  StronglySorted (desc key) l1
  /\ forall x y, In x l1 -> In y l2 -> key y <= key x.
Proof.
  induction l1 as [|a l1 IH]; simpl; intros H.
  - split; [constructor | contradiction].
  - inversion H as [|a' l' Hs Ha]; subst.
    destruct (IH Hs) as [Hs1 Hcross].
    apply Forall_app in Ha. destruct Ha as [Ha1 Ha2]. split.
    + constructor; assumption.
    + intros x y [<-|Hx] Hy.
      * rewrite Forall_forall in Ha2. apply (Ha2 y Hy).
      * apply Hcross; assumption.
Qed.

(** [ORDER BY key DESC LIMIT n]: the [n] first rows at most, in descending
    order, and no row left out has a larger key than a row returned. *)
Lemma order_limit_spec (n : nat) (rows : list A) :
  length (firstn n (order_by_desc key rows)) = Nat.min n (length rows)
  /\ StronglySorted (desc key) (firstn n (order_by_desc key rows))
  /\ exists rest,
       Permutation rows (firstn n (order_by_desc key rows) ++ rest)
       /\ forall r r', In r (firstn n (order_by_desc key rows)) ->
                       In r' rest -> key r' <= key r.
Proof.
  pose proof (order_by_desc_perm rows) as P.
  pose proof (order_by_desc_sorted rows) as S.
  rewrite <- (firstn_skipn n (order_by_desc key rows)) in S.
  destruct (sorted_split _ _ S) as [S1 Hcross].
  split; [|split].
  - rewrite length_firstn, (Permutation_length P). reflexivity.
  - exact S1.
  - exists (skipn n (order_by_desc key rows)). split; [|exact Hcross].
    rewrite firstn_skipn. exact P.
Qed.
End OrderBy.

(** C10 — The listing endpoints are bounded. For every store,
    [/api/blocks] returns at most 200 rows (all of them when fewer are
    stored), in descending order of height, and they are the highest
    stored rows; [/api/transactions] returns at most 20 rows, in
    descending order of block height, and they are the rows of the highest
    block heights. *)
Theorem listings_bounded (db : Store) :
  ((length (get_blocks db) <= 200)%nat
   /\ length (get_blocks db) = Nat.min 200 (length (blocks db))
   /\ StronglySorted (desc height) (get_blocks db)
   /\ exists rest,
        Permutation (blocks db) (get_blocks db ++ rest)
        /\ forall r r', In r (get_blocks db) -> In r' rest ->
                        height r' <= height r)
  /\ ((length (get_transactions db) <= 20)%nat
      /\ length (get_transactions db) = Nat.min 20 (length (transactions db))
      /\ StronglySorted (desc block_height) (get_transactions db)
      /\ exists rest,
           Permutation (transactions db) (get_transactions db ++ rest)
           /\ forall r r', In r (get_transactions db) -> In r' rest ->
                           block_height r' <= block_height r).
Proof.
  unfold get_blocks, get_transactions. split.
  - destruct (order_limit_spec _ height 200 (blocks db)) as [L [S R]].
    split; [rewrite L; apply Nat.le_min_l|]. auto.
  - destruct (order_limit_spec _ block_height 20 (transactions db)) as [L [S R]].
    split; [rewrite L; apply Nat.le_min_l|]. auto.
Qed.

(* ===================================================================== *)
(** * Further properties of the code *)
(* ===================================================================== *)

(** ** Windows cover the heights of a round without gap or overlap *)

Lemma heights_empty (a b : Z) : b < a -> heights (a, b) = [].
Proof.
  intros H. unfold heights. simpl.
  replace (Z.to_nat (b - a + 1)) with 0%nat by lia. reflexivity.
Qed.

Lemma map_seq_from (m : nat) :
  forall (a : Z) (n : nat),
  map (fun k => a + Z.of_nat k) (seq n m)
  = map (fun k => a + Z.of_nat n + Z.of_nat k) (seq 0 m).
Proof.
  induction m as [|m IH]; intros a n; simpl; [reflexivity|].
  f_equal; [lia|].
  rewrite (IH a (S n)), (IH (a + Z.of_nat n) 1%nat).
  apply map_ext. intros k. lia.
Qed.

Lemma heights_app (a b c : Z) :
  a <= b + 1 -> b <= c ->
  heights (a, b) ++ heights (b + 1, c) = heights (a, c).
Proof.
  intros Hab Hbc. unfold heights. cbn [fst snd].
  replace (Z.to_nat (c - a + 1))
    with (Z.to_nat (b - a + 1) + Z.to_nat (c - (b + 1) + 1))%nat by lia.
  rewrite seq_app, map_app. f_equal.
  rewrite (map_seq_from _ a (0 + Z.to_nat (b - a + 1))).
  apply map_ext. intros k. lia.
Qed.

Lemma launch_cover (n : nat) (cur latest : Z) :
  forall i, 0 <= i ->
  flat_map heights (launch n i cur latest)
  = heights (cur + i * BATCH_SIZE,
             Z.min (cur + i * BATCH_SIZE + Z.of_nat n * BATCH_SIZE - 1) latest).
Proof.
  unfold BATCH_SIZE.
  induction n as [|n IH]; intros i Hi.
  - simpl. symmetry. apply heights_empty. lia.
  - cbn [launch]. unfold BATCH_SIZE.
    destruct (cur + i * 100 >? latest) eqn:G.
    + simpl. symmetry. apply heights_empty. lia.
    + cbn [flat_map]. rewrite (IH (i + 1)) by lia.
      destruct (Z_le_gt_dec latest (cur + i * 100 + 99)) as [Hshort|Hlong].
      * rewrite (heights_empty (cur + (i + 1) * 100)) by lia.
        rewrite app_nil_r. f_equal. f_equal. lia.
      * replace (Z.min (cur + i * 100 + 100 - 1) latest)
          with (cur + i * 100 + 99) by lia.
        replace (cur + (i + 1) * 100) with (cur + i * 100 + 99 + 1) by lia.
        rewrite heights_app by lia. f_equal. f_equal. lia.
Qed.

Lemma heights_NoDup (w : Z * Z) : NoDup (heights w).
Proof.
  unfold heights. apply Finite.Injective_map_NoDup; [|apply seq_NoDup].
  intros x y H. lia.
Qed.

(** X1 — The windows of a round partition its range: listed in launch
    order, the heights handed to [processBlock] are exactly the heights
    from the frontier up to the smaller of frontier + 499 and the chain
    height, each once and in increasing order. *)
Theorem round_heights_cover (cur latest : Z) :
  round_heights cur latest = heights (cur, Z.min (cur + 499) latest)
  /\ NoDup (round_heights cur latest)
  /\ (forall h, In h (round_heights cur latest)
                <-> cur <= h <= Z.min (cur + 499) latest).
Proof.
  assert (round_heights cur latest = heights (cur, Z.min (cur + 499) latest)) as E.
  { unfold round_heights, windows, CONCURRENT_BATCHES.
    rewrite (launch_cover 5 cur latest 0) by lia.
    unfold BATCH_SIZE. f_equal. f_equal; lia. }
  split; [exact E|]. rewrite E. split; [apply heights_NoDup|].
  intros h. apply In_heights.
Qed.

(** ** What a fulfilled round guarantees *)

Lemma windows_heights_all (processed : Z -> bool) (cur latest : Z) :
  forallb (batch_fulfils processed) (windows cur latest) = true
  <-> forall h, cur <= h <= Z.min (cur + 499) latest -> processed h = true.
Proof.
  destruct (round_heights_cover cur latest) as [_ [_ Hin]].
  unfold round_heights in Hin. split.
  - intros H h Hh. apply Hin in Hh. apply in_flat_map in Hh.
    destruct Hh as [w [Hw Hh]]. rewrite forallb_forall in H.
    specialize (H w Hw). unfold batch_fulfils in H.
    rewrite forallb_forall in H. apply H, Hh.
  - intros H. apply forallb_forall. intros w Hw.
    unfold batch_fulfils. apply forallb_forall. intros h Hh.
    apply H, Hin, in_flat_map. exists w. split; assumption.
Qed.

Lemma windows_max_end (cur latest : Z) :
  cur <= latest ->
  Math_max (map snd (windows cur latest)) = Some (Z.min (cur + 499) latest).
Proof.
  intros Hle.
  destruct (windows_first cur latest Hle) as [rest Hw].
  destruct (Math_max_some (map snd (windows cur latest))) as [m M].
  { rewrite Hw. discriminate. }
  rewrite M. f_equal.
  destruct (Math_max_spec _ m M) as [Hin Hmax].
  destruct (round_heights_cover cur latest) as [_ [_ Hcover]].
  apply Z.le_antisymm.
  - apply in_map_iff in Hin. destruct Hin as [w [<- Hw']].
    pose proof (windows_bounds cur latest w Hw') as Hb.
    assert (In (snd w) (round_heights cur latest)) as Hs.
    { unfold round_heights. apply in_flat_map. exists w. split; [exact Hw'|].
      apply In_heights. lia. }
    apply Hcover in Hs. lia.
  - assert (In (Z.min (cur + 499) latest) (round_heights cur latest)) as Hs
      by (apply Hcover; lia).
    unfold round_heights in Hs. apply in_flat_map in Hs.
    destruct Hs as [w [Hw' Hh]]. apply In_heights in Hh.
    specialize (Hmax (snd w) (in_map snd _ w Hw')). lia.
Qed.

(** X2 — A round moves the frontier only over heights it has stored: when
    a round started at a frontier not above the chain height assigns
    [next], then [next] is the smaller of frontier + 500 and chain height
    + 1, and [processBlock] fulfilled for every height from the old
    frontier up to [next - 1]; conversely, a rejected [processBlock] at any
    such height makes the round reject. *)
Theorem round_advances_over_stored (processed : Z -> bool) (cur latest : Z) :
  cur <= latest ->
  (forall next, round processed cur latest = Some next ->
     next = Z.min (cur + 500) (latest + 1)
     /\ forall h, cur <= h < next -> processed h = true)
  /\ (forall h, cur <= h < Z.min (cur + 500) (latest + 1) ->
        processed h = false -> round processed cur latest = None).
Proof.
  intros Hle. split.
  - intros next R.
    destruct (round_some processed cur latest next Hle R) as [M _].
    rewrite (windows_max_end cur latest Hle) in M.
    assert (next = Z.min (cur + 500) (latest + 1)) as -> by (injection M; lia).
    split; [reflexivity|]. intros h Hh.
    unfold round in R.
    destruct (forallb (batch_fulfils processed) (windows cur latest)) eqn:A;
      [|discriminate].
    apply (proj1 (windows_heights_all processed cur latest) A). lia.
  - intros h Hh Hp. apply round_rejects.
    destruct (forallb (batch_fulfils processed) (windows cur latest)) eqn:A;
      [|reflexivity].
    rewrite (proj1 (windows_heights_all processed cur latest) A h) in Hp
      by lia.
    discriminate.
Qed.

Lemma round_advances_over_stored_witness :
  round (fun h => negb (h =? 150)) 0 249 = None.
Proof.
  apply (proj2 (round_advances_over_stored (fun h => negb (h =? 150)) 0 249
                  ltac:(lia)) 150); [lia | reflexivity].
Defined.

(** ** Where a pass ends *)

Lemma catch_up_upper (rounds : list (Z -> bool)) (latest : Z) :
  forall cur h events exited,
  cur <= latest + 1 ->
  catch_up rounds cur latest = (h, events, exited) ->
  h <= latest + 1.
Proof.
  induction rounds as [|processed rounds IH]; intros cur h events exited Hc; simpl.
  - destruct (cur <=? latest); intros H; injection H as <- <- <-; exact Hc.
  - destruct (cur <=? latest) eqn:G.
    + apply Z.leb_le in G.
      destruct (round processed cur latest) as [next|] eqn:R.
      * destruct (catch_up rounds next latest) as [[h' ev'] x'] eqn:C.
        intros H. injection H as <- <- <-.
        apply (IH next h' ev' x'); [|exact C].
        destruct (round_some processed cur latest next G R) as [_ Hn]. lia.
      * destruct (catch_up rounds cur latest) as [[h' ev'] x'] eqn:C.
        intros H. injection H as <- <- <-.
        apply (IH cur h' ev' x'); [exact Hc | exact C].
    + intros H. injection H as <- <- <-. exact Hc.
Qed.

(** X3 — A pass that starts at a frontier not above the chain height and
    comes to re-arm its timer ends with the frontier at exactly chain
    height + 1; [/api/sync-status], asked against the same chain height,
    then reports a [currentBlockHeight] one above [latestBlockHeight] and
    [isSynced] true. *)
Theorem pass_ends_one_past_chain (p : Pass) (cur latest h : Z)
    (events : list Event) :
  answer p = Ready latest ->
  cur <= latest ->
  syncBlocks p cur = (h, events, true) ->
  h = latest + 1
  /\ status_currentBlockHeight (sync_status h latest)
     = status_latestBlockHeight (sync_status h latest) + 1
  /\ isSynced (sync_status h latest) = true.
Proof.
  intros Ha Hle. unfold syncBlocks. rewrite Ha.
  destruct (catch_up (rounds_of p) cur latest) as [[h' ev'] x'] eqn:C.
  destruct (catch_up_climbs _ _ _ _ _ _ C) as [_ Hx].
  assert (h' <= latest + 1) as Hu
    by (apply (catch_up_upper (rounds_of p) latest cur h' ev' x');
        [lia | exact C]).
  destruct x'; intros H; [|discriminate]. injection H as <- _.
  specialize (Hx eq_refl).
  assert (h' = latest + 1) as -> by lia.
  repeat split. simpl. apply Z.geb_le. lia.
Qed.

Lemma pass_ends_one_past_chain_witness :
  fst (fst (syncBlocks sample_pass 0)) = 249 + 1.
Proof.
  exact (proj1 (pass_ends_one_past_chain sample_pass 0 249 _ _
                  eq_refl ltac:(lia) eq_refl)).
Defined.

(** X4 — Catching up terminates when rounds stop failing: if every listed
    round processes every height between the frontier and the chain
    height, and there are at least as many rounds as 500-height steps in
    that range, the loop is left with the frontier at chain height + 1
    (or where it was, if it was already above), having only assigned the
    frontier, without a sleep. *)
Theorem catch_up_completes (rounds : list (Z -> bool)) (latest : Z) :
  forall cur,
  (forall processed h, In processed rounds -> cur <= h <= latest ->
                       processed h = true) ->
  latest - cur + 1 <= 500 * Z.of_nat (length rounds) ->
  fst (fst (catch_up rounds cur latest)) = Z.max cur (latest + 1)
  /\ snd (catch_up rounds cur latest) = true
  /\ Forall (fun e => exists n, e = Assign n)
            (snd (fst (catch_up rounds cur latest))).
Proof.
  induction rounds as [|processed rounds IH]; intros cur Hall Hlen.
  - simpl in *. destruct (cur <=? latest) eqn:G.
    + apply Z.leb_le in G. lia.
    + apply Z.leb_gt in G. simpl. repeat split; [lia | constructor].
  - cbn [catch_up]. destruct (cur <=? latest) eqn:G.
    + apply Z.leb_le in G.
      assert (round processed cur latest = Some (Z.min (cur + 500) (latest + 1)))
        as R.
      { destruct (round_fulfils processed cur latest G) as [m [M R]].
        - apply windows_heights_all. intros h Hh.
          apply (Hall processed h); [left; reflexivity | lia].
        - rewrite R. f_equal.
          rewrite (windows_max_end cur latest G) in M. injection M as <-. lia. }
      rewrite R.
      destruct (IH (Z.min (cur + 500) (latest + 1))) as [Hf [Hx He]].
      * intros q h Hq Hh. apply (Hall q h); [right; exact Hq | lia].
      * cbn [length] in Hlen. lia.
      * destruct (catch_up rounds (Z.min (cur + 500) (latest + 1)) latest)
          as [[h' ev'] x']. simpl in *.
        repeat split; [lia | exact Hx |].
        constructor; [eauto | exact He].
    + apply Z.leb_gt in G. simpl. repeat split; [lia | constructor].
Qed.

Lemma catch_up_completes_witness :
  fst (fst (catch_up [fun _ => true; fun _ => true] 0 600)) = Z.max 0 (600 + 1).
Proof.
  apply (catch_up_completes [fun _ => true; fun _ => true] 600 0).
  - intros processed h [<-|[<-|[]]] _; reflexivity.
  - simpl. lia.
Defined.

(** X5 — While the node is not ready, or its calls reject, nothing moves:
    a run of such passes leaves the frontier where it was and does nothing
    but re-arm the timer with 5000 ms, once per pass. *)
Theorem idle_passes (passes : list Pass) (cur : Z) :
  (forall p, In p passes -> answer p = NotReady \/ answer p = CallRejected) ->
  run_passes passes cur
  = (cur, repeat (SetTimeout 5000) (length passes)).
Proof.
  induction passes as [|p passes IH]; intros Hidle; simpl; [reflexivity|].
  assert (syncBlocks p cur = (cur, [SetTimeout 5000], true)) as ->.
  { unfold syncBlocks.
    destruct (Hidle p (or_introl eq_refl)) as [-> | ->]; reflexivity. }
  rewrite IH by (intros q Hq; apply Hidle; right; exact Hq).
  reflexivity.
Qed.

Lemma idle_passes_witness :
  run_passes [ {| answer := NotReady; rounds_of := [] |};
               {| answer := CallRejected; rounds_of := [] |} ] 7
  = (7, [SetTimeout 5000; SetTimeout 5000]).
Proof.
  refine (idle_passes [ {| answer := NotReady; rounds_of := [] |};
                        {| answer := CallRejected; rounds_of := [] |} ] 7 _).
  intros p [<-|[<-|[]]]; auto.
Defined.

(** ** What [storeBlock] leaves alone *)

Section UpsertFrame.
Variables (A K : Type) (key : A -> K).
Variables (conflict : A -> A -> bool) (update : A -> A -> A).
Hypothesis conflict_spec :
  forall new old, conflict new old = true <-> key new = key old.
Hypothesis update_spec :
  forall new old, key new = key old -> update new old = new.

Lemma upsert_keeps_other (new x : A) (table : list A) :
  In x table -> key new <> key x -> In x (upsert conflict update new table).
Proof.
  intros Hin Hne. unfold upsert.
  destruct (existsb (conflict new) table).
  - apply in_map_iff. exists x. split; [|exact Hin].
    destruct (conflict new x) eqn:C; [|reflexivity].
    apply conflict_spec in C. contradiction.
  - apply in_or_app. left. exact Hin.
Qed.

Lemma upsert_keeps_keys (new : A) (table : list A) (k : K) :
  In k (map key table) -> In k (map key (upsert conflict update new table)).
Proof.
  rewrite (upsert_keys _ _ key _ _ conflict_spec update_spec).
  destruct (existsb (conflict new) table); [auto|].
  intros H. apply in_or_app. left. exact H.
Qed.
End UpsertFrame.

Lemma tx_writes_keep (rows : list TxRow) (s : Store) (t : TxRow) :
  In t (transactions s) ->
  (forall r, In r rows -> txid r <> txid t) ->
  In t (transactions (fold_left apply_write (map INSERT_TX rows) s)).
Proof.
  revert s. induction rows as [|r rows IH]; simpl; intros s Hin Hne; [exact Hin|].
  apply IH; [|intros r' Hr'; apply Hne; right; exact Hr'].
  simpl. apply (upsert_keeps_other _ _ txid _ _ same_txid_spec); [exact Hin|].
  apply Hne. left. reflexivity.
Qed.

Lemma tx_writes_keep_keys (rows : list TxRow) (s : Store) (k : string) :
  In k (map txid (transactions s)) ->
  In k (map txid (transactions (fold_left apply_write (map INSERT_TX rows) s))).
Proof.
  revert s. induction rows as [|r rows IH]; simpl; intros s Hin; [exact Hin|].
  apply IH. simpl.
  apply (upsert_keeps_keys _ _ txid _ _ same_txid_spec update_tx_spec), Hin.
Qed.

Lemma resolved_rows_ids (E : Env) (b : Block) (rows : list TxRow) :
  resolved_rows E b = Some rows ->
  forall r, In r rows -> In (txid r) (tx_ids b).
Proof.
  unfold resolved_rows.
  destruct (resolve_all E (tx_ids b)) as [results|] eqn:R; [|discriminate].
  intros H r Hr. injection H as <-.
  destruct (rows_for_in E b _ _ r R Hr) as [tx [_ [Hin _]]]. exact Hin.
Qed.

Lemma storeBlock_never_deletes_blocks (E : Env) (db db1 : Store) (b : Block) :
  storeBlock E db b = (Fulfilled tt, db1) ->
  (forall r, In r (blocks db) -> height r <> block_number b ->
     In r (blocks db1))
  /\ (forall r, In r (blocks db) -> In (height r) (map height (blocks db1))).
Proof.
  intros H.
  destruct (storeBlock_fulfilled_inv E db db1 b H) as [rows [R [_ [_ [_ ->]]]]].
  split.
  - intros r Hr Hne. rewrite writes_blocks. unfold insertBlock.
    apply (upsert_keeps_other _ _ height _ _ same_height_spec); [exact Hr|].
    simpl. congruence.
  - intros r Hr. rewrite writes_blocks. apply insertBlock_heights.
    left. apply in_map. exact Hr.
Qed.

(** X6 — [storeBlock] only inserts and overwrites, it never deletes:
    after a fulfilled call every height and every transaction id stored
    before is still stored, block rows of other heights and transaction
    rows whose id the block does not name are unchanged. In particular a
    transaction stored earlier under the block's height and absent from
    its new list is still listed by [/api/blocks/height/:height]. *)
Theorem storeBlock_never_deletes (E : Env) (db db1 : Store) (b : Block) :
  storeBlock E db b = (Fulfilled tt, db1) ->
  (forall r, In r (blocks db) -> In (height r) (map height (blocks db1)))
  /\ (forall t, In t (transactions db) ->
        In (txid t) (map txid (transactions db1)))
  /\ (forall r, In r (blocks db) -> height r <> block_number b ->
        In r (blocks db1))
  /\ (forall t, In t (transactions db) -> ~ In (txid t) (tx_ids b) ->
        In t (transactions db1))
  /\ (forall t d, In t (transactions db) ->
        block_height t = block_number b -> ~ In (txid t) (tx_ids b) ->
        get_block_by_height db1 (block_number b) = BlockJson d ->
        In (txid t) (detail_transactions d)).
Proof.
  intros H.
  destruct (storeBlock_fulfilled_inv E db db1 b H) as [rows [R [_ [_ [_ ->]]]]].
  assert (forall t, In t (transactions db) -> ~ In (txid t) (tx_ids b) ->
            In t (transactions (fold_left apply_write (writes b rows) db)))
    as Hkeep.
  { intros t Ht Hn. unfold writes. simpl. apply tx_writes_keep; [exact Ht|].
    intros r Hr Heq. apply Hn. rewrite <- Heq.
    apply (resolved_rows_ids E b rows R r Hr). }
  split; [|split; [|split; [|split]]].
  - intros r Hr. rewrite writes_blocks. apply insertBlock_heights.
    left. apply in_map. exact Hr.
  - intros t Ht. unfold writes. simpl. apply tx_writes_keep_keys.
    simpl. apply in_map. exact Ht.
  - intros r Hr Hne. rewrite writes_blocks. unfold insertBlock.
    apply (upsert_keeps_other _ _ height _ _ same_height_spec); [exact Hr|].
    simpl. congruence.
  - exact Hkeep.
  - intros t d Ht Hh Hn. unfold get_block_by_height.
    destruct (block_rows _ _) as [|r0 rest]; [discriminate|].
    intros Hd. injection Hd as <-. simpl.
    apply in_map. apply filter_In. split; [apply Hkeep; assumption|].
    apply Z.eqb_eq. exact Hh.
Qed.

Lemma storeBlock_never_deletes_witness :
  In "a" (map txid (transactions
                      (snd (storeBlock sample_env sample_db sample_block)))).
Proof.
  assert (storeBlock sample_env sample_db sample_block
          = (Fulfilled tt, snd (storeBlock sample_env sample_db sample_block)))
    as Hstore by exact eq_refl.
  destruct (storeBlock_never_deletes sample_env sample_db _ sample_block Hstore)
    as [_ [Hids _]].
  apply (Hids {| txid := "a"; block_height := 2; data := "{}"; status := 0;
                 bitcoin_txids := [] |}).
  left. reflexivity.
Defined.

(** ** Reading back what was stored *)

Lemma filter_none_of (A : Type) (p q : A -> bool) (l : list A) :
  (forall x, In x l -> p x = true -> q x = true) ->
  filter q l = [] -> filter p l = [].
Proof.
  induction l as [|x l IH]; simpl; intros Hpq Hq; [reflexivity|].
  destruct (q x) eqn:Q; [discriminate|].
  destruct (p x) eqn:P.
  - rewrite (Hpq x (or_introl eq_refl) P) in Q. discriminate.
  - apply IH; [|exact Hq]. intros y Hy. apply Hpq. right. exact Hy.
Qed.

Lemma filter_refine (A : Type) (p q : A -> bool) (l : list A) (r : A) :
  (forall x, In x l -> p x = true -> q x = true) ->
  filter q l = [r] -> p r = true -> filter p l = [r].
Proof.
  induction l as [|x l IH]; simpl; intros Hpq Hq Hr; [discriminate|].
  assert (forall y, In y l -> p y = true -> q y = true) as Hpq'
    by (intros y Hy; apply Hpq; right; exact Hy).
  destruct (q x) eqn:Q.
  - injection Hq as -> Hq. rewrite Hr. f_equal.
    apply (filter_none_of _ p q); assumption.
  - destruct (p x) eqn:P.
    + rewrite (Hpq x (or_introl eq_refl) P) in Q. discriminate.
    + apply IH; assumption.
Qed.

Lemma hash_free_rows (r : BlockRow) (table : list BlockRow) :
  hash_taken r table = false ->
  forall x, In x table -> String.eqb (hash x) (hash r) = true ->
  (height x =? height r) = true.
Proof.
  intros T x Hx Hh.
  destruct (height x =? height r) eqn:G; [reflexivity|].
  assert (hash_taken r table = true) as T'.
  { apply existsb_exists. exists x. split; [exact Hx|]. rewrite Hh, G. reflexivity. }
  congruence.
Qed.

(** X7 — What [storeBlock] stored can be read back. After a fulfilled call
    on a database whose primary keys hold, [/api/blocks/height/:height]
    with the block's height and [/api/blocks/:blockhash] with its hash give
    the same answer: the block row just bound, with every transaction id of
    the block among its transactions; and [/api/transactions/:txid]
    answers, for each of these ids, the row just bound for it. *)
Theorem stored_block_reads_back (E : Env) (db db1 : Store) (b : Block) :
  keys_unique db ->
  storeBlock E db b = (Fulfilled tt, db1) ->
  exists d,
    get_block_by_height db1 (block_number b) = BlockJson d
    /\ get_block_by_hash db1 (block_hash b) = BlockJson d
    /\ detail_block d = insertBlock_args b
    /\ (forall i, In i (tx_ids b) ->
          In i (detail_transactions d)
          /\ exists tx, getProcessedTransaction E i = Some tx
                        /\ get_transaction db1 i
                           = TxJson (insertTx_args b i tx)).
Proof.
  intros Hkeys H.
  destruct (storeBlock_rows E db db1 b Hkeys H) as [Hkeys1 [Hblock Htxs]].
  destruct (storeBlock_fulfilled_inv E db db1 b H) as [rows [R [_ [_ [T Hdb1]]]]].
  exists (block_detail db1 (insertBlock_args b) (block_number b)).
  split; [|split; [|split]].
  - unfold get_block_by_height. rewrite Hblock. reflexivity.
  - unfold get_block_by_hash.
    assert (filter (fun r => String.eqb (hash r) (block_hash b)) (blocks db1)
            = [insertBlock_args b]) as ->.
    { apply (filter_refine _ _ (fun r => height r =? block_number b)).
      - apply (hash_free_rows (insertBlock_args b)).
        rewrite Hdb1, writes_blocks, hash_taken_upsert. exact T.
      - exact Hblock.
      - simpl. apply String.eqb_refl. }
    reflexivity.
  - reflexivity.
  - intros i Hi. destruct (Htxs i Hi) as [tx [G Hrow]]. split.
    + simpl. apply in_map_iff. exists (insertTx_args b i tx).
      split; [reflexivity|]. apply filter_In. split.
      * unfold tx_rows in Hrow.
        assert (In (insertTx_args b i tx)
                   (filter (fun r => String.eqb (txid r) i) (transactions db1)))
          as Hin by (rewrite Hrow; left; reflexivity).
        apply filter_In in Hin. apply Hin.
      * simpl. apply Z.eqb_refl.
    + exists tx. split; [exact G|].
      unfold get_transaction. rewrite Hrow. reflexivity.
Qed.

Lemma stored_block_reads_back_witness :
  exists d,
    get_block_by_height (snd (storeBlock sample_env sample_db sample_block)) 3
    = BlockJson d
    /\ get_block_by_hash (snd (storeBlock sample_env sample_db sample_block)) "h3"
       = BlockJson d.
Proof.
  assert (keys_unique sample_db) as Hkeys
    by (split; simpl; repeat constructor; simpl; intuition discriminate).
  assert (storeBlock sample_env sample_db sample_block
          = (Fulfilled tt, snd (storeBlock sample_env sample_db sample_block)))
    as Hstore by exact eq_refl.
  destruct (stored_block_reads_back sample_env sample_db _ sample_block
              Hkeys Hstore) as [d [Hh [Hx _]]].
  exists d. split; [exact Hh | exact Hx].
Defined.

(** X8 — The two block endpoints agree: on a database whose block heights
    are unique, whenever [/api/blocks/:blockhash] answers a block, asking
    [/api/blocks/height/:height] for that block's height gives the same
    answer, previous hash and transaction list included. *)
Theorem block_endpoints_agree (db : Store) (blockhash : string) (d : BlockDetail) :
  NoDup (map height (blocks db)) ->
  get_block_by_hash db blockhash = BlockJson d ->
  get_block_by_height db (height (detail_block d)) = BlockJson d.
Proof.
  intros Hnd. unfold get_block_by_hash.
  destruct (filter _ (blocks db)) as [|r rest] eqn:F; [discriminate|].
  intros H. injection H as <-. simpl.
  assert (In r (blocks db)) as Hin.
  { assert (In r (filter (fun b => String.eqb (hash b) blockhash) (blocks db)))
      as Hf by (rewrite F; left; reflexivity).
    apply filter_In in Hf. apply Hf. }
  unfold get_block_by_height, block_rows.
  rewrite (settled_rows _ _ height (fun x => height x =? height r) r (blocks db));
    [reflexivity | | exact Hnd | exact Hin].
  intros x. apply Z.eqb_eq.
Qed.

Lemma block_endpoints_agree_witness :
  get_block_by_height sample_db 2
  = BlockJson (block_detail sample_db
                 {| height := 2; hash := "h2"; timestamp := 20;
                    bitcoin_block_height := 7 |} 2).
Proof.
  apply (block_endpoints_agree sample_db "h2"
           (block_detail sample_db
              {| height := 2; hash := "h2"; timestamp := 20;
                 bitcoin_block_height := 7 |} 2)).
  - simpl. repeat constructor; simpl; intuition discriminate.
  - reflexivity.
Defined.

Lemma find_head_filter (A : Type) (p : A -> bool) (l : list A) :
  find p l = hd_error (filter p l).
Proof.
  induction l as [|x l IH]; simpl; [reflexivity|].
  destruct (p x); [reflexivity | exact IH].
Qed.

(** X9 — Search agrees with the dedicated endpoints: a transaction answered
    by [/api/search] is the one [/api/transactions/:txid] answers for the
    same term, and a block answered by search is the block of the answer
    of [/api/blocks/:blockhash] for the term or, failing that, of
    [/api/blocks/height/:height] for the height that the database reads
    from the number [parseInt] gives; when search answers 404 the
    transaction and hash endpoints answer 404 for the term as well. *)
Theorem search_agrees_with_endpoints (P : Pool) (db : Store) (term : string) :
  (forall t, search P db term = FoundTransaction t ->
     get_transaction db term = TxJson t)
  /\ (forall b, search P db term = FoundBlock b ->
        get_block_by_hash db term = BlockJson (block_detail db b (height b))
        \/ (get_block_by_hash db term = BlockNotFound
            /\ exists h, height_param (height_type P) (parseInt term) = Some h
                         /\ get_block_by_height db h
                            = BlockJson (block_detail db b h)))
  /\ (search P db term = NotFound ->
        get_transaction db term = TxNotFound
        /\ get_block_by_hash db term = BlockNotFound).
Proof.
  unfold search, pool_query, tx_by_id, block_by_hash, block_by_height,
    get_transaction, get_block_by_hash, get_block_by_height, tx_rows, block_rows.
  rewrite !find_head_filter.
  destruct (pool_rejects P 0 || negb (text_in term));
    [repeat split; discriminate|].
  destruct (filter (fun t => String.eqb (txid t) term) (transactions db))
    as [|t0 ts]; simpl.
  - destruct (pool_rejects P 1 || negb (text_in term));
      [repeat split; discriminate|].
    destruct (filter (fun b => String.eqb (hash b) term) (blocks db))
      as [|b0 bs]; simpl.
    + destruct (isNaN (parseInt term));
        [repeat split; try discriminate; reflexivity|].
      destruct (height_param (height_type P) (parseInt term)) as [h|];
        [|repeat split; discriminate].
      destruct (pool_rejects P 2); simpl; [repeat split; discriminate|].
      rewrite find_head_filter.
      destruct (filter (fun b => height b =? h) (blocks db)) as [|b1 bs1] eqn:F;
        simpl.
      * repeat split; try discriminate.
      * split; [discriminate|]. split; [|discriminate].
        intros b H. injection H as <-. right. split; [reflexivity|].
        exists h. split; [reflexivity|]. rewrite F. reflexivity.
    + split; [discriminate|]. split; [|discriminate].
      intros b H. injection H as <-. left. reflexivity.
  - split; [|split; discriminate].
    intros t H. injection H as <-. reflexivity.
Qed.

(** ** Blocks without transactions *)

(** X10 — A block whose transaction list is missing or empty is stored
    without a look at the node: whatever the node would answer, the
    outcome is the same; when the call fulfils, the statements issued are
    exactly BEGIN, the block upsert and COMMIT, and the [transactions]
    table is the one before the call. *)
Theorem storeBlock_without_transactions (E : Env) (db : Store) (b : Block) :
  tx_ids b = [] ->
  (forall E', connect_rejects E' = connect_rejects E ->
              (forall k, query_rejects E' k = query_rejects E k) ->
              storeBlock E' db b = storeBlock E db b)
  /\ (forall db1, storeBlock E db b = (Fulfilled tt, db1) ->
        storeBlock_sent E db b
        = [BEGIN; INSERT_BLOCK (insertBlock_args b); COMMIT]
        /\ transactions db1 = transactions db
        /\ blocks db1 = insertBlock (insertBlock_args b) (blocks db)).
Proof.
  intros Hids.
  assert (forall E0, resolved_rows E0 b = Some []) as Hres
    by (intros E0; unfold resolved_rows; rewrite Hids; reflexivity).
  split.
  - intros E' Hc Hq. rewrite !storeBlock_eq_outcome. unfold storeBlock_outcome.
    rewrite !Hres, Hc. simpl. rewrite !Hq. reflexivity.
  - intros db1 H.
    destruct (storeBlock_sent_fulfilled E db db1 b H) as [rows [R Hsent]].
    destruct (storeBlock_fulfilled_inv E db db1 b H) as [rows' [R' [_ [_ [_ ->]]]]].
    rewrite Hres in R, R'. injection R as <-. injection R' as <-.
    split; [exact Hsent|]. split; reflexivity.
Qed.

Lemma storeBlock_without_transactions_witness :
  storeBlock_sent sample_env sample_db
    {| block_number := 5; block_hash := "h5"; block_timestamp := 50;
       block_bitcoin_height := 9; block_transactions := None |}
  = [BEGIN;
     INSERT_BLOCK {| height := 5; hash := "h5"; timestamp := 50;
                     bitcoin_block_height := 9 |};
     COMMIT].
Proof.
  apply (proj2 (storeBlock_without_transactions sample_env sample_db
                  {| block_number := 5; block_hash := "h5";
                     block_timestamp := 50; block_bitcoin_height := 9;
                     block_transactions := None |} eq_refl)
           (snd (storeBlock sample_env sample_db
                   {| block_number := 5; block_hash := "h5";
                      block_timestamp := 50; block_bitcoin_height := 9;
                      block_transactions := None |}))).
  exact eq_refl.
Defined.

(** ** [processBlock] *)

(** X11 — [processBlock] either does everything or nothing. When it
    rejects (no hash for the height, no block for the hash, or a rejected
    [storeBlock]), the database and the smoothed block time are exactly
    the ones before the call. When it fulfils on a database whose primary
    keys hold, the block it returns and the single row stored for the
    height carry the requested height and the hash the node gave for that
    height, whatever height and hash the fetched body carried. *)
Theorem processBlock_all_or_nothing (N : BlockSource) (E : Env) (h : Z)
    (blockTime : float) (st : Indexer) :
  (forall st', processBlock N E h blockTime st = (Rejected, st') -> st' = st)
  /\ (forall block st',
        processBlock N E h blockTime st = (Fulfilled block, st') ->
        keys_unique (database st) ->
        exists blockHash fetched,
          getBlockHash N h = Some blockHash
          /\ getBlock N blockHash = Some fetched
          /\ block_number block = h
          /\ block_hash block = blockHash
          /\ block_rows h (database st')
             = [ {| height := h; hash := blockHash;
                    timestamp := block_timestamp fetched;
                    bitcoin_block_height := block_bitcoin_height fetched |} ]).
Proof.
  unfold processBlock. split.
  - intros st'.
    destruct (getBlockHash N h) as [blockHash|]; [|congruence].
    destruct (getBlock N blockHash) as [fetched|]; [|congruence].
    destruct (storeBlock E (database st) _) as [[[]|] db] eqn:S; [discriminate|].
    intros H. injection H as <-.
    rewrite (storeBlock_rejected_inv _ _ _ _ S). destruct st. reflexivity.
  - intros block st'.
    destruct (getBlockHash N h) as [blockHash|] eqn:G1; [|discriminate].
    destruct (getBlock N blockHash) as [fetched|] eqn:G2; [|discriminate].
    destruct (storeBlock E (database st) _) as [[[]|] db] eqn:S; [|discriminate].
    intros H Hkeys. injection H as <- <-.
    exists blockHash, fetched.
    split; [reflexivity|]. split; [exact G2|].
    split; [reflexivity|]. split; [reflexivity|].
    destruct (storeBlock_rows _ _ _ _ Hkeys S) as [_ [Hrow _]]. exact Hrow.
Qed.

(** ** The listing after a store *)

Lemma sorted_head_max (A : Type) (key : A -> Z) (l : list A) (r : A) :
  In r l -> (forall x, In x l -> x = r \/ key x < key r) ->
  hd_error (order_by_desc key l) = Some r.
Proof.
  intros Hin Hmax.
  pose proof (order_by_desc_perm _ key l) as P.
  pose proof (order_by_desc_sorted _ key l) as S.
  destruct (order_by_desc key l) as [|x rest].
  - apply Permutation_sym, Permutation_nil in P. subst l. contradiction.
  - simpl. f_equal. inversion S as [|x' l' _ Hx]; subst.
    assert (In x l) as Hxl
      by (apply (Permutation_in _ (Permutation_sym P)); left; reflexivity).
    destruct (Hmax x Hxl) as [->|Hlt]; [reflexivity|].
    assert (In r (x :: rest)) as Hr by (apply (Permutation_in _ P), Hin).
    destruct Hr as [->|Hr]; [reflexivity|].
    rewrite Forall_forall in Hx. specialize (Hx r Hr). unfold desc in Hx. lia.
Qed.

(** X12 — The newest block comes first: after a fulfilled [storeBlock] of a
    block higher than every block stored before, the first row of
    [/api/blocks] is the row of that block. *)
Theorem newest_block_listed_first (E : Env) (db db1 : Store) (b : Block) :
  (forall r, In r (blocks db) -> height r < block_number b) ->
  storeBlock E db b = (Fulfilled tt, db1) ->
  hd_error (get_blocks db1) = Some (insertBlock_args b).
Proof.
  intros Hnew H.
  destruct (storeBlock_fulfilled_inv E db db1 b H) as [rows [R [_ [_ [_ Hdb1]]]]].
  assert (hd_error (order_by_desc height (blocks db1))
          = Some (insertBlock_args b)) as Hhd.
  { apply sorted_head_max.
    - rewrite Hdb1, writes_blocks.
      apply (upsert_settled _ _ height _ _ same_height_spec update_block_spec).
    - intros x Hx. rewrite Hdb1, writes_blocks in Hx.
      apply (upsert_in _ _ height _ _ same_height_spec update_block_spec) in Hx.
      destruct Hx as [Hx| ->]; [right; apply Hnew, Hx | left; reflexivity]. }
  unfold get_blocks.
  destruct (order_by_desc height (blocks db1)); [discriminate|exact Hhd].
Qed.

Lemma newest_block_listed_first_witness :
  hd_error (get_blocks (snd (storeBlock sample_env sample_db
              {| block_number := 5; block_hash := "h5"; block_timestamp := 50;
                 block_bitcoin_height := 9; block_transactions := None |})))
  = Some {| height := 5; hash := "h5"; timestamp := 50;
            bitcoin_block_height := 9 |}.
Proof.
  apply (newest_block_listed_first sample_env sample_db
           (snd (storeBlock sample_env sample_db
                   {| block_number := 5; block_hash := "h5";
                      block_timestamp := 50; block_bitcoin_height := 9;
                      block_transactions := None |}))
           {| block_number := 5; block_hash := "h5"; block_timestamp := 50;
              block_bitcoin_height := 9; block_transactions := None |}).
  - intros r [<-|[<-|[]]]; simpl; lia.
  - exact eq_refl.
Defined.

(** ** Restart after ingestion *)

Lemma Math_max_unique (l : list Z) (m : Z) :
  In m l -> (forall x, In x l -> x <= m) -> Math_max l = Some m.
Proof.
  intros Hin Hmax.
  destruct (Math_max_some l) as [m' M]; [destruct l; [contradiction|discriminate]|].
  destruct (Math_max_spec l m' M) as [Hin' Hmax'].
  rewrite M. f_equal. specialize (Hmax m' Hin'). specialize (Hmax' m Hin). lia.
Qed.

(** X13 — A restart resumes at the highest height ever stored: over
    non-negative heights, the start-up frontier after a fulfilled
    [storeBlock] is the larger of the start-up frontier before it and the
    height just stored. *)
Theorem startup_after_store (E : Env) (db db1 : Store) (b : Block) :
  (forall r, In r (blocks db) -> 0 <= height r) ->
  0 <= block_number b ->
  storeBlock E db b = (Fulfilled tt, db1) ->
  startup db1 = Z.max (startup db) (block_number b).
Proof.
  intros Hdb Hb H.
  destruct (storeBlock_fulfilled_inv E db db1 b H) as [rows [R [_ [_ [_ Hdb1]]]]].
  assert (forall k, In k (map height (blocks db1))
                    <-> In k (map height (blocks db)) \/ k = block_number b)
    as Hkeys.
  { intros k. rewrite Hdb1, writes_blocks. split.
    - intros Hk. apply in_map_iff in Hk. destruct Hk as [x [<- Hx]].
      apply (upsert_in _ _ height _ _ same_height_spec update_block_spec) in Hx.
      destruct Hx as [Hx| ->]; [left; apply in_map, Hx | right; reflexivity].
    - intros Hk. apply (insertBlock_heights (insertBlock_args b)). exact Hk. }
  apply startup_max.
  destruct (max_height (blocks db)) as [m|] eqn:M.
  - rewrite (startup_max db m M).
    destruct (Math_max_spec _ m M) as [Hin Hmax].
    apply Math_max_unique.
    + apply Hkeys. destruct (Z.max_spec m (block_number b)) as [[_ ->]|[_ ->]];
        [right; reflexivity | left; exact Hin].
    + intros x Hx. apply Hkeys in Hx. destruct Hx as [Hx| ->]; [|lia].
      specialize (Hmax x Hx). lia.
  - assert (blocks db = []) as Hnil.
    { unfold max_height in M. destruct (blocks db); [reflexivity|discriminate]. }
    assert (startup db = 0) as -> by (unfold startup; rewrite M; reflexivity).
    apply Math_max_unique.
    + apply Hkeys. right. lia.
    + intros x Hx. apply Hkeys in Hx. rewrite Hnil in Hx.
      destruct Hx as [[]| ->]. lia.
Qed.

Lemma startup_after_store_witness :
  startup (snd (storeBlock sample_env sample_db sample_block)) = Z.max 3 3.
Proof.
  apply (startup_after_store sample_env sample_db
           (snd (storeBlock sample_env sample_db sample_block)) sample_block).
  - intros r [<-|[<-|[]]]; simpl; lia.
  - simpl. lia.
  - exact eq_refl.
Defined.

(** ** [connectWithRetry] *)

Lemma connect_loop_gives_up (attempt : nat -> bool) (budget : nat) :
  forall retries,
  (forall k, (retries <= k < retries + budget)%nat -> attempt k = false) ->
  connect_loop attempt retries budget
  = (false, repeat (Sleep RETRY_DELAY) budget).
Proof.
  induction budget as [|budget IH]; intros retries Hfail; simpl; [reflexivity|].
  rewrite (Hfail retries) by lia.
  rewrite IH by (intros k Hk; apply Hfail; lia). reflexivity.
Qed.

Lemma connect_loop_connects (attempt : nat -> bool) (n : nat) :
  forall retries budget,
  (n < budget)%nat ->
  (forall k, (retries <= k < retries + n)%nat -> attempt k = false) ->
  attempt (retries + n)%nat = true ->
  connect_loop attempt retries budget = (true, repeat (Sleep RETRY_DELAY) n).
Proof.
  induction n as [|n IH]; intros retries budget Hn Hfail Hok.
  - destruct budget as [|budget]; [lia|]. simpl.
    rewrite Nat.add_0_r in Hok. rewrite Hok. reflexivity.
  - destruct budget as [|budget]; [lia|]. simpl.
    rewrite (Hfail retries) by lia.
    rewrite (IH (S retries) budget).
    + reflexivity.
    + lia.
    + intros k Hk. apply Hfail. lia.
    + replace (S retries + n)%nat with (retries + S n)%nat by lia. exact Hok.
Qed.

(** X14 — [connectWithRetry] tries at most 10 times. If the connection
    first succeeds at the attempt made after [n] failures, [n] below 10,
    it returns after exactly [n] sleeps of 5000 ms; if the first 10
    attempts all fail it exits the process, after 10 sleeps of 5000 ms
    (the last one following the last attempt), whatever later attempts
    would have given. *)
Theorem connectWithRetry_bounded (attempt : nat -> bool) :
  (forall n, (n < 10)%nat ->
     (forall k, (k < n)%nat -> attempt k = false) ->
     attempt n = true ->
     connectWithRetry attempt = (true, repeat (Sleep 5000) n))
  /\ ((forall k, (k < 10)%nat -> attempt k = false) ->
      connectWithRetry attempt = (false, repeat (Sleep 5000) 10))
  /\ (fst (connectWithRetry attempt) = true
      <-> exists k, (k < 10)%nat /\ attempt k = true)
  /\ (length (snd (connectWithRetry attempt)) <= 10)%nat.
Proof.
  unfold connectWithRetry, MAX_RETRIES.
  assert (forall n, (n < 10)%nat ->
            (forall k, (k < n)%nat -> attempt k = false) ->
            attempt n = true ->
            connect_loop attempt 0 10 = (true, repeat (Sleep 5000) n)) as Hok.
  { intros n Hn Hfail Hok.
    apply (connect_loop_connects attempt n 0 10 Hn).
    - intros k Hk. apply Hfail. lia.
    - exact Hok. }
  assert ((forall k, (k < 10)%nat -> attempt k = false) ->
          connect_loop attempt 0 10 = (false, repeat (Sleep 5000) 10)) as Hno.
  { intros Hfail. apply (connect_loop_gives_up attempt 10 0).
    intros k Hk. apply Hfail. lia. }
  assert ((exists n, (n < 10)%nat /\ attempt n = true
                     /\ forall k, (k < n)%nat -> attempt k = false)
          \/ forall k, (k < 10)%nat -> attempt k = false) as Hcases.
  { clear Hok Hno. generalize 10%nat. intros m.
    induction m as [|m IH].
    - right. intros k Hk. lia.
    - destruct IH as [[n [Hn [Ht Hf]]]|Hall].
      + left. exists n. repeat split; [lia | exact Ht | exact Hf].
      + destruct (attempt m) eqn:Am.
        * left. exists m. repeat split; [lia | exact Am | exact Hall].
        * right. intros k Hk.
          destruct (Nat.eq_dec k m) as [->|Hne]; [exact Am | apply Hall; lia]. }
  split; [exact Hok|]. split; [exact Hno|]. split.
  - destruct Hcases as [[n [Hn [Ht Hf]]]|Hall].
    + rewrite (Hok n Hn Hf Ht). simpl. split; [eauto | reflexivity].
    + rewrite (Hno Hall). simpl. split; [discriminate|].
      intros [k [Hk Hk']]. rewrite (Hall k Hk) in Hk'. discriminate.
  - destruct Hcases as [[n [Hn [Ht Hf]]]|Hall].
    + rewrite (Hok n Hn Hf Ht). simpl. rewrite repeat_length. lia.
    + rewrite (Hno Hall). simpl. lia.
Qed.

(** ** The transaction count behind the "true TPS" *)

Lemma left_join_row_length (db : Store) (b : BlockRow) :
  length (left_join_row db b) = Nat.max 1 (length (transactions_of db b)).
Proof.
  unfold left_join_row. destruct (transactions_of db b) as [|t ts];
    [reflexivity|]. rewrite length_map. reflexivity.
Qed.

Lemma recent_data_length (db : Store) (l : list BlockRow) :
  length (flat_map (left_join_row db) l)
  = list_sum (map (fun b => Nat.max 1 (length (transactions_of db b))) l).
Proof.
  induction l as [|b l IH]; simpl; [reflexivity|].
  rewrite length_app, left_join_row_length, IH. reflexivity.
Qed.

Lemma list_sum_at_least (A : Type) (f : A -> nat) (l : list A) :
  (forall x, (1 <= f x)%nat) -> (length l <= list_sum (map f l))%nat.
Proof.
  intros Hf. induction l as [|x l IH]; simpl; [lia|].
  specialize (Hf x). lia.
Qed.

Lemma recent_blocks_nonempty (db : Store) :
  blocks db <> [] -> recent_blocks db <> [].
Proof.
  intros Hne. unfold recent_blocks.
  destruct (Math_max_some (map height (blocks db))) as [m M].
  { destruct (blocks db); [congruence|discriminate]. }
  unfold max_height. rewrite M.
  destruct (Math_max_spec _ m M) as [Hin _].
  apply in_map_iff in Hin. destruct Hin as [r [Hr Hin]].
  assert (In r (filter (fun b => height b >? m - 100) (blocks db))) as Hf.
  { apply filter_In. split; [exact Hin|]. lia. }
  intros Hnil. rewrite Hnil in Hf. contradiction.
Qed.

(** X15 — The count behind the "true TPS" of [/api/network-stats] counts
    join rows, not transactions: over the blocks above the highest height
    minus 100, every block contributes the number of its transactions, but
    at least one. The count is therefore never below the number of those
    blocks, equals it when no transaction is stored at all, and is
    positive as soon as one block is stored. *)
Theorem last100_counts_empty_blocks (db : Store) :
  last100BlocksTxCount db
  = list_sum (map (fun b => Nat.max 1 (length (transactions_of db b)))
                  (recent_blocks db))
  /\ (length (recent_blocks db) <= last100BlocksTxCount db)%nat
  /\ (transactions db = [] ->
      last100BlocksTxCount db = length (recent_blocks db))
  /\ (blocks db <> [] -> (1 <= last100BlocksTxCount db)%nat).
Proof.
  unfold last100BlocksTxCount, recent_data.
  rewrite recent_data_length.
  assert (length (recent_blocks db)
          <= list_sum (map (fun b => Nat.max 1 (length (transactions_of db b)))
                           (recent_blocks db)))%nat as Hle
    by (apply list_sum_at_least; intros x; lia).
  split; [reflexivity|]. split; [exact Hle|]. split.
  - intros Hnil. unfold transactions_of. rewrite Hnil. simpl.
    induction (recent_blocks db) as [|b l IH]; simpl; [reflexivity|].
    f_equal. apply IH. apply list_sum_at_least. intros x. lia.
  - intros Hne. pose proof (recent_blocks_nonempty db Hne) as Hr.
    destruct (recent_blocks db); [congruence|]. simpl in *. lia.
Qed.

(** ** Decimal text through [parseInt] *)

(** X16 — Within the integers that a double holds exactly (below 2^53 in
    absolute value) decimal text goes through [parseInt] unchanged:
    [parseInt] returns the integer, and the text of that number is the
    decimal text again. Hence the [totalTransactions] of
    [/api/network-stats] is the number of stored transaction rows, as
    long as that is below 2^53; and searching for the decimal text of a
    height, when the text is no stored transaction id or block hash and
    the database answers, finds a block of that height when one is
    stored, gives 404 when none is, and gives 500 when the type of the
    [height] column cannot take the integer. *)
Theorem parseInt_reads_decimal (P : Pool) (db : Store) (z : Z) :
  Z.abs z < 2 ^ 53 ->
  parseInt (decimal z) = JsFinite z
  /\ Number_toString (JsFinite z) = decimal z
  /\ (Z.of_nat (length (transactions db)) < 2 ^ 53 ->
      totalTransactions db = JsFinite (Z.of_nat (length (transactions db))))
  /\ ((forall k, pool_rejects P k = false) ->
      (forall t, In t (transactions db) -> txid t <> decimal z) ->
      (forall b, In b (blocks db) -> hash b <> decimal z) ->
      (in_range (height_type P) z = false ->
         search P db (decimal z) = ServerError)
      /\ (in_range (height_type P) z = true ->
          (forall b, In b (blocks db) -> height b = z ->
             exists b', search P db (decimal z) = FoundBlock b'
                        /\ height b' = z)
          /\ ((forall b, In b (blocks db) -> height b <> z) ->
              search P db (decimal z) = NotFound))).
Proof.
  intros Hz.
  assert (parseInt (decimal z) = JsFinite z) as Hp
    by (rewrite parseInt_decimal; apply to_double_small, Hz).
  split; [exact Hp|]. split; [apply Number_toString_small, Hz|]. split.
  - intros Hn. unfold totalTransactions. rewrite parseInt_decimal.
    apply to_double_small. lia.
  - intros R Hnotx Hnohash.
    rewrite (search_by_height P db (decimal z) (R 0%nat) (R 1%nat)
               (text_in_decimal z) (tx_by_id_none db _ Hnotx)
               (block_by_hash_none db _ Hnohash)).
    rewrite Hp, (height_param_safe _ z Hz). cbn [isNaN]. split.
    + intros I. rewrite I. reflexivity.
    + intros I. rewrite I, pool_query_answers by apply R. split.
      * intros b Hin Hh.
        destruct (find_found _ (fun b => height b =? z) _ b Hin) as [b' F];
          [apply Z.eqb_eq, Hh|].
        unfold block_by_height. rewrite F. exists b'. split; [reflexivity|].
        apply find_some in F. destruct F as [_ Heq]. apply Z.eqb_eq, Heq.
      * intros Hnone. rewrite (block_by_height_none db z Hnone). reflexivity.
Qed.

Lemma parseInt_reads_decimal_witness :
  Z.abs 3 < 2 ^ 53
  /\ parseInt (decimal 3) = JsFinite 3
  /\ Number_toString (JsFinite 3) = decimal 3.
Proof.
  assert (Z.abs 3 < 2 ^ 53) as H by reflexivity.
  split; [exact H|].
  pose proof (parseInt_reads_decimal (answering integer) sample_db 3 H) as T.
  split; [exact (proj1 T) | exact (proj1 (proj2 T))].
Defined.

(** ** The link to the previous block *)

Lemma previous_hash_spec (db : Store) (b : BlockRow) :
  NoDup (map height (blocks db)) ->
  (forall r, In r (blocks db) -> height r = height b - 1 ->
     previous_hash db b = Some (hash r))
  /\ ((forall r, In r (blocks db) -> height r <> height b - 1) ->
      previous_hash db b = None).
Proof.
  intros Hnd. unfold previous_hash, block_rows. split.
  - intros r Hin Hh.
    rewrite (settled_rows _ _ height (fun x => height x =? height b - 1) r
               (blocks db)); [reflexivity | | exact Hnd | exact Hin].
    intros x. rewrite Z.eqb_eq, Hh. reflexivity.
  - intros Hnone.
    destruct (filter _ (blocks db)) as [|r rest] eqn:F; [reflexivity|].
    assert (In r (filter (fun x => height x =? height b - 1) (blocks db)))
      as Hf by (rewrite F; left; reflexivity).
    apply filter_In in Hf. destruct Hf as [Hin Hh].
    apply Z.eqb_eq in Hh. destruct (Hnone r Hin Hh).
Qed.

(** X17 — Block answers link to their predecessor. When two blocks of
    consecutive heights are stored one after the other on a database whose
    primary keys hold, [/api/blocks/height/:height] for the second answers
    with [previous_block_hash] equal to the hash stored for the first; and
    on any database with unique heights a block answer carries no previous
    hash exactly when no block of the height below is stored. *)
Theorem previous_block_linked (E1 E2 : Env) (db db1 db2 : Store) (b1 b2 : Block) :
  keys_unique db ->
  storeBlock E1 db b1 = (Fulfilled tt, db1) ->
  storeBlock E2 db1 b2 = (Fulfilled tt, db2) ->
  block_number b2 = block_number b1 + 1 ->
  (exists d, get_block_by_height db2 (block_number b2) = BlockJson d
             /\ detail_block d = insertBlock_args b2
             /\ previous_block_hash d = Some (block_hash b1))
  /\ (forall h d, get_block_by_height db2 h = BlockJson d ->
        (previous_block_hash d = None
         <-> forall r, In r (blocks db2) -> height r <> h - 1)).
Proof.
  intros Hkeys H1 H2 Hnext.
  destruct (storeBlock_rows E1 db db1 b1 Hkeys H1) as [Hkeys1 [Hrow1 _]].
  destruct (storeBlock_rows E2 db1 db2 b2 Hkeys1 H2) as [Hkeys2 [Hrow2 _]].
  assert (forall h d, get_block_by_height db2 h = BlockJson d ->
            height (detail_block d) = h
            /\ previous_block_hash d = previous_hash db2 (detail_block d))
    as Hshape.
  { intros h d. unfold get_block_by_height, block_rows.
    destruct (filter _ (blocks db2)) as [|r rest] eqn:F; [discriminate|].
    intros Hd. injection Hd as <-. simpl. split; [|reflexivity].
    assert (In r (filter (fun x => height x =? h) (blocks db2))) as Hf
      by (rewrite F; left; reflexivity).
    apply filter_In in Hf. apply Z.eqb_eq, Hf. }
  split.
  - exists (block_detail db2 (insertBlock_args b2) (block_number b2)).
    split; [unfold get_block_by_height; rewrite Hrow2; reflexivity|].
    split; [reflexivity|]. simpl.
    assert (In (insertBlock_args b1) (blocks db1)) as Hin1.
    { assert (In (insertBlock_args b1) (block_rows (block_number b1) db1)) as Hf
        by (rewrite Hrow1; left; reflexivity).
      apply filter_In in Hf. apply Hf. }
    assert (In (insertBlock_args b1) (blocks db2)) as Hin2.
    { destruct (storeBlock_never_deletes_blocks E2 db1 db2 b2 H2) as [Hother _].
      apply Hother; [exact Hin1|]. simpl. lia. }
    apply (proj1 (previous_hash_spec db2 (insertBlock_args b2) (proj1 Hkeys2))
             (insertBlock_args b1) Hin2).
    simpl. lia.
  - intros h d Hd. destruct (Hshape h d Hd) as [Hh ->]. split.
    + intros Hnone r Hin Hr.
      rewrite (proj1 (previous_hash_spec db2 (detail_block d) (proj1 Hkeys2))
                 r Hin) in Hnone by lia.
      discriminate.
    + intros Hno.
      apply (proj2 (previous_hash_spec db2 (detail_block d) (proj1 Hkeys2))).
      intros r Hin. rewrite Hh. apply Hno, Hin.
Qed.

Lemma previous_block_linked_witness :
  exists d,
    get_block_by_height
      (snd (storeBlock sample_env
              (snd (storeBlock sample_env sample_db sample_block))
              {| block_number := 4; block_hash := "h4"; block_timestamp := 40;
                 block_bitcoin_height := 8; block_transactions := None |})) 4
    = BlockJson d
    /\ previous_block_hash d = Some "h3".
Proof.
  assert (keys_unique sample_db) as Hkeys
    by (split; simpl; repeat constructor; simpl; intuition discriminate).
  set (next := {| block_number := 4; block_hash := "h4"; block_timestamp := 40;
                  block_bitcoin_height := 8; block_transactions := None |}).
  set (db1 := snd (storeBlock sample_env sample_db sample_block)).
  assert (storeBlock sample_env sample_db sample_block = (Fulfilled tt, db1))
    as H1 by exact eq_refl.
  assert (storeBlock sample_env db1 next
          = (Fulfilled tt, snd (storeBlock sample_env db1 next)))
    as H2 by exact eq_refl.
  destruct (previous_block_linked sample_env sample_env sample_db db1 _
              sample_block next Hkeys H1 H2 eq_refl) as [[d [Hd [_ Hp]]] _].
  exists d. split; [exact Hd | exact Hp].
Defined.
